(** * flexible-shadow: a lazily allocated multi-level shadow map

    Shallow embedding of [src/flexible-shadow.hpp] and verification of its
    lookup, allocation and teardown behaviour.

    The C++ template [ShadowMap<Address,Leaf,shadow_malloc,shadow_free,
    dimension0,dimensions...>] is instantiated recursively over the pack of
    bit widths.  The embedding follows that recursion: every member function
    is a [Fixpoint] over the list [dimensions], carrying [dimension0]
    alongside; the empty pack selects the hand-written specialisation that
    holds the [Leaf].

    Memory is a store of objects indexed by block addresses; a pointer is
    the address of a block, and [&_leaf] is the address of the last-level
    map, whose only member [_leaf] is.  The functions that touch memory
    live in a small monad that threads the store, records the calls made to
    the host (allocator and [Leaf] lifecycle), and fails where the C++
    program would read or write storage that holds no object of the
    expected kind, index an array out of bounds, or free a block twice.

    Integers are in [Z].  Shifts are the mathematical ones; in C++ a shift
    by a negative amount or by at least the width of the shifted type is
    undefined, which is why the results about slot values ask for
    [valid_width] of every level, and why the results that depend on which
    slot an address selects ask for [fits_Address]: the widths sum to at
    most the width of [Address], so that [addr>>Lower::dimensions_sum] is
    the mathematical shift at every level. *)

From Stdlib Require Import ZArith Lia.
From stdpp Require Import base option list gmap sets.

Local Open Scope Z_scope.

(** ** Integer arithmetic of the header *)

(** [1ul] is an [unsigned long]: 64 bits wide on the LP64 targets the
    header is written for; its arithmetic wraps modulo 2^64. *)
Definition ul (z : Z) : Z := z mod 2 ^ 64.

(** [1ul<<dimension0]: array length, loop bound and base of the mask. *)
Definition one_shl (dimension0 : Z) : Z := ul (Z.shiftl 1 dimension0).

(** [(1ul<<dimension0)-1] *)
Definition low_mask (dimension0 : Z) : Z := ul (one_shl dimension0 - 1).

(** The widths for which [1ul<<dimension0] is defined in C++ and is
    [2^dimension0]. *)
Definition valid_width (d : Z) : Prop := 0 ≤ d < 64.

(** [dimensions_sum]: number of address bits covered by a map and all the
    maps below it. *)
Fixpoint dimensions_sum (dimension0 : Z) (dimensions : list Z) : Z :=
  match dimensions with
  | [] => dimension0
  | d1 :: ds => dimension0 + dimensions_sum d1 ds
  end.

(** [(addr>>Lower::dimensions_sum) & ((1ul<<dimension0)-1)], the slot that
    [leaf] and [leaf_for_write] select in a map with lower levels.  The
    shift is that of C++ as long as [Lower::dimensions_sum] is below the
    width of [Address] (see [fits_Address]); for a larger count C++ leaves
    the shift undefined, and the value given here is then not what a
    compiled program computes.  On a negative value of a signed [Address]
    the shift is the arithmetic one, and the mask sees the two's complement
    of the value, as in the conversion to [unsigned long]. *)
Definition slot_index (dimension0 d1 : Z) (ds : list Z) (addr : Z) : Z :=
  Z.land (Z.shiftr addr (dimensions_sum d1 ds)) (low_mask dimension0).

(** ** Memory, events and the host's template arguments *)

Definition nullptr : Z := 0.

(** What a block of storage holds. *)
Inductive object : Type :=
| Raw                          (* allocated, nothing constructed in it *)
| Level (_pointers : list Z)   (* a ShadowMap with lower levels *)
| Last.                        (* the last-level ShadowMap, its _leaf constructed *)

(** Calls that leave the map: the allocator and the lifecycle of [Leaf].
    [EvDestructAt] marks each invocation of [destructAt]. *)
Inductive event : Type :=
| EvMalloc (size : Z) (p : Z)
| EvFree (p : Z)
| EvConstruct (p : Z)
| EvDestruct (p : Z)
| EvDestructAt (p : Z).

(** The template arguments other than the widths: the integer type
    [Address], given by its width and by whether it is signed, the size of
    [Leaf], and [shadow_malloc], which the header only declares.  The
    allocator picks the address of the new block from the blocks that are
    live and the size asked for. *)
Class Host : Type := {
  Address_bits : Z;
  Address_signed : bool;
  sizeof_Leaf : Z;
  malloc_result : gmap Z object → Z → Z
}.

(** The documented contract of [shadow_malloc]: it always returns a valid
    pointer, that is a non-null address of storage that overlaps no live
    block. *)
Class HostOk `{Host} : Prop := {
  malloc_valid : ∀ h size, malloc_result h size ≠ nullptr;
  malloc_fresh : ∀ h size, h !! malloc_result h size = None
}.

(** Conversion of an [unsigned long] value to the type [Address]: the value
    modulo [2^Address_bits], read in two's complement if [Address] is
    signed. *)
Definition to_Address `{Host} (z : Z) : Z :=
  let m := z mod 2 ^ Address_bits in
  if Address_signed && (2 ^ (Address_bits - 1) <=? m) then m - 2 ^ Address_bits else m.

(** The largest value of [Address]. *)
Definition Address_max `{Host} : Z :=
  if Address_signed then 2 ^ (Address_bits - 1) - 1 else 2 ^ Address_bits - 1.

(** The widths fit the type [Address]: they sum to at most its width, as the
    configuration is meant to be chosen, and the count of the shift at the
    top level, [Lower::dimensions_sum], is below that width.  The counts at
    the levels below are smaller still.  Under this condition every shift
    in [leaf] and [leaf_for_write] is defined in C++ and no slot depends on
    a bit the type [Address] does not have. *)
Definition fits_Address `{Host} (dimension0 : Z) (dimensions : list Z) : Prop :=
  dimensions_sum dimension0 dimensions ≤ Address_bits ∧
  match dimensions with
  | [] => True
  | d1 :: ds => dimensions_sum d1 ds < Address_bits
  end.

(** ** The monad of memory operations *)

Definition M (A : Type) : Type := gmap Z object → option (A * gmap Z object * list event).

Definition ret {A} (a : A) : M A := λ h, Some (a, h, []).

Definition bind {A B} (m : M A) (k : A → M B) : M B :=
  λ h, match m h with
       | None => None
       | Some (a, h1, t1) =>
           match k a h1 with
           | None => None
           | Some (b, h2, t2) => Some (b, h2, t1 ++ t2)
           end
       end.

Notation "'let!' x ':=' m 'in' k" := (bind m (λ x, k))
  (at level 10, x name, m at level 100, k at level 200).
Notation "m ';;' k" := (bind m (λ _, k))
  (at level 100, k at level 200, right associativity).

(** Read [map->_pointers[i]]. *)
Definition load_pointer (map i : Z) : M Z :=
  λ h, match h !! map with
       | Some (Level ps) =>
           if decide (0 ≤ i) then
             match ps !! Z.to_nat i with
             | Some q => Some (q, h, [])
             | None => None
             end
           else None
       | _ => None
       end.

(** Write [map->_pointers[i] = v]. *)
Definition store_pointer (map i v : Z) : M unit :=
  λ h, match h !! map with
       | Some (Level ps) =>
           if decide (0 ≤ i < Z.of_nat (length ps)) then
             Some (tt, <[map := Level (<[Z.to_nat i := v]> ps)]> h, [])
           else None
       | _ => None
       end.

(** The loop of [constructAt], [for (i = 0; i < n; i++) map->_pointers[i] =
    nullptr], taken as one step: it writes every element of the array, so
    whatever the storage at [map] held, it holds [n] null pointers after. *)
Definition clear_pointers (map n : Z) : M unit :=
  λ h, match h !! map with
       | Some _ => Some (tt, <[map := Level (replicate (Z.to_nat n) nullptr)]> h, [])
       | None => None
       end.

(** Modelled from the spec: the record type [Leaf] is the caller's, the
    header only calls its [construct] and [destruct].  [construct]
    initialises the record in storage that exists; [destruct] finalises a
    constructed record and leaves bare storage.  What the record contains
    is of no concern to the map.

    [map->_leaf.construct()] *)
Definition Leaf_construct (map : Z) : M unit :=
  λ h, match h !! map with
       | Some _ => Some (tt, <[map := Last]> h, [EvConstruct map])
       | None => None
       end.

(** [map->_leaf.destruct()] *)
Definition Leaf_destruct (map : Z) : M unit :=
  λ h, match h !! map with
       | Some Last => Some (tt, <[map := Raw]> h, [EvDestruct map])
       | _ => None
       end.

(** [shadow_malloc(size)]: the host's choice of block, entered into the
    store as bare storage. *)
Definition shadow_malloc `{Host} (size : Z) : M Z :=
  λ h, let p := malloc_result h size in
       Some (p, <[p := Raw]> h, [EvMalloc size p]).

(** Modelled from the spec: [shadow_free] is declared in the header and
    defined by the host.  It releases a block that [shadow_malloc] returned
    and that is still allocated; the block is gone afterwards, and
    releasing anything else is an error. *)
Definition shadow_free (p : Z) : M unit :=
  λ h, match h !! p with
       | Some _ => Some (tt, delete p h, [EvFree p])
       | None => None
       end.

(** Record an event, change nothing. *)
Definition emit (e : event) : M unit := λ h, Some (tt, h, [e]).

(** [for(unsigned long long i=first; ...; i++) body(i)], [n] iterations. *)
Fixpoint for_loop (n : nat) (i : Z) (body : Z → M unit) : M unit :=
  match n with
  | O => ret tt
  | S n' => body i ;; for_loop n' (i + 1) body
  end.

(** ** The member functions of ShadowMap *)

(** [sizeof(ShadowMap<...>)]: an array of [1ul<<dimension0] pointers of
    eight bytes each, or the single [Leaf]. *)
Definition sizeof_ShadowMap `{Host} (dimension0 : Z) (dimensions : list Z) : Z :=
  match dimensions with
  | [] => sizeof_Leaf
  | _ :: _ => 8 * one_shl dimension0
  end.

Definition constructAt (dimension0 : Z) (dimensions : list Z) (map : Z) : M unit :=
  match dimensions with
  | [] => Leaf_construct map
  | _ :: _ => clear_pointers map (one_shl dimension0)
  end.

Fixpoint destructAt (dimension0 : Z) (dimensions : list Z) (map : Z) : M unit :=
  emit (EvDestructAt map) ;;
  match dimensions with
  | [] => Leaf_destruct map
  | d1 :: ds =>
      for_loop (Z.to_nat (one_shl dimension0)) 0 (λ i,
        let! p0 := load_pointer map i in
        if decide (p0 = nullptr) then ret tt
        else
          let! p1 := load_pointer map i in
          destructAt d1 ds p1 ;;
          let! p2 := load_pointer map i in
          shadow_free p2)
  end.

Fixpoint leaf (dimension0 : Z) (dimensions : list Z) (this addr : Z) : M Z :=
  match dimensions with
  | [] => ret this
  | d1 :: ds =>
      let index := slot_index dimension0 d1 ds addr in
      let! pointer := load_pointer this index in
      if decide (pointer = nullptr) then ret nullptr
      else leaf d1 ds pointer addr
  end.

Fixpoint leaf_for_write `{Host} (dimension0 : Z) (dimensions : list Z) (this addr : Z) : M Z :=
  match dimensions with
  | [] => ret this
  | d1 :: ds =>
      let index := slot_index dimension0 d1 ds addr in
      let! pointer := load_pointer this index in
      if decide (pointer = nullptr) then
        let! fresh := shadow_malloc (sizeof_ShadowMap d1 ds) in
        store_pointer this index fresh ;;
        let! p1 := load_pointer this index in
        constructAt d1 ds p1 ;;
        let! p2 := load_pointer this index in
        leaf_for_write d1 ds p2 addr
      else leaf_for_write d1 ds pointer addr
  end.

Fixpoint index (dimension0 : Z) (dimensions : list Z) (addr : Z) : Z :=
  match dimensions with
  | [] => Z.land addr (low_mask dimension0)
  | d1 :: ds => index d1 ds addr
  end.

Fixpoint contiguousElements `{Host} (dimension0 : Z) (dimensions : list Z) (addr : Z) : Z :=
  match dimensions with
  | [] => to_Address (ul (one_shl dimension0 - index dimension0 [] addr))
  | d1 :: ds => contiguousElements d1 ds addr
  end.

(** The user's constructor and destructor, [ShadowMap()] and [~ShadowMap()].
    The storage of the top-level map is the caller's. *)
Definition ShadowMap_ctor (dimension0 : Z) (dimensions : list Z) (this : Z) : M unit :=
  constructAt dimension0 dimensions this.

Definition ShadowMap_dtor (dimension0 : Z) (dimensions : list Z) (this : Z) : M unit :=
  destructAt dimension0 dimensions this.

(** ** Observations on traces and stores *)

(** The records on which [Leaf::construct] ran, in order. *)
Definition constructed (t : list event) : list Z :=
  omap (λ e, match e with EvConstruct p => Some p | _ => None end) t.

(** The blocks handed to [shadow_free]. *)
Definition freed (t : list event) : list Z :=
  omap (λ e, match e with EvFree p => Some p | _ => None end) t.

(** The blocks obtained from [shadow_malloc]. *)
Definition allocated (t : list event) : list Z :=
  omap (λ e, match e with EvMalloc _ p => Some p | _ => None end) t.

(** The maps on which [destructAt] was invoked. *)
Definition finalized (t : list event) : list Z :=
  omap (λ e, match e with EvDestructAt p => Some p | _ => None end) t.

(** A sequence of write-triggering lookups on one map, results dropped. *)
Fixpoint writes `{Host} (dimension0 : Z) (dimensions : list Z) (this : Z)
    (addrs : list Z) : M unit :=
  match addrs with
  | [] => ret tt
  | a :: rest =>
      leaf_for_write dimension0 dimensions this a ;;
      writes dimension0 dimensions this rest
  end.

(** Slots that hold a pointer keep it from [h] to [h']. *)
Definition slots_kept (h h' : gmap Z object) : Prop :=
  ∀ x ps i q, h !! x = Some (Level ps) → ps !! i = Some q → q ≠ nullptr →
    ∃ ps', h' !! x = Some (Level ps') ∧ ps' !! i = Some q.

(** Every map on the way down to the leaf for [addr] exists. *)
Fixpoint path_allocated (dimension0 : Z) (dimensions : list Z)
    (h : gmap Z object) (this addr : Z) : Prop :=
  this ≠ nullptr ∧
  match dimensions with
  | [] => True
  | d1 :: ds =>
      ∃ ps q, h !! this = Some (Level ps) ∧
        ps !! Z.to_nat (slot_index dimension0 d1 ds addr) = Some q ∧
        path_allocated d1 ds h q addr
  end.

(** The slots that [leaf] and [leaf_for_write] select on the way down, top
    level first. *)
Fixpoint descent (dimension0 : Z) (dimensions : list Z) (addr : Z) : list Z :=
  match dimensions with
  | [] => []
  | d1 :: ds => slot_index dimension0 d1 ds addr :: descent d1 ds addr
  end.

(** Walk down from [this] through the given slots; stop with [nullptr] at
    an empty one. *)
Fixpoint follow (slots : list Z) (this : Z) : M Z :=
  match slots with
  | [] => ret this
  | i :: rest =>
      let! pointer := load_pointer this i in
      if decide (pointer = nullptr) then ret nullptr else follow rest pointer
  end.

(** The slot of level [i] as the specification words it: shift the address
    right by the sum of the widths strictly below level [i], then mask with
    [2^Wi - 1]. *)
Definition spec_slot (widths : list Z) (i : nat) (addr : Z) : Z :=
  Z.land (Z.shiftr addr (foldr Z.add 0 (drop (S i) widths)))
         (2 ^ (nth i widths 0) - 1).

(** Width of the last level. *)
Fixpoint last_width (dimension0 : Z) (dimensions : list Z) : Z :=
  match dimensions with
  | [] => dimension0
  | d1 :: ds => last_width d1 ds
  end.

(** The address bits above the last level's width, within the bits the
    instantiation is configured for. *)
Definition configured_prefix (dimension0 : Z) (dimensions : list Z) (addr : Z) : Z :=
  Z.shiftr addr (last_width dimension0 dimensions)
    mod 2 ^ (dimensions_sum dimension0 dimensions - last_width dimension0 dimensions).

(** The maps below [this], every one listed after the maps below it and in
    slot order: the order in which teardown releases them. *)
Fixpoint nodes (dimension0 : Z) (dimensions : list Z) (h : gmap Z object) (this : Z) : list Z :=
  match dimensions with
  | [] => []
  | d1 :: ds =>
      match h !! this with
      | Some (Level ps) =>
          ps ≫= (λ q, if decide (q = nullptr) then [] else nodes d1 ds h q ++ [q])
      | _ => []
      end
  end.

(** The store holds, from [this] down, objects of the kinds and sizes the
    instantiation prescribes. *)
Fixpoint shaped (dimension0 : Z) (dimensions : list Z) (h : gmap Z object) (this : Z) : Prop :=
  match dimensions with
  | [] => h !! this = Some Last
  | d1 :: ds =>
      match h !! this with
      | Some (Level ps) =>
          Z.of_nat (length ps) = one_shl dimension0 ∧
          Forall (λ q, q = nullptr ∨ shaped d1 ds h q) ps
      | _ => False
      end
  end.

(** The maps released on behalf of a slot that holds [q]: the maps below
    [q], then [q] itself; nothing for an empty slot. *)
Definition below (d1 : Z) (ds : list Z) (h : gmap Z object) (q : Z) : list Z :=
  if decide (q = nullptr) then [] else nodes d1 ds h q ++ [q].

(** The calls that tearing down the map at [this] makes, read off the store
    before teardown starts. *)
Fixpoint teardown_trace (dimension0 : Z) (dimensions : list Z) (h : gmap Z object)
    (this : Z) : list event :=
  EvDestructAt this ::
  match dimensions with
  | [] => [EvDestruct this]
  | d1 :: ds =>
      match h !! this with
      | Some (Level ps) =>
          ps ≫= (λ q, if decide (q = nullptr) then []
                      else teardown_trace d1 ds h q ++ [EvFree q])
      | _ => []
      end
  end.

(** One round of the loop in [destructAt], with the call of
    [Lower::destructAt] as a parameter. *)
Definition slot_teardown (lower_destructAt : Z → M unit) (map i : Z) : M unit :=
  let! p0 := load_pointer map i in
  if decide (p0 = nullptr) then ret tt
  else
    let! p1 := load_pointer map i in
    lower_destructAt p1 ;;
    let! p2 := load_pointer map i in
    shadow_free p2.

(** The calls of one round of that loop, for the slot value [q]. *)
Definition slot_trace (d1 : Z) (ds : list Z) (h : gmap Z object) (q : Z) : list event :=
  if decide (q = nullptr) then [] else teardown_trace d1 ds h q ++ [EvFree q].

(** A live map: a tree of well-shaped objects, no map reachable twice. *)
Definition live (dimension0 : Z) (dimensions : list Z) (h : gmap Z object) (this : Z) : Prop :=
  this ≠ nullptr ∧
  shaped dimension0 dimensions h this ∧
  NoDup (this :: nodes dimension0 dimensions h this).

(** [c] sits in a slot of the map at [p]. *)
Definition child_of (h : gmap Z object) (c p : Z) : Prop :=
  c ≠ nullptr ∧ ∃ ps, h !! p = Some (Level ps) ∧ c ∈ ps.

(** What [constructAt] leaves in the storage, and the call it makes. *)
Definition constructed_object (dimension0 : Z) (dimensions : list Z) : object :=
  match dimensions with
  | [] => Last
  | _ :: _ => Level (replicate (Z.to_nat (one_shl dimension0)) nullptr)
  end.

Definition constructAt_trace (dimensions : list Z) (map : Z) : list event :=
  match dimensions with
  | [] => [EvConstruct map]
  | _ :: _ => []
  end.

(** The store after [leaf_for_write] has hung a new lower map at [fresh]
    into slot [i] of [this]. *)
Definition grown (h : gmap Z object) (this : Z) (ps : list Z) (i : Z) (fresh : Z)
    (d1 : Z) (ds : list Z) : gmap Z object :=
  <[fresh := constructed_object d1 ds]> (<[this := Level (<[Z.to_nat i := fresh]> ps)]> h).

(** ** A concrete host

    A bump allocator: the block after the highest live one.  It meets the
    contract of [shadow_malloc] and lets the model run on examples. *)

Definition top_of (h : gmap Z object) : Z := foldr Z.max 0 (map_to_list h).*1.

Definition bump_host (address_bits : Z) : Host :=
  {| Address_bits := address_bits;
     Address_signed := false;
     sizeof_Leaf := 1;
     malloc_result := λ h _, top_of h + 1 |}.

(** The same host with a signed [Address]. *)
Definition signed_host (address_bits : Z) : Host :=
  {| Address_bits := address_bits;
     Address_signed := true;
     sizeof_Leaf := 1;
     malloc_result := λ h _, top_of h + 1 |}.

(** Stores for the examples.  The top-level map lives at address 10:
    its bare storage, a one-width map, and a map of widths (1, 1) before
    and after its first write-triggering lookup. *)
Definition raw_block : gmap Z object := {[10 := Raw]}.
Definition one_width : gmap Z object := {[10 := Last]}.
Definition no_leaf : gmap Z object := {[10 := Level [0; 0]]}.
Definition one_leaf : gmap Z object := {[10 := Level [0; 11]; 11 := Last]}.

(** A map of widths (1, 1, 1) with one map at each lower level. *)
Definition three_levels : gmap Z object :=
  {[10 := Level [0; 11]; 11 := Level [12; 0]; 12 := Last]}.

(** C2 as the specification states it: after the constructor, [leaf]
    answers [nullptr] whatever the instantiation. *)
Definition fresh_map_unmapped_as_stated : Prop :=
  ∀ d0 dims this addr h0 h1 t,
    ShadowMap_ctor d0 dims this h0 = Some (tt, h1, t) →
    ∃ h2 t2, leaf d0 dims this addr h1 = Some (nullptr, h2, t2).

(** ** Further observations *)

(** The records on which [Leaf::destruct] ran, in order. *)
Definition destructed (t : list event) : list Z :=
  omap (λ e, match e with EvDestruct p => Some p | _ => None end) t.

(** The sizes asked of [shadow_malloc], in order. *)
Definition requested (t : list event) : list Z :=
  omap (λ e, match e with EvMalloc size _ => Some size | _ => None end) t.

(** [sizeof(Lower)] for each level below the top one, top-down. *)
Fixpoint lower_sizes `{Host} (dimension0 : Z) (dimensions : list Z) : list Z :=
  match dimensions with
  | [] => []
  | d1 :: ds => sizeof_ShadowMap d1 ds :: lower_sizes d1 ds
  end.

(** The last-level maps of the tree at [this], in slot order. *)
Fixpoint records (dimension0 : Z) (dimensions : list Z) (h : gmap Z object) (this : Z) : list Z :=
  match dimensions with
  | [] => [this]
  | d1 :: ds =>
      match h !! this with
      | Some (Level ps) =>
          ps ≫= (λ q, if decide (q = nullptr) then [] else records d1 ds h q)
      | _ => []
      end
  end.

(** From [h] to [h'] every block is as it was, or gone, or a constructed
    [Leaf] turned into bare storage. *)
Definition only_released (h h' : gmap Z object) : Prop :=
  ∀ x, h' !! x = h !! x ∨ h' !! x = None ∨ (h !! x = Some Last ∧ h' !! x = Some Raw).

(** * Verification *)

Lemma top_of_ge (h : gmap Z object) (p : Z) (o : object) :
  h !! p = Some o → p ≤ top_of h.
Proof.
  intros Hp. apply elem_of_map_to_list in Hp. unfold top_of.
  assert (Hin : p ∈ (map_to_list h).*1) by (apply list_elem_of_fmap; by exists (p, o)).
  clear Hp. revert Hin. generalize ((map_to_list h).*1). intros l.
  induction l as [|y l IH]; intros Hin; [by apply elem_of_nil in Hin|].
  apply elem_of_cons in Hin as [->|Hin]; simpl; [lia|]. specialize (IH Hin). lia.
Qed.

Lemma top_of_nonneg (h : gmap Z object) : 0 ≤ top_of h.
Proof. unfold top_of. induction ((map_to_list h).*1); simpl; lia. Qed.

Global Instance bump_host_ok (address_bits : Z) : @HostOk (bump_host address_bits).
Proof.
  split; intros h size; cbn.
  - unfold nullptr. pose proof (top_of_nonneg h). lia.
  - destruct (h !! (top_of h + 1)) as [o|] eqn:E; [|done].
    apply top_of_ge in E. lia.
Qed.

(** ** Reasoning about the monad *)

Lemma bind_Some {A B} (m : M A) (k : A → M B) h b h2 t :
  bind m k h = Some (b, h2, t) ↔
  ∃ a h1 t1 t2, m h = Some (a, h1, t1) ∧ k a h1 = Some (b, h2, t2) ∧ t = t1 ++ t2.
Proof.
  unfold bind. split.
  - destruct (m h) as [[[a h1] t1]|]; [|done].
    destruct (k a h1) as [[[b' h2'] t2]|] eqn:Hk; [|done].
    intros [= -> -> <-]. by exists a, h1, t1, t2.
  - intros (a & h1 & t1 & t2 & -> & -> & ->). done.
Qed.

Lemma bind_step {A B} (m : M A) (k : A → M B) h a h1 :
  m h = Some (a, h1, []) → bind m k h = k a h1.
Proof.
  intros Hm. unfold bind. rewrite Hm.
  by destruct (k a h1) as [[[b h2] t2]|].
Qed.

Lemma bind_step_ev {A B} (m : M A) (k : A → M B) h a h1 t1 b h2 t2 :
  m h = Some (a, h1, t1) → k a h1 = Some (b, h2, t2) →
  bind m k h = Some (b, h2, t1 ++ t2).
Proof. intros Hm Hk. unfold bind. by rewrite Hm, Hk. Qed.

Lemma load_pointer_Some map i h q h' t :
  load_pointer map i h = Some (q, h', t) ↔
  h' = h ∧ t = [] ∧ 0 ≤ i ∧ ∃ ps, h !! map = Some (Level ps) ∧ ps !! Z.to_nat i = Some q.
Proof.
  unfold load_pointer. split.
  - destruct (h !! map) as [[|ps|]|]; try done.
    case_decide; [|done]. destruct (ps !! Z.to_nat i) as [q'|] eqn:E; [|done].
    intros [= -> -> <-]. eauto 10.
  - intros (-> & -> & Hi & ps & -> & Hq). rewrite decide_True by done. by rewrite Hq.
Qed.

Lemma load_pointer_at map i h ps q :
  h !! map = Some (Level ps) → 0 ≤ i → ps !! Z.to_nat i = Some q →
  load_pointer map i h = Some (q, h, []).
Proof. intros. apply load_pointer_Some. eauto 10. Qed.

(** ** Widths for which the header's shifts are defined *)

Lemma one_shl_valid d : valid_width d → one_shl d = 2 ^ d.
Proof.
  intros [H0 H1]. unfold one_shl, ul. rewrite Z.shiftl_1_l.
  apply Z.mod_small. split; [apply Z.pow_nonneg; lia|].
  apply Z.pow_lt_mono_r; lia.
Qed.

Lemma low_mask_valid d : valid_width d → low_mask d = 2 ^ d - 1.
Proof.
  intros Hd. unfold low_mask. rewrite (one_shl_valid d Hd). unfold ul.
  destruct Hd as [H0 H1].
  assert (0 < 2 ^ d) by (apply Z.pow_pos_nonneg; lia).
  assert (2 ^ d < 2 ^ 64) by (apply Z.pow_lt_mono_r; lia).
  apply Z.mod_small. lia.
Qed.

Lemma land_low_mask x d : valid_width d → Z.land x (low_mask d) = x mod 2 ^ d.
Proof.
  intros Hd. rewrite (low_mask_valid d Hd).
  replace (2 ^ d - 1) with (Z.ones d) by (rewrite Z.ones_equiv; lia).
  apply Z.land_ones. apply Hd.
Qed.

Lemma slot_index_range d0 d1 ds addr :
  valid_width d0 → 0 ≤ slot_index d0 d1 ds addr < one_shl d0.
Proof.
  intros Hd. unfold slot_index. rewrite (land_low_mask _ d0 Hd), (one_shl_valid d0 Hd).
  apply Z.mod_pos_bound. apply Z.pow_pos_nonneg; [lia|apply Hd].
Qed.

Lemma slot_index_nonneg d0 d1 ds addr : 0 ≤ slot_index d0 d1 ds addr.
Proof.
  unfold slot_index. apply Z.land_nonneg. right.
  unfold low_mask, ul. apply Z.mod_pos_bound. lia.
Qed.

Lemma dimensions_sum_foldr d0 dims : dimensions_sum d0 dims = foldr Z.add 0 (d0 :: dims).
Proof.
  revert d0. induction dims as [|d1 ds IH]; intros d0; simpl; [lia|].
  rewrite IH. reflexivity.
Qed.

(** ** Projections of traces *)

Lemma omap_list_bind {A B C} (f : B → option C) (g : A → list B) (l : list A) :
  omap f (l ≫= g) = l ≫= (λ a, omap f (g a)).
Proof.
  induction l as [|a l IH]; [done|]. by rewrite !bind_cons, omap_app, IH.
Qed.

Lemma constructed_app t1 t2 : constructed (t1 ++ t2) = constructed t1 ++ constructed t2.
Proof. apply omap_app. Qed.

Lemma constructed_constructAt_trace dims map :
  constructed (constructAt_trace dims map) = match dims with [] => [map] | _ => [] end.
Proof. by destruct dims. Qed.

Lemma allocated_malloc size p t : allocated (EvMalloc size p :: t) = p :: allocated t.
Proof. reflexivity. Qed.

Lemma allocated_app t1 t2 : allocated (t1 ++ t2) = allocated t1 ++ allocated t2.
Proof. apply omap_app. Qed.

Lemma allocated_constructAt_trace dims map : allocated (constructAt_trace dims map) = [].
Proof. by destruct dims. Qed.

Lemma freed_destructAt p t : freed (EvDestructAt p :: t) = freed t.
Proof. reflexivity. Qed.

Lemma freed_app t1 t2 : freed (t1 ++ t2) = freed t1 ++ freed t2.
Proof. apply omap_app. Qed.

Lemma freed_bind {A} (g : A → list event) (l : list A) :
  freed (l ≫= g) = l ≫= (λ a, freed (g a)).
Proof. apply omap_list_bind. Qed.

Lemma finalized_destructAt p t : finalized (EvDestructAt p :: t) = p :: finalized t.
Proof. reflexivity. Qed.

Lemma finalized_app t1 t2 : finalized (t1 ++ t2) = finalized t1 ++ finalized t2.
Proof. apply omap_app. Qed.

Lemma finalized_bind {A} (g : A → list event) (l : list A) :
  finalized (l ≫= g) = l ≫= (λ a, finalized (g a)).
Proof. apply omap_list_bind. Qed.

Lemma elem_of_freed t x : x ∈ freed t → EvFree x ∈ t.
Proof.
  unfold freed. rewrite list_elem_of_omap. intros (e & He & Hx).
  destruct e; simplify_eq. done.
Qed.

(** ** Read-only lookup *)

Lemma leaf_pure d0 dims this addr h r h' t :
  leaf d0 dims this addr h = Some (r, h', t) → h' = h ∧ t = [].
Proof.
  revert d0 this. induction dims as [|d1 ds IH]; intros d0 this; simpl.
  - by intros [= _ -> ->].
  - intros (q & h1 & t1 & t2 & Hload & Hk & ->)%bind_Some.
    apply load_pointer_Some in Hload as (-> & -> & _).
    case_decide.
    + unfold ret in Hk. by simplify_eq.
    + by apply IH in Hk.
Qed.

Lemma leaf_follow d0 dims this addr h :
  leaf d0 dims this addr h = follow (descent d0 dims addr) this h.
Proof.
  revert d0 this h. induction dims as [|d1 ds IH]; intros d0 this h; simpl; [done|].
  unfold bind. destruct (load_pointer _ _ h) as [[[q h1] t1]|]; [|done].
  case_decide; [done|]. by rewrite IH.
Qed.

Lemma elem_of_nodes_cons d0 d1 ds h this ps x :
  h !! this = Some (Level ps) →
  x ∈ nodes d0 (d1 :: ds) h this ↔
  ∃ q, q ∈ ps ∧ q ≠ nullptr ∧ x ∈ q :: nodes d1 ds h q.
Proof.
  intros Hh. simpl. rewrite Hh, list_elem_of_bind. split.
  - intros (q & Hx & Hq). exists q. case_decide; [by apply elem_of_nil in Hx|].
    split_and!; [done..|]. apply elem_of_app in Hx as [Hx|Hx%list_elem_of_singleton].
    + by right.
    + subst. by left.
  - intros (q & Hq & Hn & Hx). exists q. split; [|done].
    rewrite decide_False by done. apply elem_of_app.
    apply elem_of_cons in Hx as [->|Hx]; [right; by apply list_elem_of_singleton|by left].
Qed.

Lemma leaf_shaped d0 dims this addr h :
  Forall valid_width (d0 :: dims) → shaped d0 dims h this →
  ∃ r, leaf d0 dims this addr h = Some (r, h, []) ∧
       (r = nullptr ∨ r ∈ this :: nodes d0 dims h this).
Proof.
  revert d0 this. induction dims as [|d1 ds IH]; intros d0 this Hw Hs; cbn [leaf].
  - exists this. split; [done|]. right. by left.
  - simpl in Hs. destruct (h !! this) as [[|ps|]|] eqn:Hthis; try done.
    destruct Hs as [Hlen Hall].
    apply Forall_cons in Hw as [Hd0 Hw].
    pose proof (slot_index_range d0 d1 ds addr Hd0) as Hi.
    destruct (lookup_lt_is_Some_2 ps (Z.to_nat (slot_index d0 d1 ds addr))) as [q Hq]; [lia|].
    rewrite (bind_step _ _ _ q h) by (eapply load_pointer_at; [done|lia|done]).
    case_decide as Hnull.
    + exists nullptr. split; [done|by left].
    + assert (Hqin : q ∈ ps) by (eapply list_elem_of_lookup_2; done).
      rewrite Forall_forall in Hall. destruct (Hall q Hqin) as [?|Hsq]; [done|].
      destruct (IH d1 q Hw Hsq) as (r & Hr & Hin). exists r. split; [done|].
      destruct Hin as [?|Hin]; [by left|]. right. right.
      eapply (elem_of_nodes_cons d0 d1 ds); [done|]. eauto.
Qed.

(** C3.  The read-only lookup [leaf] never changes the map: whenever it
    returns, the store is the one it started from and no call to the
    allocator or to the [Leaf] lifecycle was made, also when it stops at an
    empty slot and answers [nullptr]; and on a well-shaped map it does
    return. *)
Theorem leaf_is_read_only d0 dims this addr h :
  (∀ r h' t, leaf d0 dims this addr h = Some (r, h', t) → h' = h ∧ t = []) ∧
  (∀ d1 ds ps, dims = d1 :: ds → h !! this = Some (Level ps) →
     ps !! Z.to_nat (slot_index d0 d1 ds addr) = Some nullptr →
     leaf d0 dims this addr h = Some (nullptr, h, [])) ∧
  (Forall valid_width (d0 :: dims) → shaped d0 dims h this →
     ∃ r, leaf d0 dims this addr h = Some (r, h, [])).
Proof.
  split_and!.
  - intros r h' t. apply leaf_pure.
  - intros d1 ds ps -> Hthis Hslot. simpl.
    rewrite (bind_step _ _ _ nullptr h).
    + by rewrite decide_True.
    + eapply load_pointer_at; [done|apply slot_index_nonneg|done].
  - intros Hw Hs. destruct (leaf_shaped d0 dims this addr h Hw Hs) as (r & Hr & _). eauto.
Qed.

Lemma leaf_is_read_only_witness :
  leaf 1 [1] 10 3 one_leaf =
    Some (11, one_leaf, []) ∧
  one_leaf = one_leaf ∧
  ([] : list event) = [].
Proof.
  split; [vm_compute; reflexivity|].
  apply (proj1 (leaf_is_read_only 1 [1] 10 3 one_leaf) 11).
  vm_compute. reflexivity.
Defined.

(** ** The single-level map *)

(** C10.  A map instantiated with exactly one width holds its [Leaf]
    itself.  Both lookups return the address of that record, for every
    address and in every store, touching nothing; since the map is an
    object its address is not [nullptr], so [leaf] does not answer
    "unmapped" on such a map, not even directly after its constructor. *)
Theorem single_level_lookup `{Host} d0 this addr h :
  leaf d0 [] this addr h = Some (this, h, []) ∧
  leaf_for_write d0 [] this addr h = Some (this, h, []) ∧
  (this ≠ nullptr → ∀ h0 h1 t, ShadowMap_ctor d0 [] this h0 = Some (tt, h1, t) →
     ∃ r, leaf d0 [] this addr h1 = Some (r, h1, []) ∧ r ≠ nullptr).
Proof.
  split_and!; [done..|]. intros Hthis h0 h1 t _. by exists this.
Qed.

Lemma single_level_lookup_witness :
  10 ≠ nullptr ∧
  ShadowMap_ctor 4 [] 10 raw_block = Some (tt, one_width, [EvConstruct 10]) ∧
  ∃ r, leaf 4 [] 10 7 one_width = Some (r, one_width, []) ∧ r ≠ nullptr.
Proof.
  assert (Hne : 10 ≠ nullptr) by (unfold nullptr; lia).
  assert (Hc : ShadowMap_ctor 4 [] 10 raw_block = Some (tt, one_width, [EvConstruct 10]))
    by (vm_compute; reflexivity).
  split_and!; [done..|].
  exact (proj2 (proj2 (@single_level_lookup (bump_host 64) 4 10 7 ∅)) Hne _ _ _ Hc).
Defined.

(** ** A freshly created map *)

(** C2, counterexample.  The one-width map over the storage at address 10:
    right after construction [leaf] returns 10, the address of its record,
    not [nullptr]. *)
Lemma fresh_single_level_map_is_mapped : ¬ fresh_map_unmapped_as_stated.
Proof.
  intros Hc.
  destruct (Hc 4 [] 10 0 raw_block one_width [EvConstruct 10]) as (h2 & t2 & Hl).
  - vm_compute. reflexivity.
  - simpl in Hl. unfold ret, nullptr in Hl. simplify_eq.
Qed.

Lemma ctor_levels d0 d1 ds this h :
  is_Some (h !! this) →
  ShadowMap_ctor d0 (d1 :: ds) this h =
    Some (tt, <[this := Level (replicate (Z.to_nat (one_shl d0)) nullptr)]> h, []).
Proof.
  intros [o Ho]. unfold ShadowMap_ctor, constructAt, clear_pointers. by rewrite Ho.
Qed.

(** C2, amended.  For a map with at least two widths whose storage exists,
    the constructor succeeds without calling the host and afterwards
    [leaf] returns [nullptr] for every address. *)
Theorem unmapped_by_default d0 d1 ds this addr h0 :
  valid_width d0 → is_Some (h0 !! this) →
  ∃ h1, ShadowMap_ctor d0 (d1 :: ds) this h0 = Some (tt, h1, []) ∧
        leaf d0 (d1 :: ds) this addr h1 = Some (nullptr, h1, []).
Proof.
  intros Hd0 Hthis. eexists. split; [by apply ctor_levels|].
  cbn [leaf]. pose proof (slot_index_range d0 d1 ds addr Hd0) as Hi.
  erewrite bind_step.
  - by rewrite decide_True.
  - eapply load_pointer_at; [apply lookup_insert_eq|lia|].
    apply lookup_replicate_2. lia.
Qed.

Lemma unmapped_by_default_witness :
  valid_width 1 ∧ is_Some (raw_block !! 10) ∧
  ∃ h1, ShadowMap_ctor 1 [1] 10 raw_block = Some (tt, h1, []) ∧
        leaf 1 [1] 10 3 h1 = Some (nullptr, h1, []).
Proof.
  assert (Hw : valid_width 1) by (unfold valid_width; lia).
  assert (Hs : is_Some (raw_block !! 10)) by (vm_compute; eauto).
  split_and!; [done..|]. exact (unmapped_by_default 1 1 [] 10 3 _ Hw Hs).
Defined.

(** ** Offsets inside a leaf *)

Lemma index_last_width d0 dims addr :
  Forall valid_width (d0 :: dims) →
  index d0 dims addr = addr mod 2 ^ last_width d0 dims.
Proof.
  revert d0. induction dims as [|d1 ds IH]; intros d0 Hw.
  - apply Forall_cons in Hw as [Hd0 _]. simpl. by apply land_low_mask.
  - apply Forall_cons in Hw as [_ Hw]. cbn [index last_width]. by apply IH.
Qed.

Lemma last_width_valid d0 dims :
  Forall valid_width (d0 :: dims) → valid_width (last_width d0 dims).
Proof.
  revert d0. induction dims as [|d1 ds IH]; intros d0 Hw.
  - by apply Forall_cons in Hw as [Hd0 _].
  - apply Forall_cons in Hw as [_ Hw]. by apply (IH d1) in Hw.
Qed.

Lemma contiguousElements_last `{Host} d0 dims addr :
  contiguousElements d0 dims addr =
    to_Address (ul (one_shl (last_width d0 dims) - index d0 dims addr)).
Proof.
  revert d0. induction dims as [|d1 ds IH]; intros d0; [done|].
  cbn [contiguousElements index last_width]. by rewrite IH.
Qed.

(** The conversion to [Address] keeps the values of [Address]. *)
Lemma to_Address_small `{Host} z :
  0 ≤ z ≤ Address_max → to_Address z = z.
Proof.
  unfold to_Address, Address_max. intros Hz.
  destruct Address_signed; cbn [andb].
  - destruct (decide (0 ≤ Address_bits - 1)) as [Hb|Hb].
    + assert (E : 2 ^ Address_bits = 2 * 2 ^ (Address_bits - 1)).
      { rewrite <- Z.pow_succ_r by done. f_equal. lia. }
      rewrite Z.mod_small by lia.
      destruct (Z.leb_spec (2 ^ (Address_bits - 1)) z); [lia|done].
    + rewrite (Z.pow_neg_r 2 (Address_bits - 1)) in Hz by lia. lia.
  - apply Z.mod_small. lia.
Qed.

(** Where the run length fits the type [Address] the header's expression
    is exact. *)
Lemma contiguousElements_exact `{Host} d0 dims addr :
  Forall valid_width (d0 :: dims) → 2 ^ last_width d0 dims ≤ Address_max →
  contiguousElements d0 dims addr = 2 ^ last_width d0 dims - index d0 dims addr.
Proof.
  intros Hw Hfit. pose proof (last_width_valid d0 dims Hw) as Hl.
  rewrite contiguousElements_last, (one_shl_valid _ Hl), (index_last_width _ _ _ Hw).
  destruct Hl as [Hl0 Hl1].
  assert (Hpos : 0 < 2 ^ last_width d0 dims) by (apply Z.pow_pos_nonneg; lia).
  pose proof (Z.mod_pos_bound addr (2 ^ last_width d0 dims) Hpos) as Hidx.
  assert (Hul : 2 ^ last_width d0 dims < 2 ^ 64) by (apply Z.pow_lt_mono_r; lia).
  unfold ul.
  set (n := 2 ^ last_width d0 dims - addr mod 2 ^ last_width d0 dims).
  assert (Hn : 0 < n ≤ 2 ^ last_width d0 dims) by (unfold n; lia).
  rewrite (Z.mod_small n (2 ^ 64)) by lia. apply to_Address_small. lia.
Qed.

(** C7.  The offset part of the claim holds: [index] is the address modulo
    [2^Wn] ([index_last_width]).  The run length is [2^Wn - index(addr)]
    as long as that number fits [Address] ([contiguousElements_exact]), but
    the header returns it converted to [Address]: for an 8-bit [Address]
    and the single width 8, at address 0 the whole leaf of 256 records is
    contiguous and [contiguousElements] returns 0. *)
Theorem contiguousElements_truncated :
  index 8 [] 0 = 0 mod 2 ^ 8 ∧
  2 ^ 8 - index 8 [] 0 = 256 ∧
  @contiguousElements (bump_host 8) 8 [] 0 = 0.
Proof. vm_compute. done. Qed.

(** ** The slots selected on the way down *)

Lemma descent_spec d0 dims addr :
  Forall valid_width (d0 :: dims) →
  descent d0 dims addr =
    map (λ i, spec_slot (d0 :: dims) i addr) (seq 0 (length dims)).
Proof.
  revert d0. induction dims as [|d1 ds IH]; intros d0 Hw; [done|].
  apply Forall_cons in Hw as [Hd0 Hw].
  cbn [descent length seq map]. f_equal.
  - unfold slot_index, spec_slot. cbn [drop nth].
    by rewrite (low_mask_valid d0 Hd0), dimensions_sum_foldr.
  - rewrite (IH d1 Hw), <- seq_shift, map_map. reflexivity.
Qed.

Lemma index_spec d0 dims addr :
  Forall valid_width (d0 :: dims) →
  index d0 dims addr = spec_slot (d0 :: dims) (length dims) addr.
Proof.
  revert d0. induction dims as [|d1 ds IH]; intros d0 Hw.
  - apply Forall_cons in Hw as [Hd0 _]. unfold spec_slot. cbn.
    by rewrite (low_mask_valid d0 Hd0).
  - apply Forall_cons in Hw as [_ Hw]. cbn [index length].
    rewrite (IH d1 Hw). reflexivity.
Qed.

(** ** Write-triggering lookup, one level at a time *)

Lemma constructAt_Some d0 dims map h :
  is_Some (h !! map) →
  constructAt d0 dims map h =
    Some (tt, <[map := constructed_object d0 dims]> h, constructAt_trace dims map).
Proof.
  intros [o Ho]. destruct dims; simpl; unfold Leaf_construct, clear_pointers; by rewrite Ho.
Qed.

Lemma leaf_for_write_unfold `{HostOk} d0 d1 ds this addr h ps q :
  h !! this = Some (Level ps) →
  ps !! Z.to_nat (slot_index d0 d1 ds addr) = Some q →
  leaf_for_write d0 (d1 :: ds) this addr h =
    if decide (q = nullptr) then
      let fresh := malloc_result h (sizeof_ShadowMap d1 ds) in
      match leaf_for_write d1 ds fresh addr
              (grown h this ps (slot_index d0 d1 ds addr) fresh d1 ds) with
      | Some (r, h', t') =>
          Some (r, h', EvMalloc (sizeof_ShadowMap d1 ds) fresh :: constructAt_trace ds fresh ++ t')
      | None => None
      end
    else leaf_for_write d1 ds q addr h.
Proof.
  intros Hthis Hq. cbn [leaf_for_write].
  pose proof (slot_index_nonneg d0 d1 ds addr) as Hi0.
  set (i := slot_index d0 d1 ds addr) in *.
  rewrite (bind_step _ _ _ q h) by (by eapply load_pointer_at).
  case_decide as Hnull; [|done]. cbn zeta.
  set (sz := sizeof_ShadowMap d1 ds). set (f := malloc_result h sz).
  assert (Hf : h !! f = None) by apply malloc_fresh.
  assert (Hne : this ≠ f) by (intros ->; by rewrite Hthis in Hf).
  assert (Hlt : (Z.to_nat i < length ps)%nat) by (by eapply lookup_lt_Some).
  set (ps' := <[Z.to_nat i := f]> ps).
  set (h1 := <[f := Raw]> h).
  set (h2 := <[this := Level ps']> h1).
  set (h3 := <[f := constructed_object d1 ds]> h2).
  assert (E1 : shadow_malloc sz h = Some (f, h1, [EvMalloc sz f])) by done.
  assert (E2 : store_pointer this i f h1 = Some (tt, h2, [])).
  { unfold store_pointer, h1. rewrite lookup_insert_ne by done. rewrite Hthis.
    rewrite decide_True by lia. done. }
  assert (Hps' : ps' !! Z.to_nat i = Some f) by (by apply list_lookup_insert_eq).
  assert (E3 : load_pointer this i h2 = Some (f, h2, [])).
  { eapply load_pointer_at; [apply lookup_insert_eq|done..]. }
  assert (E4 : constructAt d1 ds f h2 = Some (tt, h3, constructAt_trace ds f)).
  { apply constructAt_Some. unfold h2, h1.
    rewrite lookup_insert_ne, lookup_insert_eq by done. eauto. }
  assert (E5 : load_pointer this i h3 = Some (f, h3, [])).
  { eapply load_pointer_at; [|done..]. unfold h3, h2.
    rewrite lookup_insert_ne by done. apply lookup_insert_eq. }
  assert (E6 : h3 = grown h this ps i f d1 ds).
  { unfold h3, h2, h1, grown. rewrite (insert_insert_ne _ this f) by done.
    by rewrite insert_insert_eq. }
  unfold bind at 1. rewrite E1.
  unfold bind at 1. rewrite E2.
  rewrite (bind_step _ _ _ f h2 E3).
  unfold bind at 1. rewrite E4.
  rewrite (bind_step _ _ _ f h3 E5), <- E6.
  destruct (leaf_for_write d1 ds f addr h3) as [[[r h'] t']|]; [|done].
  by rewrite app_nil_l.
Qed.

Lemma leaf_for_write_present `{Host} d0 d1 ds this addr h ps q :
  h !! this = Some (Level ps) →
  ps !! Z.to_nat (slot_index d0 d1 ds addr) = Some q → q ≠ nullptr →
  leaf_for_write d0 (d1 :: ds) this addr h = leaf_for_write d1 ds q addr h.
Proof.
  intros Hthis Hq Hnull. cbn [leaf_for_write].
  rewrite (bind_step _ _ _ q h); [by rewrite decide_False|].
  eapply load_pointer_at; [done|apply slot_index_nonneg|done].
Qed.

Lemma leaf_for_write_inv `{Host} d0 d1 ds this addr h r h' t :
  leaf_for_write d0 (d1 :: ds) this addr h = Some (r, h', t) →
  ∃ ps q, h !! this = Some (Level ps) ∧
          ps !! Z.to_nat (slot_index d0 d1 ds addr) = Some q.
Proof.
  cbn [leaf_for_write]. intros (q & h1 & t1 & t2 & Hload & _)%bind_Some.
  apply load_pointer_Some in Hload as (_ & _ & _ & ps & Hps & Hq). eauto.
Qed.

(** Induction along the descent of a successful [leaf_for_write]: the last
    level, a slot that holds a map, and an empty slot that is filled. *)
Lemma leaf_for_write_ind `{HostOk} (addr : Z)
    (P : Z → list Z → Z → gmap Z object → Z → gmap Z object → list event → Prop) :
  (∀ d0 this h, P d0 [] this h this h []) →
  (∀ d0 d1 ds this h ps q r h' t,
     h !! this = Some (Level ps) →
     ps !! Z.to_nat (slot_index d0 d1 ds addr) = Some q → q ≠ nullptr →
     leaf_for_write d1 ds q addr h = Some (r, h', t) →
     P d1 ds q h r h' t → P d0 (d1 :: ds) this h r h' t) →
  (∀ d0 d1 ds this h ps r h' t,
     h !! this = Some (Level ps) →
     ps !! Z.to_nat (slot_index d0 d1 ds addr) = Some nullptr →
     let size := sizeof_ShadowMap d1 ds in
     let fresh := malloc_result h size in
     let h1 := grown h this ps (slot_index d0 d1 ds addr) fresh d1 ds in
     leaf_for_write d1 ds fresh addr h1 = Some (r, h', t) →
     P d1 ds fresh h1 r h' t →
     P d0 (d1 :: ds) this h r h' (EvMalloc size fresh :: constructAt_trace ds fresh ++ t)) →
  ∀ d0 dims this h r h' t,
    leaf_for_write d0 dims this addr h = Some (r, h', t) → P d0 dims this h r h' t.
Proof.
  intros Hlast Hpresent Habsent d0 dims. revert d0.
  induction dims as [|d1 ds IH]; intros d0 this h r h' t Hw.
  - cbn in Hw. unfold ret in Hw. simplify_eq. apply Hlast.
  - destruct (leaf_for_write_inv _ _ _ _ _ _ _ _ _ Hw) as (ps & q & Hthis & Hq).
    rewrite (leaf_for_write_unfold _ _ _ _ _ _ _ _ Hthis Hq) in Hw.
    case_decide as Hnull.
    + subst q. cbn zeta in Hw.
      destruct (leaf_for_write d1 ds _ addr _) as [[[r1 h1] t1]|] eqn:Hrec; [|done].
      simplify_eq. eapply Habsent; eauto.
    + eapply Hpresent; eauto.
Qed.

Lemma slots_kept_refl h : slots_kept h h.
Proof. intros x ps i q ???. eauto. Qed.

Lemma slots_kept_trans h1 h2 h3 : slots_kept h1 h2 → slots_kept h2 h3 → slots_kept h1 h3.
Proof.
  intros H12 H23 x ps i q Hx Hi Hq.
  destruct (H12 x ps i q Hx Hi Hq) as (ps' & Hx' & Hi'). eauto.
Qed.

Lemma grown_lookup_this h this ps i fresh d1 ds :
  h !! this = Some (Level ps) → h !! fresh = None →
  grown h this ps i fresh d1 ds !! this = Some (Level (<[Z.to_nat i := fresh]> ps)).
Proof.
  intros Hthis Hf. unfold grown.
  rewrite lookup_insert_ne by (intros ->; by rewrite Hthis in Hf).
  apply lookup_insert_eq.
Qed.

Lemma grown_lookup_fresh h this ps i fresh d1 ds :
  grown h this ps i fresh d1 ds !! fresh = Some (constructed_object d1 ds).
Proof. apply lookup_insert_eq. Qed.

Lemma grown_lookup_other h this ps i fresh d1 ds x :
  x ≠ this → x ≠ fresh → grown h this ps i fresh d1 ds !! x = h !! x.
Proof. intros ??. unfold grown. by rewrite !lookup_insert_ne. Qed.

Lemma grown_slots_kept h this ps i fresh d1 ds :
  h !! this = Some (Level ps) → ps !! Z.to_nat i = Some nullptr → h !! fresh = None →
  slots_kept h (grown h this ps i fresh d1 ds).
Proof.
  intros Hthis Hi Hf x psx j q Hx Hj Hq.
  assert (x ≠ fresh) by (intros ->; by rewrite Hx in Hf).
  destruct (decide (x = this)) as [->|Hne].
  - rewrite Hthis in Hx. simplify_eq.
    rewrite (grown_lookup_this _ _ _ _ _ _ _ Hthis Hf). eexists. split; [done|].
    rewrite list_lookup_insert_ne; [done|]. intros Heq. rewrite <- Heq, Hi in Hj. by simplify_eq.
  - rewrite grown_lookup_other by done. eauto.
Qed.

Lemma grown_is_Some h this ps i fresh d1 ds x :
  is_Some (h !! x) → is_Some (grown h this ps i fresh d1 ds !! x).
Proof.
  intros Hx. unfold grown.
  destruct (decide (x = fresh)) as [->|]; [rewrite lookup_insert_eq; eauto|].
  rewrite lookup_insert_ne by done.
  destruct (decide (x = this)) as [->|]; [rewrite lookup_insert_eq; eauto|].
  by rewrite lookup_insert_ne.
Qed.

Lemma leaf_for_write_slots_kept `{HostOk} d0 dims this addr h r h' t :
  leaf_for_write d0 dims this addr h = Some (r, h', t) → slots_kept h h'.
Proof.
  revert d0 dims this h r h' t.
  apply (leaf_for_write_ind addr (λ _ _ _ h _ h' _, slots_kept h h')).
  - intros. apply slots_kept_refl.
  - intros. done.
  - intros d0 d1 ds this h ps r h' t Hthis Hi size fresh h1 _ IH.
    eapply slots_kept_trans; [|exact IH]. apply grown_slots_kept; [done..|apply malloc_fresh].
Qed.

Lemma leaf_for_write_is_Some `{HostOk} d0 dims this addr h r h' t :
  leaf_for_write d0 dims this addr h = Some (r, h', t) →
  ∀ x, is_Some (h !! x) → is_Some (h' !! x).
Proof.
  revert d0 dims this h r h' t.
  apply (leaf_for_write_ind addr (λ _ _ _ h _ h' _, ∀ x, is_Some (h !! x) → is_Some (h' !! x))).
  - done.
  - done.
  - intros d0 d1 ds this h ps r h' t Hthis Hi size fresh h1 _ IH x Hx.
    apply IH. by apply grown_is_Some.
Qed.

(** ** Write, then read *)

Lemma leaf_step d0 d1 ds this addr h ps q :
  h !! this = Some (Level ps) →
  ps !! Z.to_nat (slot_index d0 d1 ds addr) = Some q →
  leaf d0 (d1 :: ds) this addr h =
    if decide (q = nullptr) then Some (nullptr, h, []) else leaf d1 ds q addr h.
Proof.
  intros Hthis Hq. cbn [leaf].
  rewrite (bind_step _ _ _ q h); [by case_decide|].
  eapply load_pointer_at; [done|apply slot_index_nonneg|done].
Qed.

Lemma leaf_after_leaf_for_write `{HostOk} d0 dims this addr h r h' t :
  leaf_for_write d0 dims this addr h = Some (r, h', t) →
  leaf d0 dims this addr h' = Some (r, h', []).
Proof.
  revert d0 dims this h r h' t.
  apply (leaf_for_write_ind addr
           (λ d0 dims this _ r h' _, leaf d0 dims this addr h' = Some (r, h', []))).
  - done.
  - intros d0 d1 ds this h ps q r h' t Hthis Hq Hnull Hrec IH.
    destruct (leaf_for_write_slots_kept _ _ _ _ _ _ _ _ Hrec _ _ _ _ Hthis Hq Hnull)
      as (ps' & Hthis' & Hq').
    rewrite (leaf_step _ _ _ _ _ _ _ _ Hthis' Hq'). by rewrite decide_False.
  - intros d0 d1 ds this h ps r h' t Hthis Hi size fresh h1 Hrec IH.
    assert (Hf : h !! fresh = None) by apply malloc_fresh.
    assert (Hv : fresh ≠ nullptr) by apply malloc_valid.
    pose proof (grown_lookup_this h this ps (slot_index d0 d1 ds addr) fresh d1 ds Hthis Hf) as Hg.
    assert (Hslot : <[Z.to_nat (slot_index d0 d1 ds addr) := fresh]> ps
                      !! Z.to_nat (slot_index d0 d1 ds addr) = Some fresh).
    { apply list_lookup_insert_eq. by eapply lookup_lt_Some. }
    destruct (leaf_for_write_slots_kept _ _ _ _ _ _ _ _ Hrec _ _ _ _ Hg Hslot Hv)
      as (ps' & Hthis' & Hq').
    rewrite (leaf_step _ _ _ _ _ _ _ _ Hthis' Hq'). by rewrite decide_False.
Qed.

(** C1.  Whenever [leaf_for_write] on address [addr] returns the record
    pointer [r], the read-only lookup [leaf] on [addr] in the store it left
    returns the same [r] (and changes nothing). *)
Theorem write_then_read `{HostOk} d0 dims this addr h r h' t :
  leaf_for_write d0 dims this addr h = Some (r, h', t) →
  leaf d0 dims this addr h' = Some (r, h', []).
Proof. apply leaf_after_leaf_for_write. Qed.

Lemma write_then_read_witness :
  @leaf_for_write (bump_host 64) 1 [1] 10 3 no_leaf =
    Some (11, one_leaf, [EvMalloc 1 11; EvConstruct 11]) ∧
  leaf 1 [1] 10 3 one_leaf =
    Some (11, one_leaf, []).
Proof.
  assert (Hw : @leaf_for_write (bump_host 64) 1 [1] 10 3 no_leaf =
    Some (11, one_leaf, [EvMalloc 1 11; EvConstruct 11]))
    by (vm_compute; reflexivity).
  split; [exact Hw|]. exact (@write_then_read (bump_host 64) _ _ _ _ _ _ _ _ _ Hw).
Defined.

(** ** Lookups on a path that is already allocated *)

(** C5.  When every map on the way down to the leaf of [addr] exists,
    [leaf_for_write] does exactly what [leaf] does: both return the same
    record pointer, which is not [nullptr], nothing is allocated or
    constructed and the store stays as it is. *)
Theorem leaf_for_write_on_allocated_path `{Host} d0 dims this addr h :
  path_allocated d0 dims h this addr →
  ∃ r, r ≠ nullptr ∧
       leaf d0 dims this addr h = Some (r, h, []) ∧
       leaf_for_write d0 dims this addr h = Some (r, h, []).
Proof.
  revert d0 this. induction dims as [|d1 ds IH]; intros d0 this; cbn [path_allocated].
  - intros [Hthis _]. by exists this.
  - intros (Hthis & ps & q & Hps & Hq & Hpath).
    assert (Hnull : q ≠ nullptr) by (destruct ds; apply Hpath).
    destruct (IH d1 q Hpath) as (r & Hr & Hleaf & Hwrite). exists r.
    rewrite (leaf_step _ _ _ _ _ _ _ _ Hps Hq), decide_False by done.
    by rewrite (leaf_for_write_present _ _ _ _ _ _ _ _ Hps Hq Hnull).
Qed.

Lemma leaf_for_write_on_allocated_path_witness :
  path_allocated 1 [1] one_leaf 10 3 ∧
  ∃ r, r ≠ nullptr ∧
       leaf 1 [1] 10 3 one_leaf =
         Some (r, one_leaf, []) ∧
       @leaf_for_write (bump_host 64) 1 [1] 10 3 one_leaf =
         Some (r, one_leaf, []).
Proof.
  assert (Hp : path_allocated 1 [1] one_leaf 10 3).
  { split; [unfold nullptr; lia|]. exists [0; 11], 11. split; [vm_compute; reflexivity|].
    split; [vm_compute; reflexivity|]. split; [unfold nullptr; lia|exact I]. }
  split; [exact Hp|].
  exact (@leaf_for_write_on_allocated_path (bump_host 64) 1 [1] 10 3 _ Hp).
Defined.

(** The converse reading of [path_allocated]: it holds exactly when the
    read-only lookup from an existing map finds a record. *)
Lemma leaf_found_path_allocated d0 dims this addr h r :
  this ≠ nullptr → leaf d0 dims this addr h = Some (r, h, []) → r ≠ nullptr →
  path_allocated d0 dims h this addr.
Proof.
  revert d0 this. induction dims as [|d1 ds IH]; intros d0 this Hthis Hleaf Hr.
  - done.
  - cbn [leaf] in Hleaf. apply bind_Some in Hleaf as (q & h1 & t1 & t2 & Hload & Hk & Ht).
    apply load_pointer_Some in Hload as (-> & -> & _ & ps & Hps & Hq).
    simpl in Ht. subst t2.
    case_decide as Hnull; [unfold ret in Hk; by simplify_eq|].
    split; [done|]. exists ps, q. split_and!; [done..|]. by apply IH.
Qed.

(** ** The selected slots are those of the specification *)

(** C8.  Where the widths fit the type [Address], so that every shift of
    the header is defined, the slot selected at level [i] on the way down
    is the address shifted right by the sum of the widths strictly below
    level [i] and masked with [2^Wi - 1]: [leaf] walks exactly these slots,
    and the record returned by [leaf_for_write] sits at the end of exactly
    these slots.  The offset inside the leaf is the same expression for the
    last level, where the header does not shift.  For the widths (4, 4) and
    an 8-bit [Address], which fit, address 0x13 selects slot 1 at the top,
    has offset 3, and 13 contiguous elements. *)
Theorem slots_follow_specification :
  (∀ (host : Host) d0 dims addr,
     Forall valid_width (d0 :: dims) → fits_Address d0 dims →
     descent d0 dims addr = map (λ i, spec_slot (d0 :: dims) i addr) (seq 0 (length dims)) ∧
     (∀ this h, leaf d0 dims this addr h =
        follow (map (λ i, spec_slot (d0 :: dims) i addr) (seq 0 (length dims))) this h) ∧
     (∀ (ok : HostOk) this h r h' t, leaf_for_write d0 dims this addr h = Some (r, h', t) →
        follow (map (λ i, spec_slot (d0 :: dims) i addr) (seq 0 (length dims))) this h' =
          Some (r, h', []))) ∧
  (∀ d0 dims addr, Forall valid_width (d0 :: dims) →
     index d0 dims addr = spec_slot (d0 :: dims) (length dims) addr) ∧
  @fits_Address (bump_host 8) 4 [4] ∧
  descent 4 [4] 0x13 = [1] ∧
  index 4 [4] 0x13 = 3 ∧
  @contiguousElements (bump_host 8) 4 [4] 0x13 = 13.
Proof.
  split; [|split; [|by vm_compute]].
  - intros host d0 dims addr Hw _. rewrite <- (descent_spec d0 dims addr Hw). split_and!.
    + done.
    + intros this h. apply leaf_follow.
    + intros ok this h r h' t Hwr. rewrite <- leaf_follow.
      by eapply leaf_after_leaf_for_write.
  - intros d0 dims addr Hw. by apply index_spec.
Qed.

Lemma slots_follow_specification_witness :
  Forall valid_width [4; 4] ∧ @fits_Address (bump_host 8) 4 [4] ∧
  descent 4 [4] 0x13 = map (λ i, spec_slot [4; 4] i 0x13) (seq 0 1) ∧
  (∀ this h, leaf 4 [4] this 0x13 h =
     follow (map (λ i, spec_slot [4; 4] i 0x13) (seq 0 1)) this h) ∧
  (∀ (ok : @HostOk (bump_host 8)) this h r h' t,
     @leaf_for_write (bump_host 8) 4 [4] this 0x13 h = Some (r, h', t) →
     follow (map (λ i, spec_slot [4; 4] i 0x13) (seq 0 1)) this h' = Some (r, h', [])).
Proof.
  assert (Hw : Forall valid_width [4; 4]) by (repeat constructor; unfold valid_width; lia).
  assert (Hf : @fits_Address (bump_host 8) 4 [4]) by (vm_compute; split; [discriminate|reflexivity]).
  split; [exact Hw|]. split; [exact Hf|].
  exact (proj1 slots_follow_specification (bump_host 8) 4 [4] 0x13 Hw Hf).
Defined.

(** ** What a write-triggering lookup constructs *)

(** Every record constructed by one call is new: its storage did not exist
    before the call, it exists after it, and no record is constructed
    twice within the call. *)
Lemma leaf_for_write_constructed `{HostOk} d0 dims this addr h r h' t :
  leaf_for_write d0 dims this addr h = Some (r, h', t) →
  NoDup (constructed t) ∧
  ∀ x, x ∈ constructed t → h !! x = None ∧ is_Some (h' !! x).
Proof.
  revert d0 dims this h r h' t.
  apply (leaf_for_write_ind addr (λ _ _ _ h _ h' t,
           NoDup (constructed t) ∧
           ∀ x, x ∈ constructed t → h !! x = None ∧ is_Some (h' !! x))).
  - intros. split; [constructor|]. intros x Hx. by apply elem_of_nil in Hx.
  - done.
  - intros d0 d1 ds this h ps r h' t Hthis Hi size fresh h1 Hrec [IHnd IHfresh].
    assert (Hf : h !! fresh = None) by apply malloc_fresh.
    change (EvMalloc size fresh :: constructAt_trace ds fresh ++ t)
      with ([EvMalloc size fresh] ++ constructAt_trace ds fresh ++ t).
    rewrite !constructed_app, constructed_constructAt_trace. cbn [constructed omap app].
    assert (Hold : ∀ x, x ∈ constructed t → h !! x = None ∧ is_Some (h' !! x)).
    { intros x Hx. destruct (IHfresh x Hx) as [Hn Hs]. split; [|done].
      destruct (h !! x) as [o|] eqn:E; [|done].
      assert (is_Some (h1 !! x)) as [o' Ho] by (apply grown_is_Some; eauto).
      by rewrite Hn in Ho. }
    destruct ds; [|done]. split.
    + apply NoDup_cons. split; [|done]. intros Hin. destruct (IHfresh _ Hin) as [Hn _].
      unfold h1 in Hn. by rewrite grown_lookup_fresh in Hn.
    + intros x [->|Hx]%elem_of_cons; [|by apply Hold]. split; [done|].
      eapply leaf_for_write_is_Some; [exact Hrec|].
      unfold h1. rewrite grown_lookup_fresh. eauto.
Qed.

(** A call that does anything at all found an empty slot on its way: the
    read-only lookup before it answered [nullptr]. *)
Lemma leaf_for_write_only_when_absent `{HostOk} d0 dims this addr h r h' t :
  leaf_for_write d0 dims this addr h = Some (r, h', t) →
  t ≠ [] → leaf d0 dims this addr h = Some (nullptr, h, []).
Proof.
  revert d0 dims this h r h' t.
  apply (leaf_for_write_ind addr (λ d0 dims this h _ _ t,
           t ≠ [] → leaf d0 dims this addr h = Some (nullptr, h, []))).
  - done.
  - intros d0 d1 ds this h ps q r h' t Hthis Hq Hnull _ IH Ht.
    rewrite (leaf_step _ _ _ _ _ _ _ _ Hthis Hq), decide_False by done. by apply IH.
  - intros d0 d1 ds this h ps r h' t Hthis Hi size fresh h1 _ _ _.
    by rewrite (leaf_step _ _ _ _ _ _ _ _ Hthis Hi), decide_True.
Qed.

Lemma writes_constructed `{HostOk} d0 dims this addrs h h' t :
  writes d0 dims this addrs h = Some (tt, h', t) →
  NoDup (constructed t) ∧
  (∀ x, x ∈ constructed t → h !! x = None) ∧
  (∀ x, is_Some (h !! x) → is_Some (h' !! x)) ∧
  slots_kept h h'.
Proof.
  revert h h' t. induction addrs as [|a rest IH]; intros h h' t; cbn [writes].
  - unfold ret. intros ?; simplify_eq. split_and!; [constructor| |done|apply slots_kept_refl].
    intros x Hx. by apply elem_of_nil in Hx.
  - intros (r & h1 & t1 & t2 & Hw & Hrest & ->)%bind_Some.
    destruct (leaf_for_write_constructed _ _ _ _ _ _ _ _ Hw) as [Hnd1 Hfresh1].
    pose proof (leaf_for_write_is_Some _ _ _ _ _ _ _ _ Hw) as Hdom1.
    pose proof (leaf_for_write_slots_kept _ _ _ _ _ _ _ _ Hw) as Hkept1.
    destruct (IH _ _ _ Hrest) as (Hnd2 & Hfresh2 & Hdom2 & Hkept2).
    rewrite constructed_app. split_and!.
    + apply NoDup_app. split_and!; [done| |done].
      intros x Hx1 Hx2. destruct (Hfresh1 x Hx1) as [_ [o Ho]].
      by rewrite (Hfresh2 x Hx2) in Ho.
    + intros x [Hx|Hx]%elem_of_app; [by apply Hfresh1|].
      destruct (h !! x) as [o|] eqn:E; [|done].
      destruct (Hdom1 x) as [o' Ho]; [eauto|]. by rewrite (Hfresh2 x Hx) in Ho.
    + intros x Hx. by apply Hdom2, Hdom1.
    + by eapply slots_kept_trans.
Qed.

(** ** Live maps: shape and separation *)

Lemma list_bind_ext_in {A B} (f g : A → list B) (l : list A) :
  (∀ x, x ∈ l → f x = g x) → l ≫= f = l ≫= g.
Proof.
  induction l as [|a l IH]; intros Hfg; [done|].
  cbn. rewrite (Hfg a) by left. rewrite IH; [done|].
  intros x Hx. apply Hfg. by right.
Qed.

Lemma nodes_cons d0 d1 ds h this :
  nodes d0 (d1 :: ds) h this =
    match h !! this with
    | Some (Level ps) => ps ≫= below d1 ds h
    | _ => []
    end.
Proof. reflexivity. Qed.

Lemma nodes_level d0 d1 ds h this ps :
  h !! this = Some (Level ps) → nodes d0 (d1 :: ds) h this = ps ≫= below d1 ds h.
Proof. intros Hthis. by rewrite nodes_cons, Hthis. Qed.

Lemma elem_of_below d1 ds h q x :
  x ∈ below d1 ds h q ↔ q ≠ nullptr ∧ x ∈ q :: nodes d1 ds h q.
Proof.
  unfold below. case_decide as Hq.
  - split; [by intros ?%elem_of_nil|by intros [? _]].
  - rewrite elem_of_app, list_elem_of_singleton, elem_of_cons. tauto.
Qed.

Lemma elem_of_nodes_level d0 d1 ds h this ps x :
  h !! this = Some (Level ps) →
  x ∈ nodes d0 (d1 :: ds) h this ↔ ∃ q, q ∈ ps ∧ x ∈ below d1 ds h q.
Proof.
  intros Hthis. rewrite (nodes_level _ _ _ _ _ _ Hthis), list_elem_of_bind.
  split; intros (q & ? & ?); exists q; tauto.
Qed.

Lemma nodes_nonnull d0 dims h this x :
  x ∈ nodes d0 dims h this → x ≠ nullptr.
Proof.
  revert d0 this. induction dims as [|d1 ds IH]; intros d0 this Hx.
  - by apply elem_of_nil in Hx.
  - rewrite nodes_cons in Hx. destruct (h !! this) as [[|ps|]|] eqn:Hthis;
      try by apply elem_of_nil in Hx.
    apply list_elem_of_bind in Hx as (q & Hx & _).
    apply elem_of_below in Hx as [Hq [->|Hx]%elem_of_cons]; [done|]. by eapply IH.
Qed.

(** [nodes] and [shaped] look only at the maps they list. *)
Lemma nodes_frame d0 dims h h' this :
  (∀ x, x ∈ this :: nodes d0 dims h this → h' !! x = h !! x) →
  nodes d0 dims h' this = nodes d0 dims h this.
Proof.
  revert d0 this. induction dims as [|d1 ds IH]; intros d0 this Hagree; [done|].
  rewrite !nodes_cons, (Hagree this) by left.
  destruct (h !! this) as [[|ps|]|] eqn:Hthis; try done.
  apply list_bind_ext_in. intros q Hq. unfold below. case_decide as Hnull; [done|].
  rewrite (IH d1 q); [done|]. intros x Hx. apply Hagree. right.
  apply (elem_of_nodes_level _ _ _ _ _ _ _ Hthis). exists q. split; [done|].
  by apply elem_of_below.
Qed.

Lemma shaped_frame d0 dims h h' this :
  (∀ x, x ∈ this :: nodes d0 dims h this → h' !! x = h !! x) →
  shaped d0 dims h this → shaped d0 dims h' this.
Proof.
  revert d0 this. induction dims as [|d1 ds IH]; intros d0 this Hagree; cbn [shaped].
  - intros Hs. rewrite Hagree by left. done.
  - rewrite (Hagree this) by left.
    destruct (h !! this) as [[|ps|]|] eqn:Hthis; try done.
    intros [Hlen Hall]. split; [done|]. rewrite Forall_forall in Hall |- *.
    intros q Hq. destruct (Hall q Hq) as [Hnull|Hs]; [by left|].
    destruct (decide (q = nullptr)) as [?|Hne]; [by left|]. right.
    apply IH; [|done]. intros x Hx. apply Hagree. right.
    apply (elem_of_nodes_level _ _ _ _ _ _ _ Hthis). exists q. split; [done|].
    by apply elem_of_below.
Qed.

Lemma shaped_is_Some d0 dims h this x :
  shaped d0 dims h this → x ∈ this :: nodes d0 dims h this → is_Some (h !! x).
Proof.
  revert d0 this. induction dims as [|d1 ds IH]; intros d0 this; cbn [shaped].
  - intros Hs [->|Hx%elem_of_nil]%elem_of_cons; [eauto|done].
  - destruct (h !! this) as [[|ps|]|] eqn:Hthis; try done.
    intros [_ Hall] [->|Hx]%elem_of_cons; [eauto|].
    apply (elem_of_nodes_level _ _ _ _ _ _ _ Hthis) in Hx as (q & Hq & Hx).
    apply elem_of_below in Hx as [Hnull Hx].
    rewrite Forall_forall in Hall. destruct (Hall q Hq) as [?|Hs]; [done|].
    by eapply IH.
Qed.

Lemma shaped_slot d0 d1 ds h this ps q :
  shaped d0 (d1 :: ds) h this → h !! this = Some (Level ps) → q ∈ ps → q ≠ nullptr →
  shaped d1 ds h q.
Proof.
  cbn [shaped]. intros Hs Hthis Hq Hnull. rewrite Hthis in Hs. destruct Hs as [_ Hall].
  rewrite Forall_forall in Hall. by destruct (Hall q Hq).
Qed.

Lemma NoDup_replace_middle {A} (a : A) (l1 m m' l2 : list A) :
  NoDup (a :: l1 ++ m ++ l2) → NoDup m' →
  (∀ x, x ∈ m' → x ∈ m ∨ (x ≠ a ∧ (x ∉ l1) ∧ (x ∉ l2))) →
  NoDup (a :: l1 ++ m' ++ l2).
Proof.
  rewrite !NoDup_cons, !NoDup_app, !not_elem_of_app.
  intros ((Ha1 & Ham & Ha2) & Hl1 & H1 & Hm & H2 & Hl2) Hm' Hnew.
  assert (Hl1m : ∀ x, x ∈ l1 → x ∉ m).
  { intros x Hx. apply H1 in Hx. apply not_elem_of_app in Hx. tauto. }
  assert (Hl1l2 : ∀ x, x ∈ l1 → x ∉ l2).
  { intros x Hx. apply H1 in Hx. apply not_elem_of_app in Hx. tauto. }
  split_and!; try done.
  - intros Ha. destruct (Hnew a Ha) as [?|[? _]]; done.
  - intros x Hx. apply not_elem_of_app. split; [|by apply Hl1l2].
    intros Hxm. destruct (Hnew x Hxm) as [?|(_ & ? & _)]; [by eapply Hl1m|done].
  - intros x Hxm Hx2. destruct (Hnew x Hxm) as [?|(_ & _ & ?)]; [by eapply H2|done].
Qed.

Lemma nodes_split d0 d1 ds h this ps i q :
  h !! this = Some (Level ps) → ps !! i = Some q →
  nodes d0 (d1 :: ds) h this =
    (take i ps ≫= below d1 ds h) ++ below d1 ds h q ++ (drop (S i) ps ≫= below d1 ds h).
Proof.
  intros Hthis Hq. rewrite (nodes_level _ _ _ _ _ _ Hthis).
  rewrite <- (take_drop_middle ps i q Hq) at 1.
  rewrite bind_app, bind_cons. reflexivity.
Qed.

Lemma NoDup_below d0 d1 ds h this ps q :
  h !! this = Some (Level ps) → q ∈ ps → q ≠ nullptr →
  NoDup (this :: nodes d0 (d1 :: ds) h this) →
  NoDup (q :: nodes d1 ds h q) ∧ this ∉ q :: nodes d1 ds h q.
Proof.
  intros Hthis Hq Hnull [Hnot Hnd]%NoDup_cons.
  apply list_elem_of_lookup in Hq as [i Hi].
  rewrite (nodes_split _ _ _ _ _ _ _ _ Hthis Hi) in Hnd, Hnot.
  apply NoDup_app in Hnd as (_ & _ & Hnd). apply NoDup_app in Hnd as (Hnd & _ & _).
  unfold below in Hnd, Hnot. rewrite decide_False in Hnd, Hnot by done. split.
  - apply NoDup_cons. apply NoDup_app in Hnd as (Hn & Hdis & _). split; [|done].
    intros Hin. apply (Hdis q Hin). by apply list_elem_of_singleton.
  - intros Hin. apply Hnot. apply elem_of_app. right. apply elem_of_app. left.
    apply elem_of_app. apply elem_of_cons in Hin as [->|Hin]; [right; by left|by left].
Qed.

(** A slot of a live map is rehung: the map [c] now in slot [i] is live in
    the new store, its maps are those that were below the slot before or
    new ones, and nothing else that existed was touched.  Then the whole
    map is live again. *)
Lemma reattach d0 d1 ds h h' this ps i q0 c extra :
  h !! this = Some (Level ps) →
  shaped d0 (d1 :: ds) h this →
  NoDup (this :: nodes d0 (d1 :: ds) h this) →
  ps !! i = Some q0 →
  c ≠ nullptr →
  h' !! this = Some (Level (<[i := c]> ps)) →
  shaped d1 ds h' c →
  NoDup (c :: nodes d1 ds h' c) →
  (∀ x, x ∈ c :: nodes d1 ds h' c → x ∈ below d1 ds h q0 ∨ h !! x = None) →
  (∀ x, is_Some (h !! x) → x ≠ this → x ∉ below d1 ds h q0 → h' !! x = h !! x) →
  below d1 ds h' c ≡ₚ below d1 ds h q0 ++ extra →
  shaped d0 (d1 :: ds) h' this ∧
  NoDup (this :: nodes d0 (d1 :: ds) h' this) ∧
  (∀ x, x ∈ nodes d0 (d1 :: ds) h' this → x ∈ nodes d0 (d1 :: ds) h this ∨ h !! x = None) ∧
  (∀ x, x ∈ c :: nodes d1 ds h' c → x ∈ nodes d0 (d1 :: ds) h' this) ∧
  nodes d0 (d1 :: ds) h' this ≡ₚ nodes d0 (d1 :: ds) h this ++ extra.
Proof.
  intros Hthis Hs Hnd Hq0 Hc Hthis' Hsc Hndc Hnew Hframe Hperm.
  assert (Hlt : (i < length ps)%nat) by (by eapply lookup_lt_Some).
  assert (Hc' : <[i := c]> ps !! i = Some c) by (by apply list_lookup_insert_eq).
  pose proof (nodes_split d0 d1 ds h this ps i q0 Hthis Hq0) as Hold.
  pose proof (nodes_split d0 d1 ds h' this _ i c Hthis' Hc') as Hnow.
  rewrite take_insert_ge, drop_insert_lt in Hnow by lia.
  set (l1 := take i ps) in *. set (l2 := drop (S i) ps) in *.
  assert (Hps : ps = l1 ++ q0 :: l2) by (symmetry; by apply take_drop_middle).
  (* maps under the other slots are where and what they were *)
  assert (Hside : ∀ q, q ∈ l1 ∨ q ∈ l2 → q ≠ nullptr →
            ∀ x, x ∈ q :: nodes d1 ds h q → h' !! x = h !! x).
  { intros q Hq Hnull x Hx.
    assert (Hqps : q ∈ ps) by (rewrite Hps, elem_of_app, elem_of_cons; tauto).
    assert (Hxb : x ∈ below d1 ds h q) by (by apply elem_of_below).
    apply Hframe.
    - eapply shaped_is_Some; [|exact Hx]. by eapply shaped_slot.
    - intros ->. by destruct (NoDup_below _ _ _ _ _ _ _ Hthis Hqps Hnull Hnd) as [_ ?].
    - intros Hx0. apply NoDup_cons in Hnd as [_ Hnd]. rewrite Hold in Hnd.
      apply NoDup_app in Hnd as (_ & H1 & Hnd). apply NoDup_app in Hnd as (_ & H2 & _).
      destruct Hq as [Hq|Hq].
      + apply (H1 x); [apply list_elem_of_bind; eauto|]. apply elem_of_app. by left.
      + apply (H2 x Hx0). apply list_elem_of_bind; eauto. }
  assert (Hbelow : ∀ q, q ∈ l1 ∨ q ∈ l2 → below d1 ds h' q = below d1 ds h q).
  { intros q Hq. unfold below. case_decide as Hnull; [done|].
    by rewrite (nodes_frame d1 ds h h' q (Hside q Hq Hnull)). }
  rewrite (list_bind_ext_in (below d1 ds h') (below d1 ds h) l1) in Hnow
    by (intros; apply Hbelow; by left).
  rewrite (list_bind_ext_in (below d1 ds h') (below d1 ds h) l2) in Hnow
    by (intros; apply Hbelow; by right).
  assert (Hbc : below d1 ds h' c = nodes d1 ds h' c ++ [c])
    by (unfold below; by rewrite decide_False).
  assert (Hin_c : ∀ x, x ∈ below d1 ds h' c ↔ x ∈ c :: nodes d1 ds h' c).
  { intros x. rewrite elem_of_below. tauto. }
  assert (Hdom : ∀ x, x ∈ this :: nodes d0 (d1 :: ds) h this → is_Some (h !! x))
    by (intros x; by apply shaped_is_Some).
  split_and!.
  - cbn [shaped]. rewrite Hthis'. cbn [shaped] in Hs. rewrite Hthis in Hs.
    destruct Hs as [Hlen Hall]. split; [by rewrite length_insert|].
    rewrite Forall_forall in Hall. rewrite Forall_forall. intros q Hq.
    apply list_elem_of_lookup in Hq as [j Hj].
    destruct (decide (i = j)) as [->|Hij].
    + rewrite Hc' in Hj. simplify_eq. by right.
    + rewrite list_lookup_insert_ne in Hj by done.
      assert (Hqps : q ∈ ps) by (by eapply list_elem_of_lookup_2).
      destruct (Hall q Hqps) as [?|Hsq]; [by left|].
      destruct (decide (q = nullptr)) as [?|Hnull]; [by left|]. right.
      eapply shaped_frame; [|exact Hsq]. apply Hside; [|done].
      rewrite Hps in Hj. apply lookup_app_Some in Hj as [Hj|[Hge Hj]].
      * left. by eapply list_elem_of_lookup_2.
      * right. assert (length l1 = i) by (unfold l1; rewrite length_take; lia).
        destruct (j - length l1)%nat as [|k] eqn:Hk; [lia|].
        cbn in Hj. by eapply list_elem_of_lookup_2.
  - rewrite Hnow. rewrite Hold in Hnd. eapply NoDup_replace_middle; [exact Hnd| |].
    + rewrite Hbc. apply NoDup_cons in Hndc as [Hcn Hndc].
      apply NoDup_app. split_and!; [done| |apply NoDup_singleton].
      intros x Hx ->%list_elem_of_singleton. done.
    + intros x Hx%Hin_c. destruct (Hnew x Hx) as [?|Hnone]; [by left|]. right.
      assert (Hnot : ∀ y, y ∈ this :: nodes d0 (d1 :: ds) h this → x ≠ y).
      { intros y Hy ->. destruct (Hdom y Hy) as [o Ho]. by rewrite Hnone in Ho. }
      split_and!.
      * apply Hnot. by left.
      * intros Hx1. eapply Hnot; [|done]. right. rewrite Hold, elem_of_app. by left.
      * intros Hx2. eapply Hnot; [|done]. right. rewrite Hold, !elem_of_app. by right; right.
  - intros x. rewrite Hnow, Hold, !elem_of_app, Hin_c.
    intros [?|[Hx|?]]; [tauto| |tauto]. destruct (Hnew x Hx); tauto.
  - intros x Hx. rewrite Hnow, !elem_of_app, Hin_c. tauto.
  - rewrite Hnow, Hold, Hperm, <- !app_assoc.
    do 2 apply Permutation_app_head. apply Permutation_app_comm.
Qed.

Lemma one_shl_nonneg d : 0 ≤ one_shl d.
Proof. unfold one_shl, ul. apply Z.mod_pos_bound. lia. Qed.

Lemma replicate_null_below d1 ds h n :
  replicate n nullptr ≫= below d1 ds h = [].
Proof.
  induction n as [|n IH]; [done|]. cbn [replicate]. rewrite bind_cons, IH.
  unfold below. by rewrite decide_True.
Qed.

(** The map that [constructAt] has just set up is well shaped and has
    nothing below it. *)
Lemma constructed_object_fresh d0 dims h map :
  h !! map = Some (constructed_object d0 dims) →
  shaped d0 dims h map ∧ nodes d0 dims h map = [].
Proof.
  intros Hmap. destruct dims as [|d1 ds]; [done|].
  cbn [shaped]. rewrite nodes_cons, Hmap. cbn [constructed_object]. split_and!.
  - rewrite length_replicate, Z2Nat.id; [done|apply one_shl_nonneg].
  - apply Forall_replicate. by left.
  - apply replicate_null_below.
Qed.

(** A write-triggering lookup on a live map succeeds and leaves the map
    live; the record it returns belongs to the map, every map that is new
    in it was not allocated before, and storage outside the map is left
    alone. *)
Lemma leaf_for_write_live `{HostOk} d0 dims this addr h :
  Forall valid_width (d0 :: dims) →
  shaped d0 dims h this → NoDup (this :: nodes d0 dims h this) →
  ∃ r h' t, leaf_for_write d0 dims this addr h = Some (r, h', t) ∧
    shaped d0 dims h' this ∧ NoDup (this :: nodes d0 dims h' this) ∧
    r ∈ this :: nodes d0 dims h' this ∧
    (∀ x, x ∈ nodes d0 dims h' this → x ∈ nodes d0 dims h this ∨ h !! x = None) ∧
    (∀ x, is_Some (h !! x) → x ∉ this :: nodes d0 dims h this → h' !! x = h !! x) ∧
    nodes d0 dims h' this ≡ₚ nodes d0 dims h this ++ allocated t.
Proof.
  revert d0 this h. induction dims as [|d1 ds IH]; intros d0 this h Hw Hs Hnd.
  - exists this, h, []. split_and!; try done; [by left|]. intros x Hx. by left.
  - apply Forall_cons in Hw as [Hd0 Hw].
    pose proof Hs as Hs0. cbn [shaped] in Hs0.
    destruct (h !! this) as [[|ps|]|] eqn:Hthis; try done. destruct Hs0 as [Hlen _].
    pose proof (slot_index_range d0 d1 ds addr Hd0) as Hi.
    set (i := slot_index d0 d1 ds addr) in *.
    destruct (lookup_lt_is_Some_2 ps (Z.to_nat i)) as [q Hq]; [lia|].
    rewrite (leaf_for_write_unfold _ _ _ _ _ _ _ _ Hthis Hq). fold i.
    assert (Hsub : ∀ x, x ∈ below d1 ds h q → x ∈ nodes d0 (d1 :: ds) h this).
    { intros x Hx. apply (elem_of_nodes_level _ _ _ _ _ _ _ Hthis). exists q.
      split; [by eapply list_elem_of_lookup_2|done]. }
    case_decide as Hnull.
    + (* the slot is empty: a new map is hung in *)
      subst q. cbn zeta.
      set (f := malloc_result h (sizeof_ShadowMap d1 ds)).
      set (hm := grown h this ps i f d1 ds).
      assert (Hf : h !! f = None) by apply malloc_fresh.
      assert (Hfv : f ≠ nullptr) by apply malloc_valid.
      destruct (constructed_object_fresh d1 ds hm f) as [Hsf Hnf];
        [apply grown_lookup_fresh|].
      destruct (IH d1 f hm Hw Hsf)
        as (r & h' & t & Hrec & Hs' & Hnd' & Hr & Hnew & Hframe & Hall).
      { rewrite Hnf. apply NoDup_singleton. }
      rewrite Hrec. eexists r, h', _. split; [done|].
      assert (Hne : this ≠ f) by (intros ->; by rewrite Hthis in Hf).
      assert (Hbelow0 : below d1 ds h nullptr = []) by (unfold below; by rewrite decide_True).
      destruct (reattach d0 d1 ds h h' this ps (Z.to_nat i) nullptr f
                  (allocated (EvMalloc (sizeof_ShadowMap d1 ds) f :: constructAt_trace ds f ++ t)))
        as (Hshaped & Hnodup & Hfresh & Hin & Hperm); try done.
      * rewrite Hframe.
        -- by apply grown_lookup_this.
        -- unfold hm. rewrite grown_lookup_this by done. eauto.
        -- rewrite Hnf. by intros ?%list_elem_of_singleton.
      * intros x [->|Hx]%elem_of_cons; right; [done|].
        destruct (Hnew x Hx) as [Hx'|Hx']; [rewrite Hnf in Hx'; by apply elem_of_nil in Hx'|].
        destruct (h !! x) as [o|] eqn:E; [|done].
        assert (is_Some (hm !! x)) as [o' Ho'] by (apply grown_is_Some; eauto).
        by rewrite Hx' in Ho'.
      * intros x Hx Hxt _.
        assert (x ≠ f) by (intros ->; destruct Hx as [o Ho]; by rewrite Hf in Ho).
        rewrite Hframe.
        -- by apply grown_lookup_other.
        -- unfold hm. by rewrite grown_lookup_other.
        -- rewrite Hnf. by intros ?%list_elem_of_singleton.
      * rewrite Hbelow0. unfold below. rewrite decide_False by done.
        rewrite Hall, Hnf, allocated_malloc, allocated_app, allocated_constructAt_trace.
        cbn [app]. symmetry. apply Permutation_cons_append.
      * split_and!; try done.
        -- right. by apply Hin.
        -- intros x Hx Hnot. apply not_elem_of_cons in Hnot as [Hxt Hxn].
           assert (x ≠ f) by (intros ->; destruct Hx as [o Ho]; by rewrite Hf in Ho).
           rewrite Hframe.
           ++ by apply grown_lookup_other.
           ++ unfold hm. by rewrite grown_lookup_other.
           ++ rewrite Hnf. by intros ?%list_elem_of_singleton.
    + (* the slot holds a map: descend *)
      assert (Hqps : q ∈ ps) by (by eapply list_elem_of_lookup_2).
      destruct (NoDup_below _ _ _ _ _ _ _ Hthis Hqps Hnull Hnd) as [Hndq Hthisq].
      destruct (IH d1 q h Hw) as (r & h' & t & Hrec & Hs' & Hnd' & Hr & Hnew & Hframe & Hall);
        [by eapply shaped_slot|done|].
      rewrite Hrec. exists r, h', t. split; [done|].
      assert (Hbq : ∀ x, x ∈ below d1 ds h q ↔ x ∈ q :: nodes d1 ds h q).
      { intros x. rewrite elem_of_below. tauto. }
      destruct (reattach d0 d1 ds h h' this ps (Z.to_nat i) q q (allocated t))
        as (Hshaped & Hnodup & Hfresh & Hin & Hperm); try done.
      * rewrite list_insert_id by done. rewrite Hframe; [done|eauto|done].
      * intros x [->|Hx]%elem_of_cons; [left; apply Hbq; by left|].
        destruct (Hnew x Hx); [left; apply Hbq; by right|by right].
      * intros x Hx _ Hnot. apply Hframe; [done|]. by rewrite <- Hbq.
      * assert (Hbl : ∀ g, below d1 ds g q = nodes d1 ds g q ++ [q])
          by (intros g; unfold below; by rewrite decide_False).
        rewrite !Hbl, Hall, <- !app_assoc.
        apply Permutation_app_head, Permutation_app_comm.
      * split_and!; try done.
        -- right. by apply Hin.
        -- intros x Hx Hnot. apply Hframe; [done|]. intros Hxq%Hbq%Hsub.
           apply Hnot. by right.
Qed.

Lemma ctor_live d0 dims this h0 :
  is_Some (h0 !! this) →
  ∃ h1, ShadowMap_ctor d0 dims this h0 = Some (tt, h1, constructAt_trace dims this) ∧
        h1 !! this = Some (constructed_object d0 dims) ∧
        shaped d0 dims h1 this ∧ nodes d0 dims h1 this = [].
Proof.
  intros Hthis. eexists. split; [by apply constructAt_Some|].
  assert (Hl : <[this := constructed_object d0 dims]> h0 !! this
               = Some (constructed_object d0 dims)) by apply lookup_insert_eq.
  split; [done|]. by apply constructed_object_fresh.
Qed.

(** A write-triggering lookup calls the allocator and [Leaf::construct],
    never [shadow_free] or [destructAt]. *)
Lemma leaf_for_write_no_release `{HostOk} d0 dims this addr h r h' t :
  leaf_for_write d0 dims this addr h = Some (r, h', t) →
  freed t = [] ∧ finalized t = [].
Proof.
  revert d0 dims this h r h' t.
  apply (leaf_for_write_ind addr (λ _ _ _ _ _ _ t, freed t = [] ∧ finalized t = [])).
  - done.
  - done.
  - intros d0 d1 ds this h ps r h' t _ _ size fresh h1 _ [IHf IHd].
    change (EvMalloc size fresh :: constructAt_trace ds fresh ++ t)
      with ([EvMalloc size fresh] ++ constructAt_trace ds fresh ++ t).
    unfold freed, finalized in *. rewrite !omap_app, IHf, IHd. by destruct ds.
Qed.

Lemma writes_live `{HostOk} d0 dims this addrs h :
  Forall valid_width (d0 :: dims) →
  shaped d0 dims h this → NoDup (this :: nodes d0 dims h this) →
  ∃ h' t, writes d0 dims this addrs h = Some (tt, h', t) ∧
          shaped d0 dims h' this ∧ NoDup (this :: nodes d0 dims h' this) ∧
          nodes d0 dims h' this ≡ₚ nodes d0 dims h this ++ allocated t ∧
          freed t = [] ∧ finalized t = [].
Proof.
  intros Hw. revert h. induction addrs as [|a rest IH]; intros h Hs Hnd; cbn [writes].
  - exists h, []. split_and!; try done. by rewrite app_nil_r.
  - destruct (leaf_for_write_live d0 dims this a h Hw Hs Hnd)
      as (r & h1 & t1 & Hwr & Hs1 & Hnd1 & _ & _ & _ & Hall1).
    destruct (leaf_for_write_no_release _ _ _ _ _ _ _ _ Hwr) as [Hf1 Hd1].
    destruct (IH h1 Hs1 Hnd1) as (h2 & t2 & Hrest & Hs2 & Hnd2 & Hall2 & Hf2 & Hd2).
    exists h2, (t1 ++ t2). split_and!; try done.
    + by eapply bind_step_ev.
    + by rewrite Hall2, Hall1, allocated_app, app_assoc.
    + by rewrite freed_app, Hf1, Hf2.
    + by rewrite finalized_app, Hd1, Hd2.
Qed.

(** ** No record is initialised twice *)

(** C4.  Take any sequence of write-triggering lookups on a map, from its
    construction on, repeated addresses and addresses in allocated
    sub-trees included.  The whole run succeeds and [Leaf::construct] runs
    at most once on each record.  This is so because each single lookup, in
    whatever store, constructs something only if it met an empty slot, that
    is only where the read-only lookup answered [nullptr]; the records it
    constructs lie in storage that did not exist before the call; and a
    slot that holds a map still holds the same map afterwards. *)
Theorem no_double_initialization `{HostOk} d0 dims this addrs h0 :
  Forall valid_width (d0 :: dims) → is_Some (h0 !! this) →
  (∃ h t, (ShadowMap_ctor d0 dims this ;; writes d0 dims this addrs) h0 = Some (tt, h, t) ∧
          NoDup (constructed t)) ∧
  (∀ a h r h' t, leaf_for_write d0 dims this a h = Some (r, h', t) →
     (t ≠ [] → leaf d0 dims this a h = Some (nullptr, h, [])) ∧
     (∀ x, x ∈ constructed t → h !! x = None) ∧
     slots_kept h h').
Proof.
  intros Hw Hthis. split.
  - destruct (ctor_live d0 dims this h0 Hthis) as (h1 & Hctor & Hobj & Hs & Hn).
    destruct (writes_live d0 dims this addrs h1 Hw Hs) as (h2 & t & Hwr & _ & _).
    { rewrite Hn. apply NoDup_singleton. }
    exists h2, (constructAt_trace dims this ++ t). split; [by eapply bind_step_ev|].
    destruct (writes_constructed _ _ _ _ _ _ _ Hwr) as (Hnd & Hfresh & _ & _).
    rewrite constructed_app, constructed_constructAt_trace.
    destruct dims; [|done]. apply NoDup_cons. split; [|done].
    intros Hin. apply Hfresh in Hin. by rewrite Hobj in Hin.
  - intros a h r h' t Hwr. split_and!.
    + by eapply leaf_for_write_only_when_absent.
    + intros x Hx. by eapply leaf_for_write_constructed.
    + by eapply leaf_for_write_slots_kept.
Qed.

Lemma no_double_initialization_witness :
  Forall valid_width [1; 1] ∧ is_Some (raw_block !! 10) ∧
  ∃ h t, (ShadowMap_ctor 1 [1] 10 ;; @writes (bump_host 64) 1 [1] 10 [3; 3; 2; 0])
           raw_block = Some (tt, h, t) ∧
         NoDup (constructed t).
Proof.
  assert (Hw : Forall valid_width [1; 1]) by (repeat constructor; unfold valid_width; lia).
  assert (Hs : is_Some (raw_block !! 10)) by (vm_compute; eauto).
  split_and!; [done..|].
  exact (proj1 (@no_double_initialization (bump_host 64) _ 1 [1] 10 [3; 3; 2; 0] _ Hw Hs)).
Defined.

(** ** Locality *)

Lemma last_width_le_sum d0 dims :
  Forall valid_width (d0 :: dims) → last_width d0 dims ≤ dimensions_sum d0 dims.
Proof.
  revert d0. induction dims as [|d1 ds IH]; intros d0 Hw; [done|].
  apply Forall_cons in Hw as [[Hd0 _] Hw]. cbn [last_width dimensions_sum].
  specialize (IH d1 Hw). lia.
Qed.

(** The slots of the descent depend on nothing but the bits above the last
    level's width. *)
Lemma slot_index_prefix d0 d1 ds addr :
  Forall valid_width (d1 :: ds) →
  slot_index d0 d1 ds addr =
    Z.land (Z.shiftr (Z.shiftr addr (last_width d1 ds))
                     (dimensions_sum d1 ds - last_width d1 ds))
           (low_mask d0).
Proof.
  intros Hw. unfold slot_index. f_equal.
  pose proof (last_width_le_sum d1 ds Hw). rewrite Z.shiftr_shiftr by lia.
  f_equal. lia.
Qed.

Lemma descent_same_prefix d0 dims A B :
  Forall valid_width (d0 :: dims) →
  Z.shiftr A (last_width d0 dims) = Z.shiftr B (last_width d0 dims) →
  descent d0 dims A = descent d0 dims B.
Proof.
  revert d0. induction dims as [|d1 ds IH]; intros d0 Hw Hpre; [done|].
  apply Forall_cons in Hw as [_ Hw]. cbn [last_width] in Hpre. cbn [descent].
  rewrite (IH d1 Hw Hpre), !(slot_index_prefix d0 d1 ds) by done. by rewrite Hpre.
Qed.

(** An address whose slots agree with another's on every level has the same
    configured prefix. *)
Lemma descent_configured_prefix d0 dims A B :
  Forall valid_width (d0 :: dims) →
  descent d0 dims A = descent d0 dims B →
  configured_prefix d0 dims A = configured_prefix d0 dims B.
Proof.
  revert d0. induction dims as [|d1 ds IH]; intros d0 Hw Hdesc.
  - unfold configured_prefix. cbn [dimensions_sum last_width].
    rewrite Z.sub_diag. change (2 ^ 0) with 1. by rewrite !Z.mod_1_r.
  - apply Forall_cons in Hw as [Hd0 Hw]. cbn [descent] in Hdesc.
    injection Hdesc as Hslot Hrest. specialize (IH d1 Hw Hrest).
    unfold configured_prefix in *. cbn [dimensions_sum last_width].
    pose proof (last_width_le_sum d1 ds Hw) as Hle.
    rewrite !(slot_index_prefix d0 d1 ds) in Hslot by done.
    rewrite !(land_low_mask _ d0 Hd0) in Hslot.
    set (w := last_width d1 ds) in *. set (k := dimensions_sum d1 ds - w) in *.
    replace (d0 + dimensions_sum d1 ds - w) with (k + d0) by (unfold k; lia).
    destruct Hd0 as [Hd0 _].
    rewrite Z.pow_add_r by lia.
    assert (Hk : 0 < 2 ^ k) by (apply Z.pow_pos_nonneg; lia).
    assert (Hd : 0 < 2 ^ d0) by (apply Z.pow_pos_nonneg; lia).
    rewrite !Z.rem_mul_r by lia.
    assert (Hk0 : 0 ≤ k) by (unfold k; lia).
    rewrite (Z.shiftr_div_pow2 (Z.shiftr A w) k Hk0) in Hslot.
    rewrite (Z.shiftr_div_pow2 (Z.shiftr B w) k Hk0) in Hslot.
    by rewrite IH, Hslot.
Qed.

Lemma NoDup_bind_disjoint {A B} (f : A → list B) (l : list A) i j a b x :
  NoDup (l ≫= f) → l !! i = Some a → l !! j = Some b → i ≠ j →
  x ∈ f a → x ∈ f b → False.
Proof.
  revert i j. induction l as [|c l IH]; intros i j Hnd Hi Hj Hij Ha Hb; [done|].
  rewrite bind_cons in Hnd. apply NoDup_app in Hnd as (_ & Hdis & Hnd).
  destruct i as [|i], j as [|j]; cbn in Hi, Hj; simplify_eq.
  - apply (Hdis x Ha). apply list_elem_of_bind. exists b.
    split; [done|by eapply list_elem_of_lookup_2].
  - apply (Hdis x Hb). apply list_elem_of_bind. exists a.
    split; [done|by eapply list_elem_of_lookup_2].
  - eapply (IH i j); eauto.
Qed.

(** In a live map, descents through different slots end at different
    records. *)
Lemma distinct_records d0 dims this A B h r r' :
  Forall valid_width (d0 :: dims) →
  shaped d0 dims h this → NoDup (this :: nodes d0 dims h this) →
  leaf d0 dims this A h = Some (r, h, []) → r ≠ nullptr →
  leaf d0 dims this B h = Some (r', h, []) →
  descent d0 dims A ≠ descent d0 dims B → r' ≠ r.
Proof.
  revert d0 this. induction dims as [|d1 ds IH]; intros d0 this Hw Hs Hnd HA Hr HB Hdesc;
    [done|].
  apply Forall_cons in Hw as [Hd0 Hw].
  pose proof Hs as Hs0. cbn [shaped] in Hs0.
  destruct (h !! this) as [[|ps|]|] eqn:Hthis; try done. destruct Hs0 as [Hlen _].
  pose proof (slot_index_range d0 d1 ds A Hd0) as HiA.
  pose proof (slot_index_range d0 d1 ds B Hd0) as HiB.
  destruct (lookup_lt_is_Some_2 ps (Z.to_nat (slot_index d0 d1 ds A))) as [qA HqA]; [lia|].
  destruct (lookup_lt_is_Some_2 ps (Z.to_nat (slot_index d0 d1 ds B))) as [qB HqB]; [lia|].
  rewrite (leaf_step _ _ _ _ _ _ _ _ Hthis HqA) in HA.
  rewrite (leaf_step _ _ _ _ _ _ _ _ Hthis HqB) in HB.
  destruct (decide (qA = nullptr)) as [?|HnA]; [by simplify_eq|].
  destruct (decide (qB = nullptr)) as [?|HnB]; [by simplify_eq|].
  assert (HinA : qA ∈ ps) by (by eapply list_elem_of_lookup_2).
  assert (HinB : qB ∈ ps) by (by eapply list_elem_of_lookup_2).
  pose proof (shaped_slot _ _ _ _ _ _ _ Hs Hthis HinA HnA) as HsA.
  pose proof (shaped_slot _ _ _ _ _ _ _ Hs Hthis HinB HnB) as HsB.
  destruct (decide (slot_index d0 d1 ds A = slot_index d0 d1 ds B)) as [Heq|Hne].
  - rewrite Heq in HqA. simplify_eq.
    destruct (NoDup_below _ _ _ _ _ _ _ Hthis HinA HnA Hnd) as [Hndq _].
    eapply (IH d1 qA); eauto. intros Hrest. apply Hdesc. cbn [descent]. by rewrite Heq, Hrest.
  - intros ->.
    destruct (leaf_shaped d1 ds qA A h Hw HsA) as (rA & HA' & [?|HrA]);
      rewrite HA in HA'; simplify_eq.
    destruct (leaf_shaped d1 ds qB B h Hw HsB) as (rB & HB' & [?|HrB]);
      rewrite HB in HB'; simplify_eq.
    apply NoDup_cons in Hnd as [_ Hnd]. rewrite (nodes_level _ _ _ _ _ _ Hthis) in Hnd.
    eapply (NoDup_bind_disjoint (below d1 ds h) ps _ _ qA qB rB Hnd HqA HqB).
    + lia.
    + by apply elem_of_below.
    + by apply elem_of_below.
Qed.

Lemma live_after_write `{HostOk} d0 dims this addr h :
  Forall valid_width (d0 :: dims) → live d0 dims h this →
  ∃ r h' t, leaf_for_write d0 dims this addr h = Some (r, h', t) ∧
            r ≠ nullptr ∧ live d0 dims h' this.
Proof.
  intros Hw (Hthis & Hs & Hnd).
  destruct (leaf_for_write_live d0 dims this addr h Hw Hs Hnd)
    as (r & h' & t & Hwr & Hs' & Hnd' & Hr & _).
  exists r, h', t. split_and!; try done.
  apply elem_of_cons in Hr as [->|Hr]; [done|]. by eapply nodes_nonnull.
Qed.

(** A record that the read-only lookup finds stays where it is as long as
    occupied slots are kept. *)
Lemma leaf_kept d0 dims this addr h h' r :
  slots_kept h h' → leaf d0 dims this addr h = Some (r, h, []) → r ≠ nullptr →
  leaf d0 dims this addr h' = Some (r, h', []).
Proof.
  intros Hkept. revert d0 this. induction dims as [|d1 ds IH]; intros d0 this Hleaf Hr.
  - cbn in *. unfold ret in *. by simplify_eq.
  - cbn [leaf] in Hleaf. apply bind_Some in Hleaf as (q & h1 & t1 & t2 & Hload & Hk & Ht).
    apply load_pointer_Some in Hload as (-> & -> & _ & ps & Hps & Hq).
    simpl in Ht. subst t2.
    case_decide as Hnull; [unfold ret in Hk; by simplify_eq|].
    destruct (Hkept this ps _ q Hps Hq Hnull) as (ps' & Hps' & Hq').
    rewrite (leaf_step _ _ _ _ _ _ _ _ Hps' Hq'), decide_False by done. by apply IH.
Qed.

(** C9.  Let the widths fit the type [Address], so that every shift of the
    header is defined, and let [A] and [B] agree on every bit above the
    last level's width.
    Then whenever [leaf_for_write] on [A] returns a record, [leaf] on [B]
    in the store it left returns the same record.  On a live map the
    write-triggering lookup does return a record, and if [A] and [B]
    differ in a configured bit above the last level's width, [leaf] on [B]
    afterwards gives something else, another record or [nullptr], and a
    write-triggering lookup on [B] afterwards returns another record. *)
Theorem locality `{HostOk} d0 dims this A B :
  Forall valid_width (d0 :: dims) →
  (fits_Address d0 dims →
   Z.shiftr A (last_width d0 dims) = Z.shiftr B (last_width d0 dims) →
   ∀ h r h' t, leaf_for_write d0 dims this A h = Some (r, h', t) →
     leaf d0 dims this B h' = Some (r, h', [])) ∧
  (∀ h, live d0 dims h this →
     ∃ r h' t, leaf_for_write d0 dims this A h = Some (r, h', t) ∧ r ≠ nullptr ∧
       (configured_prefix d0 dims A ≠ configured_prefix d0 dims B →
        (∃ r', leaf d0 dims this B h' = Some (r', h', []) ∧ r' ≠ r) ∧
        (∃ r' h'' t', leaf_for_write d0 dims this B h' = Some (r', h'', t') ∧
                      r' ≠ nullptr ∧ r' ≠ r))).
Proof.
  intros Hw. split.
  - intros _ Hpre h r h' t Hwr.
    rewrite leaf_follow, <- (descent_same_prefix d0 dims A B Hw Hpre), <- leaf_follow.
    by eapply leaf_after_leaf_for_write.
  - intros h Hlive.
    destruct (live_after_write d0 dims this A h Hw Hlive) as (r & h' & t & Hwr & Hr & Hlive').
    exists r, h', t. split_and!; [done..|]. intros Hdiff.
    assert (Hdesc : descent d0 dims A ≠ descent d0 dims B)
      by (intros Hdesc; by apply Hdiff, descent_configured_prefix).
    pose proof (leaf_after_leaf_for_write _ _ _ _ _ _ _ _ Hwr) as HA.
    split.
    + destruct Hlive' as (_ & Hs' & Hnd').
      destruct (leaf_shaped d0 dims this B h' Hw Hs') as (r' & HB & _).
      exists r'. split; [done|].
      by eapply (distinct_records d0 dims this A B h').
    + destruct (live_after_write d0 dims this B h' Hw Hlive')
        as (r' & h'' & t' & Hwr' & Hr' & (_ & Hs'' & Hnd'')).
      exists r', h'', t'. split_and!; [done..|].
      eapply (distinct_records d0 dims this A B h''); eauto.
      * eapply leaf_kept; [|exact HA|done]. by eapply leaf_for_write_slots_kept.
      * by eapply leaf_after_leaf_for_write.
Qed.

Lemma live_example : live 1 [1] no_leaf 10.
Proof.
  assert (E : no_leaf !! 10 = Some (Level [0; 0]))
    by (vm_compute; reflexivity).
  split_and!.
  - unfold nullptr. lia.
  - cbn [shaped]. rewrite E. split; [vm_compute; reflexivity|].
    repeat constructor.
  - rewrite nodes_cons, E. vm_compute. apply NoDup_singleton.
Qed.

Lemma locality_witness :
  Forall valid_width [1; 1] ∧
  (@fits_Address (bump_host 64) 1 [1] ∧
   Z.shiftr 3 (last_width 1 [1]) = Z.shiftr 2 (last_width 1 [1]) ∧
   @leaf_for_write (bump_host 64) 1 [1] 10 3 no_leaf =
     Some (11, one_leaf, [EvMalloc 1 11; EvConstruct 11]) ∧
   leaf 1 [1] 10 2 one_leaf =
     Some (11, one_leaf, [])) ∧
  (live 1 [1] no_leaf 10 ∧
   ∃ r h' t, @leaf_for_write (bump_host 64) 1 [1] 10 3 no_leaf = Some (r, h', t) ∧
     r ≠ nullptr ∧
     (configured_prefix 1 [1] 3 ≠ configured_prefix 1 [1] 0 →
      (∃ r', leaf 1 [1] 10 0 h' = Some (r', h', []) ∧ r' ≠ r) ∧
      (∃ r' h'' t', @leaf_for_write (bump_host 64) 1 [1] 10 0 h' = Some (r', h'', t') ∧
                    r' ≠ nullptr ∧ r' ≠ r))).
Proof.
  assert (Hw : Forall valid_width [1; 1]) by (repeat constructor; unfold valid_width; lia).
  assert (Hpre : Z.shiftr 3 (last_width 1 [1]) = Z.shiftr 2 (last_width 1 [1]))
    by (vm_compute; reflexivity).
  assert (Hwr : @leaf_for_write (bump_host 64) 1 [1] 10 3 no_leaf =
    Some (11, one_leaf, [EvMalloc 1 11; EvConstruct 11]))
    by (vm_compute; reflexivity).
  assert (Hf : @fits_Address (bump_host 64) 1 [1])
    by (vm_compute; split; [discriminate|reflexivity]).
  split_and!; [exact Hw|exact Hf|exact Hpre|exact Hwr| |exact live_example|].
  - exact (proj1 (@locality (bump_host 64) _ 1 [1] 10 3 2 Hw) Hf Hpre _ _ _ _ Hwr).
  - exact (proj2 (@locality (bump_host 64) _ 1 [1] 10 3 0 Hw) _ live_example).
Defined.

(** ** Teardown *)

Lemma destructAt_level d0 d1 ds this :
  destructAt d0 (d1 :: ds) this =
    (emit (EvDestructAt this) ;;
     for_loop (Z.to_nat (one_shl d0)) 0 (slot_teardown (destructAt d1 ds) this)).
Proof. reflexivity. Qed.

Lemma teardown_trace_level d0 d1 ds h this ps :
  h !! this = Some (Level ps) →
  teardown_trace d0 (d1 :: ds) h this = EvDestructAt this :: (ps ≫= slot_trace d1 ds h).
Proof. intros Hthis. cbn [teardown_trace]. by rewrite Hthis. Qed.

Lemma teardown_trace_head d0 dims h this :
  ∃ rest, teardown_trace d0 dims h this = EvDestructAt this :: rest.
Proof. destruct dims; cbn [teardown_trace]; eauto. Qed.

Lemma teardown_trace_frame d0 dims h h' this :
  (∀ x, x ∈ this :: nodes d0 dims h this → h' !! x = h !! x) →
  teardown_trace d0 dims h' this = teardown_trace d0 dims h this.
Proof.
  revert d0 this. induction dims as [|d1 ds IH]; intros d0 this Hagree; [done|].
  cbn [teardown_trace]. rewrite (Hagree this) by left.
  destruct (h !! this) as [[|ps|]|] eqn:Hthis; try done. f_equal.
  apply list_bind_ext_in. intros q Hq. case_decide as Hnull; [done|].
  rewrite (IH d1 q); [done|]. intros x Hx. apply Hagree. right.
  apply (elem_of_nodes_level _ _ _ _ _ _ _ Hthis). exists q. split; [done|].
  by apply elem_of_below.
Qed.

Lemma list_bind_Permutation_in {A B} (f g : A → list B) (l : list A) :
  (∀ x, x ∈ l → f x ≡ₚ g x) → l ≫= f ≡ₚ l ≫= g.
Proof.
  induction l as [|a l IH]; intros Hfg; [done|].
  rewrite !bind_cons. apply Permutation_app.
  - apply Hfg. by left.
  - apply IH. intros x Hx. apply Hfg. by right.
Qed.

(** The blocks released by teardown are the maps below the top one, in the
    order of [nodes]. *)
Lemma freed_teardown_trace d0 dims h this :
  freed (teardown_trace d0 dims h this) = nodes d0 dims h this.
Proof.
  revert d0 this. induction dims as [|d1 ds IH]; intros d0 this; [done|].
  cbn [teardown_trace]. rewrite nodes_cons, freed_destructAt.
  destruct (h !! this) as [[|ps|]|]; try done.
  rewrite freed_bind. apply list_bind_ext_in.
  intros q _. unfold below. case_decide; [done|].
  rewrite freed_app, IH. reflexivity.
Qed.

(** [destructAt] is invoked on the top map and once on every map below. *)
Lemma finalized_teardown_trace d0 dims h this :
  finalized (teardown_trace d0 dims h this) ≡ₚ this :: nodes d0 dims h this.
Proof.
  revert d0 this. induction dims as [|d1 ds IH]; intros d0 this; [done|].
  cbn [teardown_trace]. rewrite nodes_cons, finalized_destructAt.
  apply Permutation_skip.
  destruct (h !! this) as [[|ps|]|]; try done.
  rewrite finalized_bind. apply list_bind_Permutation_in.
  intros q _. unfold below. case_decide; [done|].
  rewrite finalized_app, IH. cbn. rewrite app_nil_r.
  apply Permutation_cons_append.
Qed.

(** The teardown of every map below the top one appears in the trace as
    one block, directly followed by the release of that map. *)
Lemma teardown_segment d0 dims h this p :
  shaped d0 dims h this → p ∈ nodes d0 dims h this →
  ∃ dp dimsp t1 t2,
    teardown_trace d0 dims h this = t1 ++ teardown_trace dp dimsp h p ++ EvFree p :: t2 ∧
    shaped dp dimsp h p.
Proof.
  revert d0 this. induction dims as [|d1 ds IH]; intros d0 this Hs Hp.
  - by apply elem_of_nil in Hp.
  - pose proof Hs as Hs0. cbn [shaped] in Hs0.
    destruct (h !! this) as [[|ps|]|] eqn:Hthis; try done.
    destruct (proj1 (elem_of_nodes_level d0 d1 ds h this ps p Hthis) Hp) as (q & Hq & Hpq).
    clear Hp. apply elem_of_below in Hpq as [Hnull Hp].
    pose proof (shaped_slot _ _ _ _ _ _ _ Hs Hthis Hq Hnull) as Hsq.
    apply list_elem_of_lookup in Hq as [i Hi].
    rewrite (teardown_trace_level _ _ _ _ _ _ Hthis).
    rewrite <- (take_drop_middle ps i q Hi), bind_app, bind_cons.
    unfold slot_trace at 2. rewrite decide_False by done.
    apply elem_of_cons in Hp as [->|Hp].
    + exists d1, ds, (EvDestructAt this :: (take i ps ≫= slot_trace d1 ds h)),
        (drop (S i) ps ≫= slot_trace d1 ds h).
      split; [|done]. by rewrite <- !app_assoc.
    + destruct (IH d1 q Hsq Hp) as (dp & dimsp & t1 & t2 & Heq & Hsp).
      exists dp, dimsp, (EvDestructAt this :: (take i ps ≫= slot_trace d1 ds h) ++ t1),
        (t2 ++ [EvFree q] ++ (drop (S i) ps ≫= slot_trace d1 ds h)).
      split; [|done]. rewrite Heq. cbn [app]. by rewrite <- !app_assoc.
Qed.

Lemma slot_teardown_empty lower map i h ps :
  h !! map = Some (Level ps) → ps !! Z.to_nat i = Some nullptr → 0 ≤ i →
  slot_teardown lower map i h = Some (tt, h, []).
Proof.
  intros Hmap Hi H0. unfold slot_teardown.
  rewrite (bind_step _ _ _ nullptr h) by (by eapply load_pointer_at).
  by rewrite decide_True.
Qed.

Lemma slot_teardown_full lower map i h ps q hq tq :
  h !! map = Some (Level ps) → ps !! Z.to_nat i = Some q → 0 ≤ i → q ≠ nullptr →
  lower q h = Some (tt, hq, tq) →
  hq !! map = Some (Level ps) → is_Some (hq !! q) →
  slot_teardown lower map i h = Some (tt, delete q hq, tq ++ [EvFree q]).
Proof.
  intros Hmap Hi H0 Hnull Hlower Hmap' [o Hq]. unfold slot_teardown.
  rewrite (bind_step _ _ _ q h) by (by eapply load_pointer_at).
  rewrite decide_False by done.
  rewrite (bind_step _ _ _ q h) by (by eapply load_pointer_at).
  eapply bind_step_ev; [exact Hlower|].
  rewrite (bind_step _ _ _ q hq) by (by eapply load_pointer_at).
  unfold shadow_free. by rewrite Hq.
Qed.

(** Teardown of a live map succeeds, makes exactly the calls of
    [teardown_trace], removes every map below the top one from the store
    and leaves the storage of the top map, and all other storage, in
    place. *)
Lemma destructAt_teardown d0 dims this h :
  shaped d0 dims h this → NoDup (this :: nodes d0 dims h this) →
  ∃ h', destructAt d0 dims this h = Some (tt, h', teardown_trace d0 dims h this) ∧
    (∀ x, x ∈ nodes d0 dims h this → h' !! x = None) ∧
    is_Some (h' !! this) ∧
    (∀ x, x ∉ this :: nodes d0 dims h this → h' !! x = h !! x).
Proof.
  revert d0 this h. induction dims as [|d1 ds IH]; intros d0 this h Hs Hnd.
  - cbn in Hs. exists (<[this := Raw]> h). split_and!.
    + cbn [destructAt teardown_trace].
      eapply (bind_step_ev _ _ h tt h [EvDestructAt this]); [done|].
      unfold Leaf_destruct. by rewrite Hs.
    + intros x Hx. by apply elem_of_nil in Hx.
    + rewrite lookup_insert_eq. eauto.
    + intros x Hx. apply not_elem_of_cons in Hx as [Hx _]. by rewrite lookup_insert_ne.
  - pose proof Hs as Hs0. cbn [shaped] in Hs0.
    destruct (h !! this) as [[|ps|]|] eqn:Hthis; try done. destruct Hs0 as [Hlen _].
    pose proof (nodes_level d0 d1 ds h this ps Hthis) as Hnodes.
    pose proof Hnd as Hnd0. apply NoDup_cons in Hnd0 as [Hnot Hndn]. rewrite Hnodes in Hnot, Hndn.
    assert (Hloop : ∀ l2 l1 hc, ps = l1 ++ l2 →
      (∀ x, x ∈ l1 ≫= below d1 ds h → hc !! x = None) →
      (∀ x, x ∉ l1 ≫= below d1 ds h → hc !! x = h !! x) →
      ∃ h', for_loop (length l2) (Z.of_nat (length l1))
                     (slot_teardown (destructAt d1 ds) this) hc
              = Some (tt, h', l2 ≫= slot_trace d1 ds h) ∧
            (∀ x, x ∈ ps ≫= below d1 ds h → h' !! x = None) ∧
            (∀ x, x ∉ ps ≫= below d1 ds h → h' !! x = h !! x)).
    { induction l2 as [|q l2 IHloop]; intros l1 hc Hps Hgone Hkept.
      - exists hc. rewrite app_nil_r in Hps. subst l1. done.
      - assert (Hthis_c : hc !! this = Some (Level ps)).
        { rewrite Hkept, Hthis; [done|]. intros Hin. apply Hnot.
          rewrite Hps, bind_app, elem_of_app. by left. }
        assert (Hqi : ps !! length l1 = Some q) by (rewrite Hps; apply list_lookup_middle; done).
        assert (Hqi' : ps !! Z.to_nat (Z.of_nat (length l1)) = Some q) by (by rewrite Nat2Z.id).
        assert (Hps' : ps = (l1 ++ [q]) ++ l2) by (by rewrite <- app_assoc).
        assert (Hlen' : Z.of_nat (length (l1 ++ [q])) = Z.of_nat (length l1) + 1)
          by (rewrite length_app; cbn; lia).
        cbn [for_loop length]. rewrite <- Hlen'.
        destruct (decide (q = nullptr)) as [->|Hnull].
        + assert (Hb : (l1 ++ [nullptr]) ≫= below d1 ds h = l1 ≫= below d1 ds h).
          { rewrite bind_app, bind_cons. unfold below at 2. rewrite decide_True by done.
            by rewrite !app_nil_r. }
          destruct (IHloop (l1 ++ [nullptr]) hc Hps') as (h' & Hrun & Hgone' & Hkept').
          { intros x. rewrite Hb. apply Hgone. }
          { intros x. rewrite Hb. apply Hkept. }
          exists h'. split; [|done].
          eapply (bind_step_ev _ _ hc tt hc []); [|exact Hrun].
          eapply slot_teardown_empty; [done..|lia].
        + assert (Hqps : q ∈ ps) by (by eapply list_elem_of_lookup_2).
          destruct (NoDup_below _ _ _ _ _ _ _ Hthis Hqps Hnull Hnd) as [Hndq Hthisq].
          assert (Hsep : ∀ x, x ∈ q :: nodes d1 ds h q → x ∉ l1 ≫= below d1 ds h).
          { intros x Hx Hin. apply list_elem_of_bind in Hin as (q' & Hxq' & Hq'l1).
            apply list_elem_of_lookup in Hq'l1 as [j Hj].
            assert (Hjps : ps !! j = Some q') by (rewrite Hps; by apply lookup_app_l_Some).
            apply lookup_lt_Some in Hj.
            eapply (NoDup_bind_disjoint (below d1 ds h) ps j (length l1) q' q x Hndn);
              [done|done|lia|done|]. by apply elem_of_below. }
          assert (Hagree : ∀ x, x ∈ q :: nodes d1 ds h q → hc !! x = h !! x).
          { intros x Hx. by apply Hkept, Hsep. }
          pose proof (shaped_slot _ _ _ _ _ _ _ Hs Hthis Hqps Hnull) as Hsq.
          pose proof (shaped_frame d1 ds h hc q Hagree Hsq) as Hsq_c.
          pose proof (nodes_frame d1 ds h hc q Hagree) as Hnq_c.
          destruct (IH d1 q hc Hsq_c) as (hq & Hrun_q & Hgone_q & Hq_some & Hkept_q);
            [by rewrite Hnq_c|].
          rewrite (teardown_trace_frame d1 ds h hc q Hagree), Hnq_c in *.
          assert (Hb : ∀ x, x ∈ (l1 ++ [q]) ≫= below d1 ds h ↔
                            x ∈ l1 ≫= below d1 ds h ∨ x ∈ q :: nodes d1 ds h q).
          { intros x. rewrite bind_app, bind_cons, elem_of_app, app_nil_r, elem_of_below.
            tauto. }
          destruct (IHloop (l1 ++ [q]) (delete q hq) Hps') as (h' & Hrun & Hgone' & Hkept').
          { intros x [Hx|Hx]%Hb.
            - assert (Hxq : x ∉ q :: nodes d1 ds h q) by (intros ?; by eapply Hsep).
              assert (Hne : q ≠ x) by (intros ->; apply Hxq; by left).
              rewrite lookup_delete_ne by done.
              rewrite Hkept_q by done. by apply Hgone.
            - apply elem_of_cons in Hx as [->|Hx]; [apply lookup_delete_eq|].
              rewrite lookup_delete_ne.
              + by apply Hgone_q.
              + intros ->. by apply NoDup_cons in Hndq as [? _]. }
          { intros x Hx. rewrite Hb in Hx.
            rewrite lookup_delete_ne by (intros ->; apply Hx; right; by left).
            rewrite Hkept_q by tauto. apply Hkept. tauto. }
          exists h'. split; [|done].
          rewrite bind_cons. unfold slot_trace at 1. rewrite decide_False by done.
          eapply bind_step_ev; [|exact Hrun].
          eapply slot_teardown_full; try done; [lia|].
          by rewrite Hkept_q. }
    destruct (Hloop ps [] h) as (h' & Hrun & Hgone & Hkept); [done| |done|].
    { intros x Hx. by apply elem_of_nil in Hx. }
    exists h'. split_and!.
    + rewrite destructAt_level, (teardown_trace_level _ _ _ _ _ _ Hthis).
      eapply (bind_step_ev _ _ h tt h [EvDestructAt this]); [done|].
      by rewrite <- Hlen, Nat2Z.id.
    + intros x. rewrite Hnodes. apply Hgone.
    + rewrite Hkept, Hthis by done. eauto.
    + intros x Hx. apply not_elem_of_cons in Hx as [_ Hx]. rewrite Hnodes in Hx.
      by apply Hkept.
Qed.

Lemma live_NoDup_nodes d0 dims h this :
  live d0 dims h this →
  NoDup (nodes d0 dims h this) ∧ (this ∉ nodes d0 dims h this) ∧
  (nullptr ∉ nodes d0 dims h this).
Proof.
  intros (_ & _ & [Hnot Hnd]%NoDup_cons). split_and!; [done..|].
  intros Hin. by eapply nodes_nonnull.
Qed.

Lemma allocated_teardown_trace d0 dims h this :
  allocated (teardown_trace d0 dims h this) = [].
Proof.
  revert d0 this. induction dims as [|d1 ds IH]; intros d0 this; [done|].
  cbn [teardown_trace]. change (allocated (EvDestructAt this :: ?t)) with (allocated t).
  destruct (h !! this) as [[|ps|]|]; try done.
  unfold allocated. rewrite omap_list_bind.
  induction ps as [|q ps IHps]; [done|]. rewrite bind_cons, IHps, app_nil_r.
  case_decide; [done|]. rewrite omap_app. fold (allocated (teardown_trace d1 ds h q)).
  by rewrite IH.
Qed.

(** ** The lifecycle of the [Leaf] records *)

Lemma destructed_destructAt p t : destructed (EvDestructAt p :: t) = destructed t.
Proof. reflexivity. Qed.

Lemma destructed_app t1 t2 : destructed (t1 ++ t2) = destructed t1 ++ destructed t2.
Proof. apply omap_app. Qed.

Lemma destructed_bind {A} (g : A → list event) (l : list A) :
  destructed (l ≫= g) = l ≫= (λ a, destructed (g a)).
Proof. apply omap_list_bind. Qed.

(** Teardown calls [Leaf::destruct] on the last-level maps, in slot order. *)
Lemma destructed_teardown_trace d0 dims h this :
  destructed (teardown_trace d0 dims h this) = records d0 dims h this.
Proof.
  revert d0 this. induction dims as [|d1 ds IH]; intros d0 this; [done|].
  cbn [teardown_trace records]. rewrite destructed_destructAt.
  destruct (h !! this) as [[|ps|]|]; try done.
  rewrite destructed_bind. apply list_bind_ext_in.
  intros q _. case_decide; [done|].
  by rewrite destructed_app, IH, app_nil_r.
Qed.

Lemma elem_of_records d0 dims h this x :
  shaped d0 dims h this →
  x ∈ records d0 dims h this ↔ x ∈ this :: nodes d0 dims h this ∧ h !! x = Some Last.
Proof.
  revert d0 this. induction dims as [|d1 ds IH]; intros d0 this Hs.
  - cbn in *. rewrite list_elem_of_singleton. split; [by intros ->|by intros [? _]].
  - pose proof Hs as Hs0. cbn [shaped] in Hs0. cbn [records].
    destruct (h !! this) as [[|ps|]|] eqn:Hthis; try done.
    rewrite list_elem_of_bind, elem_of_cons. split.
    + intros (q & Hx & Hq). case_decide as Hnull; [by apply elem_of_nil in Hx|].
      apply IH in Hx as [Hx HL]; [|by eapply shaped_slot]. split; [|done]. right.
      apply (elem_of_nodes_level _ _ _ _ _ _ _ Hthis). exists q. split; [done|].
      by apply elem_of_below.
    + intros [[->|Hx] HL]; [by rewrite Hthis in HL|].
      apply (elem_of_nodes_level _ _ _ _ _ _ _ Hthis) in Hx as (q & Hq & Hx).
      apply elem_of_below in Hx as [Hnull Hx]. exists q. split; [|done].
      rewrite decide_False by done. apply IH; [by eapply shaped_slot|done].
Qed.

Lemma NoDup_bind_sub {A B} (f g : A → list B) (l : list A) :
  NoDup (l ≫= g) →
  (∀ a, a ∈ l → NoDup (f a) ∧ ∀ x, x ∈ f a → x ∈ g a) →
  NoDup (l ≫= f).
Proof.
  induction l as [|a l IH]; intros Hnd Hsub; [constructor|].
  rewrite bind_cons in Hnd |- *. apply NoDup_app in Hnd as (_ & Hdis & Hnd).
  destruct (Hsub a) as [Hfa Hin]; [by left|].
  apply NoDup_app. split_and!; [done| |].
  - intros x Hx Hx'. apply (Hdis x); [by apply Hin|].
    apply list_elem_of_bind in Hx' as (b & Hxb & Hb). apply list_elem_of_bind.
    exists b. split; [|done]. apply Hsub; [by right|done].
  - apply IH; [done|]. intros b Hb. apply Hsub. by right.
Qed.

Lemma NoDup_records d0 dims h this :
  shaped d0 dims h this → NoDup (this :: nodes d0 dims h this) →
  NoDup (records d0 dims h this).
Proof.
  revert d0 this. induction dims as [|d1 ds IH]; intros d0 this Hs Hnd.
  - apply NoDup_singleton.
  - pose proof Hs as Hs0. cbn [shaped] in Hs0. cbn [records].
    destruct (h !! this) as [[|ps|]|] eqn:Hthis; try done.
    pose proof Hnd as [_ Hndn]%NoDup_cons. rewrite (nodes_level _ _ _ _ _ _ Hthis) in Hndn.
    eapply NoDup_bind_sub; [exact Hndn|]. intros q Hq.
    case_decide as Hnull; [split; [constructor|by intros ? ?%elem_of_nil]|].
    pose proof (shaped_slot _ _ _ _ _ _ _ Hs Hthis Hq Hnull) as Hsq.
    destruct (NoDup_below _ _ _ _ _ _ _ Hthis Hq Hnull Hnd) as [Hndq _].
    split; [by apply IH|]. intros x Hx. apply elem_of_below. split; [done|].
    by apply (elem_of_records d1 ds h q x Hsq) in Hx as [? _].
Qed.

(** What a write-triggering lookup does to the kinds of blocks: the maps
    that exist keep their kind, and each block it allocates ends up as a
    map with lower levels or as a last-level map, the latter exactly if
    [Leaf::construct] ran on it. *)
Lemma leaf_for_write_kinds `{HostOk} d0 dims this addr h r h' t :
  leaf_for_write d0 dims this addr h = Some (r, h', t) →
  (∀ x, h !! x = Some Last → h' !! x = Some Last) ∧
  (∀ x ps, h !! x = Some (Level ps) → ∃ ps', h' !! x = Some (Level ps')) ∧
  (∀ x, x ∈ constructed t → x ∈ allocated t ∧ h' !! x = Some Last) ∧
  (∀ x, x ∈ allocated t → x ∈ constructed t ∨ ∃ ps, h' !! x = Some (Level ps)).
Proof.
  revert d0 dims this h r h' t.
  apply (leaf_for_write_ind addr (λ _ _ _ h _ h' t,
    (∀ x, h !! x = Some Last → h' !! x = Some Last) ∧
    (∀ x ps, h !! x = Some (Level ps) → ∃ ps', h' !! x = Some (Level ps')) ∧
    (∀ x, x ∈ constructed t → x ∈ allocated t ∧ h' !! x = Some Last) ∧
    (∀ x, x ∈ allocated t → x ∈ constructed t ∨ ∃ ps, h' !! x = Some (Level ps)))).
  - intros. split_and!; eauto; by intros ? ?%elem_of_nil.
  - done.
  - intros d0 d1 ds this h ps r h' t Hthis Hi size fresh h1 Hrec (IHL & IHV & IHC & IHA).
    assert (Hf : h !! fresh = None) by apply malloc_fresh.
    assert (Hne : this ≠ fresh) by (intros ->; by rewrite Hthis in Hf).
    change (EvMalloc size fresh :: constructAt_trace ds fresh ++ t)
      with ([EvMalloc size fresh] ++ constructAt_trace ds fresh ++ t).
    rewrite !constructed_app, !allocated_app, constructed_constructAt_trace,
      allocated_constructAt_trace.
    change (allocated [EvMalloc size fresh]) with [fresh].
    change (constructed [EvMalloc size fresh]) with (@nil Z). cbn [app].
    assert (Hfresh : h1 !! fresh = Some (constructed_object d1 ds)) by apply grown_lookup_fresh.
    split_and!.
    + intros x Hx. apply IHL. unfold h1. rewrite grown_lookup_other; [done| |].
      * intros ->. by rewrite Hthis in Hx.
      * intros ->. by rewrite Hf in Hx.
    + intros x psx Hx. destruct (decide (x = this)) as [->|Hxt].
      * eapply IHV. unfold h1. by apply grown_lookup_this.
      * eapply (IHV x psx). unfold h1. rewrite grown_lookup_other; [done..|].
        intros ->. by rewrite Hf in Hx.
    + intros x Hx. destruct ds as [|d2 ds'].
      * apply elem_of_cons in Hx as [->|Hx].
        -- split; [by left|]. by apply IHL.
        -- destruct (IHC x Hx). split; [by right|done].
      * cbn [app] in Hx. destruct (IHC x Hx). split; [by right|done].
    + intros x [->|Hx]%elem_of_cons.
      * destruct ds as [|d2 ds']; [left; by left|]. right. by eapply IHV.
      * destruct (IHA x Hx) as [?|?]; [left|by right].
        apply elem_of_app. by right.
Qed.

Lemma leaf_for_write_no_destruct `{HostOk} d0 dims this addr h r h' t :
  leaf_for_write d0 dims this addr h = Some (r, h', t) → destructed t = [].
Proof.
  revert d0 dims this h r h' t.
  apply (leaf_for_write_ind addr (λ _ _ _ _ _ _ t, destructed t = [])); try done.
  intros d0 d1 ds this h ps r h' t _ _ size fresh h1 _ IHd.
  change (EvMalloc size fresh :: constructAt_trace ds fresh ++ t)
    with ([EvMalloc size fresh] ++ constructAt_trace ds fresh ++ t).
  rewrite !destructed_app, IHd. by destruct ds.
Qed.

Lemma writes_kinds `{HostOk} d0 dims this addrs h h' t :
  writes d0 dims this addrs h = Some (tt, h', t) →
  (∀ x, h !! x = Some Last → h' !! x = Some Last) ∧
  (∀ x ps, h !! x = Some (Level ps) → ∃ ps', h' !! x = Some (Level ps')) ∧
  (∀ x, x ∈ constructed t → x ∈ allocated t ∧ h' !! x = Some Last) ∧
  (∀ x, x ∈ allocated t → x ∈ constructed t ∨ ∃ ps, h' !! x = Some (Level ps)) ∧
  destructed t = [].
Proof.
  revert h h' t. induction addrs as [|a rest IH]; intros h h' t; cbn [writes].
  - unfold ret. intros ?; simplify_eq. split_and!; eauto; by intros ? ?%elem_of_nil.
  - intros (r & h1 & t1 & t2 & Hw & Hrest & ->)%bind_Some.
    destruct (leaf_for_write_kinds _ _ _ _ _ _ _ _ Hw) as (HL1 & HV1 & HC1 & HA1).
    destruct (IH _ _ _ Hrest) as (HL2 & HV2 & HC2 & HA2 & HD2).
    rewrite constructed_app, allocated_app, destructed_app, HD2, app_nil_r.
    split_and!.
    + intros x Hx. by apply HL2, HL1.
    + intros x ps Hx. destruct (HV1 x ps Hx) as [ps1 H1]. by eapply HV2.
    + intros x [Hx|Hx]%elem_of_app.
      * destruct (HC1 x Hx). split; [apply elem_of_app; by left|by apply HL2].
      * destruct (HC2 x Hx). split; [apply elem_of_app; by right|done].
    + intros x [Hx|Hx]%elem_of_app.
      * destruct (HA1 x Hx) as [?|[ps Hps]]; [left; apply elem_of_app; by left|].
        right. by eapply HV2.
      * destruct (HA2 x Hx) as [?|?]; [left; apply elem_of_app; by right|by right].
    + by eapply leaf_for_write_no_destruct.
Qed.

Lemma constructed_teardown_trace d0 dims h this :
  constructed (teardown_trace d0 dims h this) = [].
Proof.
  revert d0 this. induction dims as [|d1 ds IH]; intros d0 this; [done|].
  cbn [teardown_trace]. change (constructed (EvDestructAt this :: ?t)) with (constructed t).
  destruct (h !! this) as [[|ps|]|]; try done.
  unfold constructed. rewrite omap_list_bind.
  induction ps as [|q ps IHps]; [done|]. rewrite bind_cons, IHps, app_nil_r.
  case_decide; [done|]. rewrite omap_app. fold (constructed (teardown_trace d1 ds h q)).
  by rewrite IH.
Qed.

(** Around the release of a map lies its own teardown: in it the release
    of every map that sits in one of its slots, and for a last-level map
    the call of [Leaf::destruct] on its record and nothing else. *)
Lemma teardown_node d0 dims h this p :
  shaped d0 dims h this → p ∈ nodes d0 dims h this →
  ∃ t1 body t2,
    teardown_trace d0 dims h this = t1 ++ EvDestructAt p :: body ++ EvFree p :: t2 ∧
    (∀ c, child_of h c p → EvFree c ∈ body) ∧
    (h !! p = Some Last → body = [EvDestruct p]).
Proof.
  intros Hs Hp.
  destruct (teardown_segment d0 dims h this p Hs Hp) as (dp & dimsp & t1 & t2 & Heq & Hsp).
  destruct (teardown_trace_head dp dimsp h p) as [body Hbody].
  exists t1, body, t2. split; [by rewrite Heq, Hbody|]. split.
  - intros c (Hc & psp & Hpsp & Hin).
    destruct dimsp as [|d' ds']; [cbn in Hsp; by rewrite Hpsp in Hsp|].
    assert (Hcn : c ∈ nodes dp (d' :: ds') h p).
    { apply (elem_of_nodes_level _ _ _ _ _ _ _ Hpsp). exists c. split; [done|].
      apply elem_of_below. split; [done|by left]. }
    rewrite <- freed_teardown_trace in Hcn. apply elem_of_freed in Hcn.
    rewrite Hbody in Hcn. by apply elem_of_cons in Hcn as [?|?].
  - intros HL. destruct dimsp as [|d' ds'].
    + cbn in Hbody. by simplify_eq.
    + cbn [shaped] in Hsp. by rewrite HL in Hsp.
Qed.

(** Over a lifetime the records finalised by the destructor are the
    records constructed before it. *)
Lemma lifetime_records `{HostOk} d0 dims this addrs h1 h2 tw :
  h1 !! this = Some (constructed_object d0 dims) →
  shaped d0 dims h2 this → NoDup (this :: nodes d0 dims h2 this) →
  nodes d0 dims h2 this ≡ₚ allocated tw →
  writes d0 dims this addrs h1 = Some (tt, h2, tw) →
  NoDup (records d0 dims h2 this) ∧
  records d0 dims h2 this ≡ₚ constructed (constructAt_trace dims this ++ tw).
Proof.
  intros Hobj Hs2 Hnd2 Hall Hwr.
  destruct (writes_kinds _ _ _ _ _ _ _ Hwr) as (_ & _ & HC & HA & HD).
  destruct (writes_constructed _ _ _ _ _ _ _ Hwr) as (Hndc & Hfresh & _ & _).
  assert (Hnr : NoDup (records d0 dims h2 this)) by (by apply NoDup_records).
  split; [done|].
  apply NoDup_Permutation; [done| |].
  - rewrite constructed_app, constructed_constructAt_trace.
    destruct dims; [|done]. apply NoDup_cons. split; [|done].
    intros Hin. apply Hfresh in Hin. by rewrite Hobj in Hin.
  - intros x. rewrite (elem_of_records d0 dims h2 this x Hs2).
    rewrite constructed_app, constructed_constructAt_trace, elem_of_app. split.
    + intros [[->|Hx]%elem_of_cons HL].
      * destruct dims as [|d1 ds]; [left; by left|].
        cbn [shaped] in Hs2. by destruct (h2 !! this) as [[]|].
      * right. rewrite Hall in Hx. destruct (HA x Hx) as [?|[ps Hps]]; [done|].
        by rewrite Hps in HL.
    + intros [Hx|Hx].
      * destruct dims as [|d1 ds]; [|by apply elem_of_nil in Hx].
        apply list_elem_of_singleton in Hx as ->. split; [by left|]. exact Hs2.
      * destruct (HC x Hx) as [Hxa HL]. split; [|done]. right. by rewrite Hall.
Qed.

(** C6.  Destroying a live map releases exactly the maps below the top
    one: the blocks passed to [shadow_free] are the [K] dynamically
    allocated maps the store holds under it, each exactly once, in the
    order of [nodes]; [destructAt] is invoked exactly once on each of them
    (and once on the top map).  [Leaf::destruct] runs exactly once on every
    last-level map of the tree and on nothing else; for a last-level map
    that is released, it is the one call between the entry of its
    [destructAt] and its release.  The teardown of a map, and in it the
    release of every map in its slots, comes before the map's own release;
    an empty slot causes no call; the top map itself is never passed to
    [shadow_free] and its storage is still there afterwards, while the
    released maps are gone and nothing else has changed.  Over a whole
    lifetime, from the constructor through any sequence of write-triggering
    lookups to the destructor, the blocks released are exactly the blocks
    that were obtained from [shadow_malloc], each once, and the records
    finalised by [Leaf::destruct] are exactly the records that were
    constructed, each once, a released one directly before its release. *)
Theorem teardown_complete d0 dims this :
  (∀ h, live d0 dims h this →
     ∃ h' t, ShadowMap_dtor d0 dims this h = Some (tt, h', t) ∧
       freed t = nodes d0 dims h this ∧
       length (freed t) = length (nodes d0 dims h this) ∧
       NoDup (freed t) ∧
       finalized t ≡ₚ this :: freed t ∧
       destructed t = records d0 dims h this ∧
       NoDup (destructed t) ∧
       (∀ p, p ∈ destructed t ↔ p ∈ this :: freed t ∧ h !! p = Some Last) ∧
       (∀ p, p ∈ freed t →
          ∃ t1 body t2, t = t1 ++ EvDestructAt p :: body ++ EvFree p :: t2 ∧
                        (∀ c, child_of h c p → EvFree c ∈ body) ∧
                        (h !! p = Some Last → body = [EvDestruct p])) ∧
       (nullptr ∉ freed t) ∧
       (this ∉ freed t) ∧
       is_Some (h' !! this) ∧
       (∀ p, p ∈ freed t → h' !! p = None) ∧
       (∀ x, x ∉ this :: freed t → h' !! x = h !! x)) ∧
  (∀ (host : Host) (ok : HostOk) addrs h0,
     Forall valid_width (d0 :: dims) → is_Some (h0 !! this) →
     ∃ h t, (ShadowMap_ctor d0 dims this ;;
             writes d0 dims this addrs ;;
             ShadowMap_dtor d0 dims this) h0 = Some (tt, h, t) ∧
       freed t ≡ₚ allocated t ∧
       NoDup (freed t) ∧
       finalized t ≡ₚ this :: allocated t ∧
       (this ∉ freed t) ∧
       destructed t ≡ₚ constructed t ∧
       NoDup (destructed t) ∧
       (∀ p, p ∈ constructed t → p ∈ freed t →
          ∃ t1 t2, t = t1 ++ EvDestructAt p :: EvDestruct p :: EvFree p :: t2)).
Proof.
  split.
  - intros h Hlive. destruct (live_NoDup_nodes _ _ _ _ Hlive) as (Hnd & Hthis & Hnull).
    destruct Hlive as (_ & Hs & Hndt).
    destruct (destructAt_teardown d0 dims this h Hs Hndt)
      as (h' & Hrun & Hgone & Hsome & Hkept).
    exists h', (teardown_trace d0 dims h this).
    rewrite freed_teardown_trace, destructed_teardown_trace.
    split_and!; try done.
    + apply finalized_teardown_trace.
    + by apply NoDup_records.
    + intros p. by apply elem_of_records.
    + intros p Hp. by apply teardown_node.
  - intros host ok addrs h0 Hw Hthis.
    destruct (ctor_live d0 dims this h0 Hthis) as (h1 & Hctor & Hobj & Hs1 & Hn1).
    destruct (writes_live d0 dims this addrs h1 Hw Hs1)
      as (h2 & t2 & Hwr & Hs2 & Hnd2 & Hall & Hf2 & Hd2).
    { rewrite Hn1. apply NoDup_singleton. }
    destruct (destructAt_teardown d0 dims this h2 Hs2 Hnd2) as (h3 & Hrun & _).
    rewrite Hn1 in Hall. cbn [app] in Hall.
    destruct (lifetime_records d0 dims this addrs h1 h2 t2 Hobj Hs2 Hnd2 Hall Hwr)
      as [Hndr Hrec].
    destruct (writes_kinds _ _ _ _ _ _ _ Hwr) as (_ & _ & _ & _ & HD).
    exists h3, (constructAt_trace dims this ++ t2 ++ teardown_trace d0 dims h2 this).
    assert (Hfreed : freed (constructAt_trace dims this ++ t2 ++ teardown_trace d0 dims h2 this)
                     = nodes d0 dims h2 this).
    { rewrite !freed_app, Hf2, freed_teardown_trace. by destruct dims. }
    assert (Halloc : allocated (constructAt_trace dims this ++ t2 ++ teardown_trace d0 dims h2 this)
                     = allocated t2).
    { rewrite !allocated_app, allocated_constructAt_trace, allocated_teardown_trace.
      by rewrite app_nil_r. }
    assert (Hdes : destructed (constructAt_trace dims this ++ t2 ++ teardown_trace d0 dims h2 this)
                   = records d0 dims h2 this).
    { rewrite !destructed_app, HD, destructed_teardown_trace. by destruct dims. }
    assert (Hcon : constructed (constructAt_trace dims this ++ t2 ++ teardown_trace d0 dims h2 this)
                   = constructed (constructAt_trace dims this ++ t2)).
    { by rewrite app_assoc, constructed_app, constructed_teardown_trace, app_nil_r. }
    apply NoDup_cons in Hnd2 as [Hnot Hnd2].
    rewrite Hfreed, Halloc, Hdes, Hcon. split_and!; try done.
    + eapply bind_step_ev; [exact Hctor|]. eapply bind_step_ev; [exact Hwr|exact Hrun].
    + rewrite !finalized_app, Hd2, finalized_teardown_trace, Hall.
      by destruct dims.
    + intros p Hc Hp. rewrite <- Hrec in Hc.
      apply (elem_of_records d0 dims h2 this p Hs2) in Hc as [_ HL].
      destruct (teardown_node d0 dims h2 this p Hs2 Hp) as (t1 & body & t3 & Heq & _ & Hbody).
      rewrite (Hbody HL) in Heq.
      exists (constructAt_trace dims this ++ t2 ++ t1), t3.
      rewrite Heq. by rewrite <- !app_assoc.
Qed.

Lemma live_three_levels : live 1 [1; 1] three_levels 10.
Proof.
  assert (E10 : three_levels !! 10 = Some (Level [0; 11])) by (vm_compute; reflexivity).
  assert (E11 : three_levels !! 11 = Some (Level [12; 0])) by (vm_compute; reflexivity).
  assert (E12 : three_levels !! 12 = Some Last) by (vm_compute; reflexivity).
  split_and!.
  - unfold nullptr. lia.
  - cbn [shaped]. rewrite E10. split; [vm_compute; reflexivity|].
    apply Forall_cons. split; [by left|].
    apply Forall_cons. split; [|by apply Forall_nil]. right.
    rewrite E11. split; [vm_compute; reflexivity|].
    apply Forall_cons. split; [right; exact E12|].
    apply Forall_cons. split; [by left|by apply Forall_nil].
  - apply (bool_decide_unpack _). vm_compute. exact I.
Qed.

Lemma teardown_complete_witness :
  (live 1 [1; 1] three_levels 10 ∧
   ShadowMap_dtor 1 [1; 1] 10 three_levels =
     Some (tt, {[10 := Level [0; 11]]},
           [EvDestructAt 10; EvDestructAt 11; EvDestructAt 12; EvDestruct 12;
            EvFree 12; EvFree 11]) ∧
   ∃ h' t, ShadowMap_dtor 1 [1; 1] 10 three_levels = Some (tt, h', t) ∧
     freed t = nodes 1 [1; 1] three_levels 10 ∧
     length (freed t) = length (nodes 1 [1; 1] three_levels 10) ∧
     NoDup (freed t) ∧
     finalized t ≡ₚ 10 :: freed t ∧
     destructed t = records 1 [1; 1] three_levels 10 ∧
     NoDup (destructed t) ∧
     (∀ p, p ∈ destructed t ↔ p ∈ 10 :: freed t ∧ three_levels !! p = Some Last) ∧
     (∀ p, p ∈ freed t →
        ∃ t1 body t2, t = t1 ++ EvDestructAt p :: body ++ EvFree p :: t2 ∧
                      (∀ c, child_of three_levels c p → EvFree c ∈ body) ∧
                      (three_levels !! p = Some Last → body = [EvDestruct p])) ∧
     (nullptr ∉ freed t) ∧
     (10 ∉ freed t) ∧
     is_Some (h' !! 10) ∧
     (∀ p, p ∈ freed t → h' !! p = None) ∧
     (∀ x, x ∉ 10 :: freed t →
        h' !! x = three_levels !! x)) ∧
  (Forall valid_width [1; 1; 1] ∧ is_Some (raw_block !! 10) ∧
   ∃ h t, (ShadowMap_ctor 1 [1; 1] 10 ;;
           @writes (bump_host 64) 1 [1; 1] 10 [7; 0; 6; 3] ;;
           ShadowMap_dtor 1 [1; 1] 10) raw_block = Some (tt, h, t) ∧
     freed t ≡ₚ allocated t ∧
     NoDup (freed t) ∧
     finalized t ≡ₚ 10 :: allocated t ∧
     (10 ∉ freed t) ∧
     destructed t ≡ₚ constructed t ∧
     NoDup (destructed t) ∧
     (∀ p, p ∈ constructed t → p ∈ freed t →
        ∃ t1 t2, t = t1 ++ EvDestructAt p :: EvDestruct p :: EvFree p :: t2)).
Proof.
  assert (Hrun : ShadowMap_dtor 1 [1; 1] 10 three_levels =
     Some (tt, {[10 := Level [0; 11]]},
           [EvDestructAt 10; EvDestructAt 11; EvDestructAt 12; EvDestruct 12;
            EvFree 12; EvFree 11])) by (vm_compute; reflexivity).
  assert (Hw : Forall valid_width [1; 1; 1]) by (repeat constructor; unfold valid_width; lia).
  assert (Hs : is_Some (raw_block !! 10)) by (vm_compute; eauto).
  split; [split; [exact live_three_levels|split; [exact Hrun|]]|split_and!; [exact Hw|exact Hs|]].
  - exact (proj1 (teardown_complete 1 [1; 1] 10) _ live_three_levels).
  - exact (proj2 (teardown_complete 1 [1; 1] 10) (bump_host 64) _ [7; 0; 6; 3] _ Hw Hs).
Defined.

(** ** A whole lifetime, run *)

(** The map of widths (4, 4) at address 10 with the bump allocator: the
    first write-triggering lookup of address 0x13 allocates and constructs
    the leaf at 11 under slot 1; address 0x1f shares the leaf, address 0x23
    is unmapped; the destructor tears the leaf down and releases it. *)
Example lifetime_4_4 :
  ∃ h, (ShadowMap_ctor 4 [4] 10 ;;
        let! p := @leaf_for_write (bump_host 8) 4 [4] 10 0x13 in
        let! q := leaf 4 [4] 10 0x1f in
        let! r := leaf 4 [4] 10 0x23 in
        ShadowMap_dtor 4 [4] 10 ;;
        ret (p, q, r)) raw_block
       = Some ((11, 11, nullptr), h,
               [EvMalloc 1 11; EvConstruct 11;
                EvDestructAt 10; EvDestructAt 11; EvDestruct 11; EvFree 11]) ∧
       h !! 11 = None ∧
       h !! 10 = Some (Level (<[1%nat := 11]> (replicate 16 nullptr))).
Proof. eexists. vm_compute. done. Qed.

(** * Further properties of the header *)

(** ** Runs of addresses inside one leaf *)

Lemma pow2_pos n : 0 ≤ n → 0 < 2 ^ n.
Proof. intros. by apply Z.pow_pos_nonneg. Qed.

Lemma shiftr_add_small addr k w :
  0 ≤ w → 0 ≤ k → addr mod 2 ^ w + k < 2 ^ w →
  Z.shiftr (addr + k) w = Z.shiftr addr w ∧ (addr + k) mod 2 ^ w = addr mod 2 ^ w + k.
Proof.
  intros Hw Hk Hlt. pose proof (pow2_pos w Hw) as Hpos.
  pose proof (Z.mod_pos_bound addr (2 ^ w) Hpos) as Hm.
  rewrite !Z.shiftr_div_pow2 by done.
  replace (addr + k) with ((addr mod 2 ^ w + k) + addr / 2 ^ w * 2 ^ w)
    by (pose proof (Z.div_mod addr (2 ^ w)); lia).
  rewrite Z.div_add, Z.mod_add by lia.
  rewrite Z.div_small, Z.mod_small by lia. lia.
Qed.

(** With a signed 8-bit [Address] and the single width 7 the longest run,
    128, is not a value of [Address]: the header returns -128. *)
Example contiguousElements_signed_char :
  @contiguousElements (signed_host 8) 7 [] 0 = -128 ∧
  @contiguousElements (signed_host 8) 6 [] 0 = 64.
Proof. vm_compute. done. Qed.

(** X1.  What the doc comment of [contiguousElements] promises, where the
    widths fit the type [Address], so that every shift of the header is
    defined, and the longest run, [2^Wn], is a value of [Address], signed
    or unsigned: the result is at least 1; each of the addresses
    [addr], ..., [addr+N-1] selects the same slots on the way down, so both
    lookups reach the same leaf, and has the index of [addr] advanced by
    its distance; and [N] is maximal, for [addr+N] starts at index 0. *)
Theorem contiguousElements_run `{Host} d0 dims addr :
  Forall valid_width (d0 :: dims) → fits_Address d0 dims →
  2 ^ last_width d0 dims ≤ Address_max →
  1 ≤ contiguousElements d0 dims addr ≤ 2 ^ last_width d0 dims ∧
  (∀ k, 0 ≤ k < contiguousElements d0 dims addr →
     descent d0 dims (addr + k) = descent d0 dims addr ∧
     (∀ this h, leaf d0 dims this (addr + k) h = leaf d0 dims this addr h) ∧
     index d0 dims (addr + k) = index d0 dims addr + k) ∧
  index d0 dims (addr + contiguousElements d0 dims addr) = 0.
Proof.
  intros Hw _ Hfit. pose proof (last_width_valid d0 dims Hw) as [Hl0 Hl1].
  rewrite (contiguousElements_exact d0 dims addr Hw Hfit).
  rewrite !(index_last_width _ _ _ Hw).
  set (w := last_width d0 dims) in *.
  pose proof (pow2_pos w Hl0) as Hpos.
  pose proof (Z.mod_pos_bound addr (2 ^ w) Hpos) as Hm.
  split_and!; [lia..| |].
  - intros k Hk.
    destruct (shiftr_add_small addr k w) as [Hshift Hmod]; [lia..|].
    assert (Hdesc : descent d0 dims (addr + k) = descent d0 dims addr)
      by (by apply descent_same_prefix).
    split_and!; [done| |by rewrite (index_last_width _ _ _ Hw)].
    intros this h. by rewrite !leaf_follow, Hdesc.
  - replace (addr + (2 ^ w - addr mod 2 ^ w)) with ((addr / 2 ^ w + 1) * 2 ^ w)
      by (pose proof (Z.div_mod addr (2 ^ w)); lia).
    apply Z.mod_mul. lia.
Qed.

Lemma contiguousElements_run_witness :
  Forall valid_width [4; 4] ∧ @fits_Address (signed_host 8) 4 [4] ∧
  2 ^ last_width 4 [4] ≤ @Address_max (signed_host 8) ∧
  1 ≤ @contiguousElements (signed_host 8) 4 [4] 3 ≤ 2 ^ last_width 4 [4] ∧
  (∀ k, 0 ≤ k < @contiguousElements (signed_host 8) 4 [4] 3 →
     descent 4 [4] (3 + k) = descent 4 [4] 3 ∧
     (∀ this h, leaf 4 [4] this (3 + k) h = leaf 4 [4] this 3 h) ∧
     index 4 [4] (3 + k) = index 4 [4] 3 + k) ∧
  index 4 [4] (3 + @contiguousElements (signed_host 8) 4 [4] 3) = 0.
Proof.
  assert (Hw : Forall valid_width [4; 4]) by (repeat constructor; unfold valid_width; lia).
  assert (Hf : @fits_Address (signed_host 8) 4 [4])
    by (vm_compute; split; [discriminate|reflexivity]).
  assert (Hl : 2 ^ last_width 4 [4] ≤ @Address_max (signed_host 8))
    by (vm_compute; discriminate).
  split; [exact Hw|]. split; [exact Hf|]. split; [exact Hl|].
  exact (@contiguousElements_run (signed_host 8) 4 [4] 3 Hw Hf Hl).
Defined.

(** ** Address bits beyond the configured ones *)

Lemma split_low_high m a1 b1 a2 b2 :
  0 < m → 0 ≤ a1 < m → 0 ≤ a2 < m → a1 + m * b1 = a2 + m * b2 → a1 = a2 ∧ b1 = b2.
Proof. intros Hm H1 H2 Heq. assert (b1 = b2) by nia. subst. lia. Qed.

Lemma mod_pow2_split a w k :
  0 ≤ w → 0 ≤ k →
  a mod 2 ^ (w + k) = a mod 2 ^ w + 2 ^ w * ((a / 2 ^ w) mod 2 ^ k).
Proof.
  intros Hw Hk. rewrite Z.pow_add_r by done.
  apply Z.rem_mul_r; [pose proof (pow2_pos w Hw); lia|by apply pow2_pos].
Qed.

(** Equal configured prefixes select equal slots. *)
Lemma configured_prefix_descent d0 dims A B :
  Forall valid_width (d0 :: dims) →
  configured_prefix d0 dims A = configured_prefix d0 dims B →
  descent d0 dims A = descent d0 dims B.
Proof.
  revert d0. induction dims as [|d1 ds IH]; intros d0 Hw Hpre; [done|].
  apply Forall_cons in Hw as [[Hd0 Hd0'] Hw].
  pose proof (last_width_le_sum d1 ds Hw) as Hle.
  pose proof (last_width_valid d1 ds Hw) as [Hl0 _].
  unfold configured_prefix in Hpre. cbn [dimensions_sum last_width] in Hpre.
  cbn [descent]. rewrite !(slot_index_prefix d0 d1 ds) by done.
  rewrite !(land_low_mask _ d0) by done.
  unfold configured_prefix in IH.
  set (w := last_width d1 ds) in *. set (k := dimensions_sum d1 ds - w) in *.
  assert (Hk : 0 ≤ k) by (unfold k; lia).
  replace (d0 + dimensions_sum d1 ds - w) with (k + d0) in Hpre by (unfold k; lia).
  rewrite !(mod_pow2_split _ k d0) in Hpre by done.
  pose proof (pow2_pos k Hk) as Hpos.
  apply split_low_high in Hpre as [Hlow Hhigh];
    [|done|by apply Z.mod_pos_bound..].
  rewrite !Z.shiftr_div_pow2 by done. rewrite !Z.shiftr_div_pow2 in Hlow by done.
  rewrite !Z.shiftr_div_pow2 in Hhigh by done.
  rewrite Hhigh. f_equal. apply (IH d1 Hw). by rewrite !Z.shiftr_div_pow2.
Qed.

Lemma same_residue_prefix d0 dims A B :
  Forall valid_width (d0 :: dims) →
  A mod 2 ^ dimensions_sum d0 dims = B mod 2 ^ dimensions_sum d0 dims →
  configured_prefix d0 dims A = configured_prefix d0 dims B ∧
  index d0 dims A = index d0 dims B.
Proof.
  intros Hw Hres. pose proof (last_width_le_sum d0 dims Hw) as Hle.
  pose proof (last_width_valid d0 dims Hw) as [Hl0 _].
  rewrite !(index_last_width _ _ _ Hw). unfold configured_prefix.
  set (w := last_width d0 dims) in *. set (k := dimensions_sum d0 dims - w).
  assert (Hk : 0 ≤ k) by (unfold k; lia).
  replace (dimensions_sum d0 dims) with (w + k) in Hres by (unfold k; lia).
  rewrite !(mod_pow2_split _ w k) in Hres by done.
  pose proof (pow2_pos w Hl0) as Hpos.
  apply split_low_high in Hres as [Hlow Hhigh];
    [|done|by apply Z.mod_pos_bound..].
  rewrite !Z.shiftr_div_pow2 by done. done.
Qed.

Lemma bind_ext {A B} (m : M A) (k1 k2 : A → M B) h :
  (∀ a h1, k1 a h1 = k2 a h1) → bind m k1 h = bind m k2 h.
Proof.
  intros Hk. unfold bind. destruct (m h) as [[[a h1] t1]|]; [|done]. by rewrite Hk.
Qed.

(** [leaf_for_write] uses the address for nothing but the slots. *)
Lemma leaf_for_write_descent `{Host} d0 dims this A B h :
  descent d0 dims A = descent d0 dims B →
  leaf_for_write d0 dims this A h = leaf_for_write d0 dims this B h.
Proof.
  revert d0 this h. induction dims as [|d1 ds IH]; intros d0 this h Hdesc; [done|].
  cbn [descent] in Hdesc. injection Hdesc as Hslot Hrest.
  cbn [leaf_for_write]. rewrite Hslot.
  apply bind_ext. intros q h1. case_decide; [|by apply IH].
  apply bind_ext. intros f h2. apply bind_ext. intros _ h3.
  apply bind_ext. intros p1 h4. apply bind_ext. intros _ h5.
  apply bind_ext. intros p2 h6. by apply IH.
Qed.

Lemma contiguousElements_index `{Host} d0 dims A B :
  index d0 dims A = index d0 dims B →
  contiguousElements d0 dims A = contiguousElements d0 dims B.
Proof. intros Hi. by rewrite !contiguousElements_last, Hi. Qed.

(** X2.  The header masks the address level by level and never looks at a
    bit beyond the configured ones: two addresses with the same residue
    modulo [2^dimensions_sum] are indistinguishable to every member
    function, in every store. *)
Theorem bits_beyond_configured_ignored `{Host} d0 dims A B :
  Forall valid_width (d0 :: dims) →
  A mod 2 ^ dimensions_sum d0 dims = B mod 2 ^ dimensions_sum d0 dims →
  (∀ this h, leaf d0 dims this A h = leaf d0 dims this B h) ∧
  (∀ this h, leaf_for_write d0 dims this A h = leaf_for_write d0 dims this B h) ∧
  index d0 dims A = index d0 dims B ∧
  contiguousElements d0 dims A = contiguousElements d0 dims B.
Proof.
  intros Hw Hres. destruct (same_residue_prefix d0 dims A B Hw Hres) as [Hpre Hidx].
  pose proof (configured_prefix_descent d0 dims A B Hw Hpre) as Hdesc.
  split_and!; [| |done|by apply contiguousElements_index].
  - intros this h. by rewrite !leaf_follow, Hdesc.
  - intros this h. by apply leaf_for_write_descent.
Qed.

Lemma bits_beyond_configured_ignored_witness :
  Forall valid_width [4; 4] ∧
  3 mod 2 ^ dimensions_sum 4 [4] = 259 mod 2 ^ dimensions_sum 4 [4] ∧
  (∀ this h, leaf 4 [4] this 3 h = leaf 4 [4] this 259 h) ∧
  (∀ this h, @leaf_for_write (bump_host 64) 4 [4] this 3 h
             = @leaf_for_write (bump_host 64) 4 [4] this 259 h) ∧
  index 4 [4] 3 = index 4 [4] 259 ∧
  @contiguousElements (bump_host 64) 4 [4] 3 = @contiguousElements (bump_host 64) 4 [4] 259.
Proof.
  assert (Hw : Forall valid_width [4; 4]) by (repeat constructor; unfold valid_width; lia).
  assert (Hm : 3 mod 2 ^ dimensions_sum 4 [4] = 259 mod 2 ^ dimensions_sum 4 [4])
    by (vm_compute; reflexivity).
  split; [exact Hw|]. split; [exact Hm|].
  exact (@bits_beyond_configured_ignored (bump_host 64) 4 [4] 3 259 Hw Hm).
Defined.

(** ** What a write-triggering lookup leaves alone *)

(** In a well-shaped map, what the read-only lookup finds is a last-level
    map with its [Leaf] constructed. *)
Lemma leaf_finds_record d0 dims this addr h r :
  shaped d0 dims h this → leaf d0 dims this addr h = Some (r, h, []) → r ≠ nullptr →
  h !! r = Some Last.
Proof.
  revert d0 this. induction dims as [|d1 ds IH]; intros d0 this Hs Hleaf Hr.
  - cbn in *. unfold ret in Hleaf. by simplify_eq.
  - cbn [leaf] in Hleaf. apply bind_Some in Hleaf as (q & h1 & t1 & t2 & Hload & Hk & Ht).
    apply load_pointer_Some in Hload as (-> & -> & _ & ps & Hps & Hq).
    simpl in Ht. subst t2.
    case_decide as Hnull; [unfold ret in Hk; by simplify_eq|].
    eapply (IH d1 q); [|done..]. eapply shaped_slot; [done..| |done].
    by eapply list_elem_of_lookup_2.
Qed.

(** [leaf] looks only at the maps of the tree it walks. *)
Lemma leaf_frame d0 dims this addr h h' r :
  (∀ x, x ∈ this :: nodes d0 dims h this → h' !! x = h !! x) →
  leaf d0 dims this addr h = Some (r, h, []) →
  leaf d0 dims this addr h' = Some (r, h', []).
Proof.
  revert d0 this. induction dims as [|d1 ds IH]; intros d0 this Hagree Hleaf.
  - cbn in *. unfold ret in *. by simplify_eq.
  - cbn [leaf] in Hleaf. apply bind_Some in Hleaf as (q & h1 & t1 & t2 & Hload & Hk & Ht).
    apply load_pointer_Some in Hload as (-> & -> & _ & ps & Hps & Hq).
    simpl in Ht. subst t2.
    assert (Hps' : h' !! this = Some (Level ps)) by (rewrite Hagree; [done|by left]).
    rewrite (leaf_step _ _ _ _ _ _ _ _ Hps' Hq).
    case_decide as Hnull; [unfold ret in Hk; by simplify_eq|].
    apply IH; [|done]. intros x Hx. apply Hagree. right.
    apply (elem_of_nodes_level _ _ _ _ _ _ _ Hps). exists q.
    split; [by eapply list_elem_of_lookup_2|by apply elem_of_below].
Qed.

(** An address that selects other slots than [A] and was unmapped stays
    unmapped when [A] is looked up for writing. *)
Lemma leaf_for_write_keeps_unmapped `{HostOk} d0 dims this A B h r h' t :
  Forall valid_width (d0 :: dims) →
  shaped d0 dims h this → NoDup (this :: nodes d0 dims h this) →
  leaf_for_write d0 dims this A h = Some (r, h', t) →
  descent d0 dims A ≠ descent d0 dims B →
  leaf d0 dims this B h = Some (nullptr, h, []) →
  leaf d0 dims this B h' = Some (nullptr, h', []).
Proof.
  revert d0 this h r h' t.
  induction dims as [|d1 ds IH]; intros d0 this h r h' t Hw Hs Hnd Hwr Hdesc HB; [done|].
  apply Forall_cons in Hw as [Hd0 Hw].
  pose proof Hs as Hs0. cbn [shaped] in Hs0.
  destruct (h !! this) as [[|ps|]|] eqn:Hthis; try done. destruct Hs0 as [Hlen _].
  pose proof (slot_index_range d0 d1 ds A Hd0) as HiA.
  pose proof (slot_index_range d0 d1 ds B Hd0) as HiB.
  destruct (lookup_lt_is_Some_2 ps (Z.to_nat (slot_index d0 d1 ds A))) as [qA HqA]; [lia|].
  destruct (lookup_lt_is_Some_2 ps (Z.to_nat (slot_index d0 d1 ds B))) as [qB HqB]; [lia|].
  rewrite (leaf_step _ _ _ _ _ _ _ _ Hthis HqB) in HB.
  rewrite (leaf_for_write_unfold _ _ _ _ _ _ _ _ Hthis HqA) in Hwr.
  assert (Hside : slot_index d0 d1 ds A ≠ slot_index d0 d1 ds B → qB ≠ nullptr →
            ∀ g, (∀ x, is_Some (h !! x) → x ≠ this → x ∉ below d1 ds h qA → g !! x = h !! x) →
            leaf d1 ds qB B g = Some (nullptr, g, [])).
  { intros Hne HnB g Hg. rewrite decide_False in HB by done.
    assert (HinB : qB ∈ ps) by (by eapply list_elem_of_lookup_2).
    eapply leaf_frame; [|exact HB]. intros x Hx. apply Hg.
    - eapply shaped_is_Some; [|exact Hx]. by eapply shaped_slot.
    - intros ->. by destruct (NoDup_below _ _ _ _ _ _ _ Hthis HinB HnB Hnd) as [_ ?].
    - intros HxA. apply NoDup_cons in Hnd as [_ Hnd].
      rewrite (nodes_level _ _ _ _ _ _ Hthis) in Hnd.
      eapply (NoDup_bind_disjoint (below d1 ds h) ps _ _ qA qB x Hnd HqA HqB); [lia|done|].
      by apply elem_of_below. }
  destruct (decide (qA = nullptr)) as [HnA|HnA].
  - (* the slot of [A] was empty *)
    subst qA. cbn zeta in Hwr.
    set (f := malloc_result h (sizeof_ShadowMap d1 ds)) in *.
    set (hm := grown h this ps (slot_index d0 d1 ds A) f d1 ds) in *.
    destruct (leaf_for_write d1 ds f A hm) as [[[r1 h1] t1]|] eqn:Hrec; [|done].
    simplify_eq.
    assert (Hf : h !! f = None) by apply malloc_fresh.
    assert (Hfv : f ≠ nullptr) by apply malloc_valid.
    assert (Hne : this ≠ f) by (intros ->; by rewrite Hthis in Hf).
    destruct (constructed_object_fresh d1 ds hm f) as [Hsf Hnf]; [apply grown_lookup_fresh|].
    assert (Hndf : NoDup (f :: nodes d1 ds hm f)) by (rewrite Hnf; apply NoDup_singleton).
    destruct (leaf_for_write_live d1 ds f A hm Hw Hsf Hndf)
      as (r2 & h2 & t2 & Hrec2 & _ & _ & _ & _ & Hframe & _).
    rewrite Hrec in Hrec2. simplify_eq.
    assert (Hout : ∀ x, is_Some (h !! x) → x ≠ this → h2 !! x = h !! x).
    { intros x Hx Hxt.
      assert (x ≠ f) by (intros ->; destruct Hx as [o Ho]; by rewrite Hf in Ho).
      rewrite Hframe.
      - by apply grown_lookup_other.
      - unfold hm. by rewrite grown_lookup_other.
      - rewrite Hnf. by intros ?%list_elem_of_singleton. }
    assert (Hthis' : h2 !! this = Some (Level (<[Z.to_nat (slot_index d0 d1 ds A) := f]> ps))).
    { rewrite Hframe.
      - by apply grown_lookup_this.
      - unfold hm. rewrite grown_lookup_this by done. eauto.
      - rewrite Hnf. by intros ?%list_elem_of_singleton. }
    destruct (decide (slot_index d0 d1 ds A = slot_index d0 d1 ds B)) as [Heq|Hneq].
    + assert (Hslot : <[Z.to_nat (slot_index d0 d1 ds A) := f]> ps
                        !! Z.to_nat (slot_index d0 d1 ds B) = Some f).
      { rewrite <- Heq. apply list_lookup_insert_eq. by eapply lookup_lt_Some. }
      rewrite (leaf_step _ _ _ _ _ _ _ _ Hthis' Hslot), decide_False by done.
      assert (Hrest : descent d1 ds A ≠ descent d1 ds B).
      { intros Hrest. apply Hdesc. cbn [descent]. by rewrite Heq, Hrest. }
      destruct ds as [|d2 ds']; [done|].
      assert (Hd1 : valid_width d1) by (by apply Forall_cons in Hw as [? _]).
      pose proof (slot_index_range d1 d2 ds' B Hd1) as Hi1.
      eapply (IH d1 f hm _ _ _ Hw Hsf Hndf Hrec Hrest).
      assert (Hfm : hm !! f = Some (Level (replicate (Z.to_nat (one_shl d1)) nullptr)))
        by apply grown_lookup_fresh.
      erewrite leaf_step; [|exact Hfm|apply lookup_replicate_2; lia].
      by rewrite decide_True.
    + assert (Hslot : <[Z.to_nat (slot_index d0 d1 ds A) := f]> ps
                        !! Z.to_nat (slot_index d0 d1 ds B) = Some qB).
      { rewrite list_lookup_insert_ne; [done|]. lia. }
      rewrite (leaf_step _ _ _ _ _ _ _ _ Hthis' Hslot).
      destruct (decide (qB = nullptr)) as [HnB|HnB]; [done|].
      apply Hside; [done..|]. intros x Hx Hxt _. by apply Hout.
  - (* the slot of [A] held a map *)
    assert (HinA : qA ∈ ps) by (by eapply list_elem_of_lookup_2).
    destruct (NoDup_below _ _ _ _ _ _ _ Hthis HinA HnA Hnd) as [HndA HthisA].
    pose proof (shaped_slot _ _ _ _ _ _ _ Hs Hthis HinA HnA) as HsA.
    destruct (leaf_for_write_live d1 ds qA A h Hw HsA HndA)
      as (r2 & h2 & t2 & Hrec2 & _ & _ & _ & _ & Hframe & _).
    rewrite Hwr in Hrec2. simplify_eq.
    assert (Hthis' : h2 !! this = Some (Level ps)) by (rewrite Hframe; eauto).
    rewrite (leaf_step _ _ _ _ _ _ _ _ Hthis' HqB).
    destruct (decide (slot_index d0 d1 ds A = slot_index d0 d1 ds B)) as [Heq|Hneq].
    + assert (HqAB : qB = qA) by (rewrite Heq in HqA; congruence). subst qB.
      rewrite decide_False in HB |- * by done.
      eapply (IH d1 qA h _ _ _ Hw HsA HndA Hwr); [|done].
      intros Hrest. apply Hdesc. cbn [descent]. by rewrite Heq, Hrest.
    + destruct (decide (qB = nullptr)) as [HnB|HnB]; [done|].
      apply Hside; [done..|]. intros x Hx Hxt HxA. apply Hframe; [done|].
      intros Hin. apply HxA. by apply elem_of_below.
Qed.

Lemma live_write_inv `{HostOk} d0 dims this addr h r h' t :
  Forall valid_width (d0 :: dims) → live d0 dims h this →
  leaf_for_write d0 dims this addr h = Some (r, h', t) →
  r ≠ nullptr ∧ live d0 dims h' this.
Proof.
  intros Hw Hlive Hwr.
  destruct (live_after_write d0 dims this addr h Hw Hlive) as (r0 & h0 & t0 & Hwr0 & Hr & Hl).
  rewrite Hwr in Hwr0. by simplify_eq.
Qed.

(** X3.  On a live map a write-triggering lookup always succeeds.  What it
    returns is not [nullptr] but the address of a last-level map of this
    map whose [Leaf] is constructed; the map is live afterwards; every
    block that existed still exists, and storage that does not belong to
    the map is exactly as it was. *)
Theorem leaf_for_write_total `{HostOk} d0 dims this addr h :
  Forall valid_width (d0 :: dims) → live d0 dims h this →
  ∃ r h' t, leaf_for_write d0 dims this addr h = Some (r, h', t) ∧
    r ≠ nullptr ∧
    h' !! r = Some Last ∧
    r ∈ this :: nodes d0 dims h' this ∧
    live d0 dims h' this ∧
    (∀ x, is_Some (h !! x) → is_Some (h' !! x)) ∧
    (∀ x, is_Some (h !! x) → x ∉ this :: nodes d0 dims h this → h' !! x = h !! x).
Proof.
  intros Hw Hlive. pose proof Hlive as (Hthis & Hs & Hnd).
  destruct (leaf_for_write_live d0 dims this addr h Hw Hs Hnd)
    as (r & h' & t & Hwr & Hs' & Hnd' & Hr & _ & Hframe & _).
  destruct (live_write_inv _ _ _ _ _ _ _ _ Hw Hlive Hwr) as [Hrn Hlive'].
  exists r, h', t. split_and!; try done.
  - eapply leaf_finds_record; [exact Hs'| |done]. by eapply leaf_after_leaf_for_write.
  - by eapply leaf_for_write_is_Some.
Qed.

Lemma leaf_for_write_total_witness :
  Forall valid_width [1; 1] ∧ live 1 [1] no_leaf 10 ∧
  ∃ r h' t, @leaf_for_write (bump_host 64) 1 [1] 10 3 no_leaf = Some (r, h', t) ∧
    r ≠ nullptr ∧
    h' !! r = Some Last ∧
    r ∈ 10 :: nodes 1 [1] h' 10 ∧
    live 1 [1] h' 10 ∧
    (∀ x, is_Some (no_leaf !! x) → is_Some (h' !! x)) ∧
    (∀ x, is_Some (no_leaf !! x) → x ∉ 10 :: nodes 1 [1] no_leaf 10 →
          h' !! x = no_leaf !! x).
Proof.
  assert (Hw : Forall valid_width [1; 1]) by (repeat constructor; unfold valid_width; lia).
  split; [exact Hw|]. split; [exact live_example|].
  exact (@leaf_for_write_total (bump_host 64) _ 1 [1] 10 3 no_leaf Hw live_example).
Defined.

(** X4.  Records never move and are never dropped: an address for which
    [leaf] finds a record keeps that very record through any later
    write-triggering lookup, and through any sequence of them, in every
    store. *)
Theorem records_stay_put `{HostOk} d0 dims this B rB h :
  leaf d0 dims this B h = Some (rB, h, []) → rB ≠ nullptr →
  (∀ A r h' t, leaf_for_write d0 dims this A h = Some (r, h', t) →
     leaf d0 dims this B h' = Some (rB, h', [])) ∧
  (∀ addrs h' t, writes d0 dims this addrs h = Some (tt, h', t) →
     leaf d0 dims this B h' = Some (rB, h', [])).
Proof.
  intros HB Hr. split.
  - intros A r h' t Hwr. eapply leaf_kept; [|done..]. by eapply leaf_for_write_slots_kept.
  - intros addrs h' t Hwr. eapply leaf_kept; [|done..].
    by destruct (writes_constructed _ _ _ _ _ _ _ Hwr) as (_ & _ & _ & ?).
Qed.

Lemma records_stay_put_witness :
  leaf 1 [1] 10 3 one_leaf = Some (11, one_leaf, []) ∧ 11 ≠ nullptr ∧
  (∀ A r h' t, @leaf_for_write (bump_host 64) 1 [1] 10 A one_leaf = Some (r, h', t) →
     leaf 1 [1] 10 3 h' = Some (11, h', [])) ∧
  (∀ addrs h' t, @writes (bump_host 64) 1 [1] 10 addrs one_leaf = Some (tt, h', t) →
     leaf 1 [1] 10 3 h' = Some (11, h', [])).
Proof.
  assert (Hl : leaf 1 [1] 10 3 one_leaf = Some (11, one_leaf, []))
    by (vm_compute; reflexivity).
  assert (Hr : 11 ≠ nullptr) by (unfold nullptr; lia).
  split; [exact Hl|]. split; [exact Hr|].
  exact (@records_stay_put (bump_host 64) _ 1 [1] 10 3 11 one_leaf Hl Hr).
Defined.

Lemma other_leaf_unchanged `{HostOk} d0 dims this A B h r h' t rB :
  Forall valid_width (d0 :: dims) → live d0 dims h this →
  leaf_for_write d0 dims this A h = Some (r, h', t) →
  configured_prefix d0 dims A ≠ configured_prefix d0 dims B →
  leaf d0 dims this B h = Some (rB, h, []) →
  leaf d0 dims this B h' = Some (rB, h', []).
Proof.
  intros Hw (_ & Hs & Hnd) Hwr Hpre HB.
  destruct (decide (rB = nullptr)) as [->|Hr].
  - eapply leaf_for_write_keeps_unmapped; eauto.
    intros Hdesc. by apply Hpre, descent_configured_prefix.
  - eapply leaf_kept; [|done..]. by eapply leaf_for_write_slots_kept.
Qed.

(** X5.  A write-triggering lookup of [A] on a live map changes the answer
    of the read-only lookup for the addresses of [A]'s leaf only: for every
    address whose configured prefix differs from that of [A], [leaf]
    returns after the call what it returned before, a record or
    [nullptr]. *)
Theorem leaf_for_write_maps_one_leaf `{HostOk} d0 dims this A h :
  Forall valid_width (d0 :: dims) → live d0 dims h this →
  ∃ r h' t, leaf_for_write d0 dims this A h = Some (r, h', t) ∧
    ∀ B, configured_prefix d0 dims A ≠ configured_prefix d0 dims B →
      ∃ rB, leaf d0 dims this B h = Some (rB, h, []) ∧
            leaf d0 dims this B h' = Some (rB, h', []).
Proof.
  intros Hw Hlive.
  destruct (live_after_write d0 dims this A h Hw Hlive) as (r & h' & t & Hwr & _ & _).
  exists r, h', t. split; [done|]. intros B Hpre.
  destruct Hlive as (Hthis & Hs & Hnd).
  destruct (leaf_shaped d0 dims this B h Hw Hs) as (rB & HB & _).
  exists rB. split; [done|]. eapply other_leaf_unchanged; eauto. by split_and!.
Qed.

Lemma leaf_for_write_maps_one_leaf_witness :
  Forall valid_width [1; 1] ∧ live 1 [1] no_leaf 10 ∧
  ∃ r h' t, @leaf_for_write (bump_host 64) 1 [1] 10 3 no_leaf = Some (r, h', t) ∧
    ∀ B, configured_prefix 1 [1] 3 ≠ configured_prefix 1 [1] B →
      ∃ rB, leaf 1 [1] 10 B no_leaf = Some (rB, no_leaf, []) ∧
            leaf 1 [1] 10 B h' = Some (rB, h', []).
Proof.
  assert (Hw : Forall valid_width [1; 1]) by (repeat constructor; unfold valid_width; lia).
  split; [exact Hw|]. split; [exact live_example|].
  exact (@leaf_for_write_maps_one_leaf (bump_host 64) _ 1 [1] 10 3 no_leaf Hw live_example).
Defined.

Lemma write_maps_exactly `{HostOk} d0 dims this A B h r h' t rB :
  Forall valid_width (d0 :: dims) → live d0 dims h this →
  leaf_for_write d0 dims this A h = Some (r, h', t) →
  leaf d0 dims this B h = Some (rB, h, []) →
  ∃ rB', leaf d0 dims this B h' = Some (rB', h', []) ∧
    (rB' ≠ nullptr ↔
     rB ≠ nullptr ∨ configured_prefix d0 dims A = configured_prefix d0 dims B).
Proof.
  intros Hw Hlive Hwr HB.
  destruct (decide (configured_prefix d0 dims A = configured_prefix d0 dims B)) as [Heq|Hne].
  - exists r. destruct (live_write_inv _ _ _ _ _ _ _ _ Hw Hlive Hwr) as [Hr _]. split; [|tauto].
    rewrite leaf_follow, <- (configured_prefix_descent d0 dims A B Hw Heq), <- leaf_follow.
    by eapply leaf_after_leaf_for_write.
  - exists rB. split; [by eapply other_leaf_unchanged|tauto].
Qed.

Lemma writes_map_exactly `{HostOk} d0 dims this addrs B h h' t rB :
  Forall valid_width (d0 :: dims) → live d0 dims h this →
  writes d0 dims this addrs h = Some (tt, h', t) →
  leaf d0 dims this B h = Some (rB, h, []) →
  ∃ rB', leaf d0 dims this B h' = Some (rB', h', []) ∧
    (rB' ≠ nullptr ↔
     rB ≠ nullptr ∨
     ∃ A, A ∈ addrs ∧ configured_prefix d0 dims A = configured_prefix d0 dims B).
Proof.
  intros Hw. revert h t rB.
  induction addrs as [|A rest IH]; intros h t rB Hlive Hwr HB; cbn [writes] in Hwr.
  - unfold ret in Hwr. simplify_eq. exists rB. split; [done|].
    split; [tauto|]. intros [?|(A & HA & _)]; [done|]. by apply elem_of_nil in HA.
  - apply bind_Some in Hwr as (r & h1 & t1 & t2 & Hwr1 & Hrest & _).
    destruct (write_maps_exactly _ _ _ _ _ _ _ _ _ _ Hw Hlive Hwr1 HB) as (r1 & HB1 & Hiff1).
    destruct (live_write_inv _ _ _ _ _ _ _ _ Hw Hlive Hwr1) as [_ Hlive1].
    destruct (IH h1 t2 r1 Hlive1 Hrest HB1) as (r2 & HB2 & Hiff2).
    exists r2. split; [done|]. rewrite Hiff2, Hiff1. split.
    + intros [[?|Heq]|(A' & HA' & Heq)]; [by left|right..].
      * exists A. split; [by left|done].
      * exists A'. split; [by right|done].
    + intros [?|(A' & [->|HA']%elem_of_cons & Heq)]; [by left; left|by left; right|].
      right. by exists A'.
Qed.

(** X6.  The contents of a map with at least two levels: after the
    constructor and any sequence of write-triggering lookups, [leaf] finds
    a record only for addresses that share the configured prefix of an
    address that was looked up for writing; every other address is
    unmapped.  Where the widths fit the type [Address], so that every shift
    of the header is defined, it finds a record for all of these
    addresses. *)
Theorem mapped_iff_written `{HostOk} d0 d1 ds this addrs h0 :
  this ≠ nullptr → Forall valid_width (d0 :: d1 :: ds) → is_Some (h0 !! this) →
  ∃ h t, (ShadowMap_ctor d0 (d1 :: ds) this ;; writes d0 (d1 :: ds) this addrs) h0
           = Some (tt, h, t) ∧
    ∀ B, ∃ rB, leaf d0 (d1 :: ds) this B h = Some (rB, h, []) ∧
      (rB ≠ nullptr →
       ∃ A, A ∈ addrs ∧
            configured_prefix d0 (d1 :: ds) A = configured_prefix d0 (d1 :: ds) B) ∧
      (fits_Address d0 (d1 :: ds) →
       (∃ A, A ∈ addrs ∧
             configured_prefix d0 (d1 :: ds) A = configured_prefix d0 (d1 :: ds) B) →
       rB ≠ nullptr).
Proof.
  intros Hthis Hw Hsome.
  destruct (ctor_live d0 (d1 :: ds) this h0 Hsome) as (h1 & Hctor & Hobj & Hs & Hn).
  assert (Hlive : live d0 (d1 :: ds) h1 this).
  { split_and!; [done..|]. rewrite Hn. apply NoDup_singleton. }
  destruct (writes_live d0 (d1 :: ds) this addrs h1 Hw Hs) as (h2 & t & Hwr & _).
  { rewrite Hn. apply NoDup_singleton. }
  exists h2, (constructAt_trace (d1 :: ds) this ++ t). split; [by eapply bind_step_ev|].
  intros B.
  assert (HB : leaf d0 (d1 :: ds) this B h1 = Some (nullptr, h1, [])).
  { pose proof Hw as [Hd0 _]%Forall_cons.
    pose proof (slot_index_range d0 d1 ds B Hd0) as Hi.
    erewrite leaf_step; [|exact Hobj|apply lookup_replicate_2; lia].
    by rewrite decide_True. }
  destruct (writes_map_exactly _ _ _ _ B _ _ _ _ Hw Hlive Hwr HB) as (rB & HB' & Hiff).
  exists rB. split; [done|]. split.
  - intros Hr. by apply Hiff in Hr as [?|?].
  - intros _ HA. apply Hiff. by right.
Qed.

Lemma mapped_iff_written_witness :
  10 ≠ nullptr ∧ Forall valid_width [1; 1] ∧ is_Some (raw_block !! 10) ∧
  @fits_Address (bump_host 64) 1 [1] ∧
  ∃ h t, (ShadowMap_ctor 1 [1] 10 ;; @writes (bump_host 64) 1 [1] 10 [3; 0]) raw_block
           = Some (tt, h, t) ∧
    ∀ B, ∃ rB, leaf 1 [1] 10 B h = Some (rB, h, []) ∧
      (rB ≠ nullptr →
       ∃ A, A ∈ [3; 0] ∧ configured_prefix 1 [1] A = configured_prefix 1 [1] B) ∧
      (@fits_Address (bump_host 64) 1 [1] →
       (∃ A, A ∈ [3; 0] ∧ configured_prefix 1 [1] A = configured_prefix 1 [1] B) →
       rB ≠ nullptr).
Proof.
  assert (Hn : 10 ≠ nullptr) by (unfold nullptr; lia).
  assert (Hw : Forall valid_width [1; 1]) by (repeat constructor; unfold valid_width; lia).
  assert (Hs : is_Some (raw_block !! 10)) by (vm_compute; eauto).
  assert (Hf : @fits_Address (bump_host 64) 1 [1])
    by (vm_compute; split; [discriminate|reflexivity]).
  split_and!; [done..|].
  exact (@mapped_iff_written (bump_host 64) _ 1 1 [] 10 [3; 0] raw_block Hn Hw Hs).
Defined.

(** ** The cost of a write-triggering lookup *)

Lemma requested_malloc size p t : requested (EvMalloc size p :: t) = size :: requested t.
Proof. reflexivity. Qed.

Lemma requested_app t1 t2 : requested (t1 ++ t2) = requested t1 ++ requested t2.
Proof. apply omap_app. Qed.

Lemma requested_constructAt_trace dims map : requested (constructAt_trace dims map) = [].
Proof. by destruct dims. Qed.

Lemma length_requested t : length (requested t) = length (allocated t).
Proof.
  induction t as [|e t IH]; [done|].
  destruct e; try exact IH.
  rewrite requested_malloc, allocated_malloc. cbn. by rewrite IH.
Qed.

(** Below an empty slot nothing exists, so every level below is created. *)
Lemma leaf_for_write_sizes `{HostOk} d0 dims this addr h r h' t :
  leaf_for_write d0 dims this addr h = Some (r, h', t) →
  requested t `suffix_of` lower_sizes d0 dims ∧
  (h !! this = Some (constructed_object d0 dims) → requested t = lower_sizes d0 dims).
Proof.
  revert d0 dims this h r h' t.
  apply (leaf_for_write_ind addr (λ d0 dims this h _ _ t,
           requested t `suffix_of` lower_sizes d0 dims ∧
           (h !! this = Some (constructed_object d0 dims) → requested t = lower_sizes d0 dims))).
  - done.
  - intros d0 d1 ds this h ps q r h' t Hthis Hq Hnull _ [IH _]. split.
    + cbn [lower_sizes]. by apply suffix_cons_r.
    + rewrite Hthis. cbn [constructed_object]. intros [= ->].
      apply lookup_replicate in Hq as [? _]. done.
  - intros d0 d1 ds this h ps r h' t Hthis Hi size fresh h1 _ [_ IH].
    rewrite requested_malloc, requested_app, requested_constructAt_trace. cbn [app lower_sizes].
    rewrite IH by apply grown_lookup_fresh. done.
Qed.

(** Whatever a write-triggering lookup does, it ends with the construction
    of the record it returns, and constructs nothing else. *)
Lemma leaf_for_write_constructs_result `{HostOk} d0 dims this addr h r h' t :
  leaf_for_write d0 dims this addr h = Some (r, h', t) →
  t ≠ [] → constructed t = [r] ∧ last (allocated t) = Some r.
Proof.
  revert d0 dims this h r h' t.
  apply (leaf_for_write_ind addr (λ _ _ _ _ r _ t,
           t ≠ [] → constructed t = [r] ∧ last (allocated t) = Some r)).
  - done.
  - done.
  - intros d0 d1 ds this h ps r h' t Hthis Hi size fresh h1 Hrec IH _.
    change (EvMalloc size fresh :: constructAt_trace ds fresh ++ t)
      with ([EvMalloc size fresh] ++ constructAt_trace ds fresh ++ t).
    rewrite !constructed_app, !allocated_app, constructed_constructAt_trace,
      allocated_constructAt_trace.
    destruct ds as [|d2 ds'].
    + cbn in Hrec. unfold ret in Hrec. by simplify_eq.
    + assert (Ht : t ≠ []).
      { destruct (leaf_for_write_inv _ _ _ _ _ _ _ _ _ Hrec) as (ps' & q & Hps' & Hq).
        rewrite (leaf_for_write_unfold _ _ _ _ _ _ _ _ Hps' Hq) in Hrec.
        unfold h1 in Hps'. rewrite grown_lookup_fresh in Hps'. cbn in Hps'. simplify_eq.
        apply lookup_replicate in Hq as [-> _]. rewrite decide_True in Hrec by done.
        cbn zeta in Hrec. destruct (leaf_for_write d2 ds' _ addr _) as [[[r1 h2] t1]|]; [|done].
        by simplify_eq. }
      destruct (IH Ht) as [Hc Hl]. split; [done|].
      change (allocated [EvMalloc size fresh]) with [fresh]. cbn [app].
      by rewrite last_cons, Hl.
Qed.

(** X7.  The price of a write-triggering lookup.  It asks [shadow_malloc]
    for the sizes of consecutive levels, from some level down to the
    leaf, in this order and nothing else: at most one block per level
    below the top one.  If it does anything at all, it constructs exactly
    one [Leaf], the one it returns, in the block it allocated last, which
    did not exist before. *)
Theorem leaf_for_write_cost `{HostOk} d0 dims this addr h r h' t :
  leaf_for_write d0 dims this addr h = Some (r, h', t) →
  requested t `suffix_of` lower_sizes d0 dims ∧
  (length (allocated t) ≤ length dims)%nat ∧
  (t ≠ [] → constructed t = [r] ∧ last (allocated t) = Some r ∧ h !! r = None) ∧
  freed t = [].
Proof.
  intros Hwr. destruct (leaf_for_write_sizes _ _ _ _ _ _ _ _ Hwr) as [Hsuf _].
  split_and!; [done| | |by eapply leaf_for_write_no_release].
  - rewrite <- length_requested. apply suffix_length in Hsuf.
    assert (Hlen : length (lower_sizes d0 dims) = length dims).
    { clear. revert d0. induction dims as [|d1 ds IH]; intros d0; [done|].
      cbn. by rewrite IH. }
    lia.
  - intros Ht. destruct (leaf_for_write_constructs_result _ _ _ _ _ _ _ _ Hwr Ht) as [Hc Hl].
    split_and!; [done..|].
    eapply leaf_for_write_constructed; [exact Hwr|]. rewrite Hc. by left.
Qed.

Lemma leaf_for_write_cost_witness :
  @leaf_for_write (bump_host 64) 1 [1] 10 3 no_leaf =
    Some (11, one_leaf, [EvMalloc 1 11; EvConstruct 11]) ∧
  requested [EvMalloc 1 11; EvConstruct 11] `suffix_of` @lower_sizes (bump_host 64) 1 [1] ∧
  (length (allocated [EvMalloc 1 11; EvConstruct 11]) ≤ length [1])%nat ∧
  ([EvMalloc 1 11; EvConstruct 11] ≠ [] →
     constructed [EvMalloc 1 11; EvConstruct 11] = [11] ∧
     last (allocated [EvMalloc 1 11; EvConstruct 11]) = Some 11 ∧
     no_leaf !! 11 = None) ∧
  freed [EvMalloc 1 11; EvConstruct 11] = [].
Proof.
  assert (Hw : @leaf_for_write (bump_host 64) 1 [1] 10 3 no_leaf =
    Some (11, one_leaf, [EvMalloc 1 11; EvConstruct 11]))
    by (vm_compute; reflexivity).
  split; [exact Hw|].
  exact (@leaf_for_write_cost (bump_host 64) _ 1 [1] 10 3 no_leaf 11 one_leaf _ Hw).
Defined.

(** ** Looking up twice *)

Lemma leaf_for_write_again `{HostOk} d0 dims this addr h r h' t :
  leaf_for_write d0 dims this addr h = Some (r, h', t) →
  leaf_for_write d0 dims this addr h' = Some (r, h', []).
Proof.
  revert d0 dims this h r h' t.
  apply (leaf_for_write_ind addr
           (λ d0 dims this _ r h' _, leaf_for_write d0 dims this addr h' = Some (r, h', []))).
  - done.
  - intros d0 d1 ds this h ps q r h' t Hthis Hq Hnull Hrec IH.
    destruct (leaf_for_write_slots_kept _ _ _ _ _ _ _ _ Hrec _ _ _ _ Hthis Hq Hnull)
      as (ps' & Hthis' & Hq').
    by rewrite (leaf_for_write_present _ _ _ _ _ _ _ _ Hthis' Hq' Hnull).
  - intros d0 d1 ds this h ps r h' t Hthis Hi size fresh h1 Hrec IH.
    assert (Hf : h !! fresh = None) by apply malloc_fresh.
    assert (Hv : fresh ≠ nullptr) by apply malloc_valid.
    pose proof (grown_lookup_this h this ps (slot_index d0 d1 ds addr) fresh d1 ds Hthis Hf) as Hg.
    assert (Hslot : <[Z.to_nat (slot_index d0 d1 ds addr) := fresh]> ps
                      !! Z.to_nat (slot_index d0 d1 ds addr) = Some fresh).
    { apply list_lookup_insert_eq. by eapply lookup_lt_Some. }
    destruct (leaf_for_write_slots_kept _ _ _ _ _ _ _ _ Hrec _ _ _ _ Hg Hslot Hv)
      as (ps' & Hthis' & Hq').
    by rewrite (leaf_for_write_present _ _ _ _ _ _ _ _ Hthis' Hq' Hv).
Qed.

(** X8.  [leaf_for_write] is idempotent: repeated on the same address, or
    on any address that selects the same slots, right after a first call,
    it returns the same record, calls neither the allocator nor [Leaf],
    and leaves the store as the first call left it. *)
Theorem leaf_for_write_idempotent `{HostOk} d0 dims this A h r h' t :
  leaf_for_write d0 dims this A h = Some (r, h', t) →
  ∀ B, descent d0 dims B = descent d0 dims A →
    leaf_for_write d0 dims this B h' = Some (r, h', []).
Proof.
  intros Hwr B Hdesc. rewrite (leaf_for_write_descent d0 dims this B A h' Hdesc).
  by eapply leaf_for_write_again.
Qed.

Lemma leaf_for_write_idempotent_witness :
  @leaf_for_write (bump_host 64) 1 [1] 10 3 no_leaf =
    Some (11, one_leaf, [EvMalloc 1 11; EvConstruct 11]) ∧
  ∀ B, descent 1 [1] B = descent 1 [1] 3 →
    @leaf_for_write (bump_host 64) 1 [1] 10 B one_leaf = Some (11, one_leaf, []).
Proof.
  assert (Hw : @leaf_for_write (bump_host 64) 1 [1] 10 3 no_leaf =
    Some (11, one_leaf, [EvMalloc 1 11; EvConstruct 11]))
    by (vm_compute; reflexivity).
  split; [exact Hw|].
  exact (@leaf_for_write_idempotent (bump_host 64) _ 1 [1] 10 3 no_leaf 11 one_leaf _ Hw).
Defined.

(** ** Construction and finalisation over a lifetime *)

(** X9.  Every [Leaf] is finalised exactly once.  Over a whole lifetime,
    from the constructor through any sequence of write-triggering lookups
    to the destructor, [Leaf::destruct] runs on exactly the records on
    which [Leaf::construct] ran, once on each, and only after the last
    construction. *)
Theorem leaf_lifecycle_balanced `{HostOk} d0 dims this addrs h0 :
  Forall valid_width (d0 :: dims) → is_Some (h0 !! this) →
  ∃ h t1 t2,
    (ShadowMap_ctor d0 dims this ;; writes d0 dims this addrs ;;
     ShadowMap_dtor d0 dims this) h0 = Some (tt, h, t1 ++ t2) ∧
    destructed t1 = [] ∧ constructed t2 = [] ∧
    NoDup (constructed t1) ∧
    destructed t2 ≡ₚ constructed t1.
Proof.
  intros Hw Hthis.
  destruct (ctor_live d0 dims this h0 Hthis) as (h1 & Hctor & Hobj & Hs1 & Hn1).
  destruct (writes_live d0 dims this addrs h1 Hw Hs1)
    as (h2 & tw & Hwr & Hs2 & Hnd2 & Hall & _ & _).
  { rewrite Hn1. apply NoDup_singleton. }
  rewrite Hn1 in Hall. cbn [app] in Hall.
  destruct (destructAt_teardown d0 dims this h2 Hs2 Hnd2) as (h3 & Hrun & _).
  destruct (writes_kinds _ _ _ _ _ _ _ Hwr) as (_ & _ & HC & HA & HD).
  destruct (writes_constructed _ _ _ _ _ _ _ Hwr) as (Hndc & Hfresh & _ & _).
  exists h3, (constructAt_trace dims this ++ tw), (teardown_trace d0 dims h2 this).
  assert (Hnodup : NoDup (constructed (constructAt_trace dims this ++ tw))).
  { rewrite constructed_app, constructed_constructAt_trace.
    destruct dims; [|done]. apply NoDup_cons. split; [|done].
    intros Hin. apply Hfresh in Hin. by rewrite Hobj in Hin. }
  split_and!.
  - rewrite <- app_assoc. eapply bind_step_ev; [exact Hctor|].
    eapply bind_step_ev; [exact Hwr|exact Hrun].
  - rewrite destructed_app, HD. by destruct dims.
  - apply constructed_teardown_trace.
  - done.
  - rewrite destructed_teardown_trace. apply NoDup_Permutation; [by apply NoDup_records|done|].
    intros x. rewrite (elem_of_records d0 dims h2 this x Hs2).
    rewrite constructed_app, constructed_constructAt_trace, elem_of_app. split.
    + intros [[->|Hx]%elem_of_cons HL].
      * destruct dims as [|d1 ds]; [left; by left|].
        cbn [shaped] in Hs2. by destruct (h2 !! this) as [[]|].
      * right. rewrite Hall in Hx. destruct (HA x Hx) as [?|[ps Hps]]; [done|].
        by rewrite Hps in HL.
    + intros [Hx|Hx].
      * destruct dims as [|d1 ds]; [|by apply elem_of_nil in Hx].
        apply list_elem_of_singleton in Hx as ->. split; [by left|]. exact Hs2.
      * destruct (HC x Hx) as [Hxa HL]. split; [|done]. right. by rewrite Hall.
Qed.

Lemma leaf_lifecycle_balanced_witness :
  Forall valid_width [1; 1] ∧ is_Some (raw_block !! 10) ∧
  ∃ h t1 t2,
    (ShadowMap_ctor 1 [1] 10 ;; @writes (bump_host 64) 1 [1] 10 [3; 0; 2] ;;
     ShadowMap_dtor 1 [1] 10) raw_block = Some (tt, h, t1 ++ t2) ∧
    destructed t1 = [] ∧ constructed t2 = [] ∧
    NoDup (constructed t1) ∧
    destructed t2 ≡ₚ constructed t1.
Proof.
  assert (Hw : Forall valid_width [1; 1]) by (repeat constructor; unfold valid_width; lia).
  assert (Hs : is_Some (raw_block !! 10)) by (vm_compute; eauto).
  split_and!; [done..|].
  exact (@leaf_lifecycle_balanced (bump_host 64) _ 1 [1] 10 [3; 0; 2] raw_block Hw Hs).
Defined.

(** ** After teardown *)

Lemma only_released_refl h : only_released h h.
Proof. intros x. by left. Qed.

Lemma only_released_trans h1 h2 h3 :
  only_released h1 h2 → only_released h2 h3 → only_released h1 h3.
Proof.
  intros H12 H23 x. destruct (H12 x) as [E|[E|[E1 E2]]], (H23 x) as [F|[F|[F1 F2]]].
  - left. congruence.
  - by right; left.
  - right; right. split; congruence.
  - right; left. congruence.
  - by right; left.
  - congruence.
  - right; right. split; congruence.
  - by right; left.
  - congruence.
Qed.

Lemma for_loop_only_released body :
  (∀ i g g' t, body i g = Some (tt, g', t) → only_released g g') →
  ∀ n i g g' t, for_loop n i body g = Some (tt, g', t) → only_released g g'.
Proof.
  intros Hbody. induction n as [|n IH]; intros i g g' t; cbn [for_loop].
  - unfold ret. intros ?; simplify_eq. apply only_released_refl.
  - intros ([] & g1 & t1 & t2 & Hb & Hrest & _)%bind_Some.
    eapply only_released_trans; [by eapply Hbody|by eapply IH].
Qed.

(** [destructAt] stores nothing into a map: a block is afterwards what it
    was, or released, or a finalised [Leaf]. *)
Lemma destructAt_only_released d0 dims map h h' t :
  destructAt d0 dims map h = Some (tt, h', t) → only_released h h'.
Proof.
  revert d0 map h h' t. induction dims as [|d1 ds IH]; intros d0 map h h' t.
  - cbn [destructAt]. intros ([] & g & t1 & t2 & He & Hd & _)%bind_Some.
    unfold emit in He. simplify_eq. unfold Leaf_destruct in Hd.
    destruct (g !! map) as [[| |]|] eqn:Hmap; try done. simplify_eq.
    intros x. destruct (decide (x = map)) as [->|Hne].
    + right; right. by rewrite lookup_insert_eq.
    + left. by rewrite lookup_insert_ne.
  - rewrite destructAt_level. intros ([] & g & t1 & t2 & He & Hl & _)%bind_Some.
    unfold emit in He. simplify_eq.
    eapply for_loop_only_released; [|exact Hl].
    intros i g1 g2 t3. unfold slot_teardown.
    intros (p0 & g3 & t4 & t5 & Hload & Hk & _)%bind_Some.
    apply load_pointer_Some in Hload as (-> & _).
    case_decide; [unfold ret in Hk; simplify_eq; apply only_released_refl|].
    apply bind_Some in Hk as (p1 & g4 & t6 & t7 & Hload & Hk & _).
    apply load_pointer_Some in Hload as (-> & _).
    apply bind_Some in Hk as ([] & g5 & t8 & t9 & Hlower & Hk & _).
    apply bind_Some in Hk as (p2 & g6 & t10 & t11 & Hload & Hfree & _).
    apply load_pointer_Some in Hload as (-> & _).
    eapply only_released_trans; [by eapply IH|].
    unfold shadow_free in Hfree. destruct (g5 !! p2) eqn:Hp2; [|done]. simplify_eq.
    intros x. destruct (decide (x = p2)) as [->|Hne].
    + right; left. apply lookup_delete_eq.
    + left. by rewrite lookup_delete_ne.
Qed.

Lemma leaf_in_tree d0 dims this addr h r :
  leaf d0 dims this addr h = Some (r, h, []) → r ≠ nullptr →
  r ∈ this :: nodes d0 dims h this.
Proof.
  revert d0 this. induction dims as [|d1 ds IH]; intros d0 this Hleaf Hr.
  - cbn in Hleaf. unfold ret in Hleaf. simplify_eq. by left.
  - cbn [leaf] in Hleaf. apply bind_Some in Hleaf as (q & h1 & t1 & t2 & Hload & Hk & Ht).
    apply load_pointer_Some in Hload as (-> & -> & _ & ps & Hps & Hq).
    simpl in Ht. subst t2.
    case_decide as Hnull; [unfold ret in Hk; by simplify_eq|].
    right. apply (elem_of_nodes_level _ _ _ _ _ _ _ Hps). exists q.
    split; [by eapply list_elem_of_lookup_2|]. apply elem_of_below. split; [done|].
    by apply IH.
Qed.

(** On a store in which the block [q] is gone, [destructAt] on [q] either
    fails or makes no change. *)
Lemma destructAt_released d0 dims q g :
  g !! q = None →
  destructAt d0 dims q g = None ∨ ∃ t, destructAt d0 dims q g = Some (tt, g, t).
Proof.
  intros Hq. destruct dims as [|d1 ds].
  - left. cbn [destructAt]. unfold bind, emit, Leaf_destruct. by rewrite Hq.
  - rewrite destructAt_level. destruct (Z.to_nat (one_shl d0)) as [|n].
    + right. by eexists.
    + left. cbn [for_loop]. unfold bind at 1. unfold emit.
      unfold bind at 1. unfold slot_teardown at 1. unfold bind at 1.
      unfold load_pointer at 1. by rewrite Hq.
Qed.

(** A second run of the loop of [destructAt] over slots whose maps are gone
    fails at the first slot that is not empty. *)
Lemma for_loop_second_teardown d1 ds this ps g :
  g !! this = Some (Level ps) →
  (∀ q, q ∈ ps → q ≠ nullptr → g !! q = None) →
  ∀ l2 l1, ps = l1 ++ l2 → (∃ q, q ∈ l2 ∧ q ≠ nullptr) →
    for_loop (length l2) (Z.of_nat (length l1))
             (slot_teardown (destructAt d1 ds) this) g = None.
Proof.
  intros Hthis Hgone. induction l2 as [|q l2 IH]; intros l1 Hps (q' & Hq' & Hn').
  - by apply elem_of_nil in Hq'.
  - assert (Hqi : ps !! Z.to_nat (Z.of_nat (length l1)) = Some q)
      by (rewrite Nat2Z.id, Hps; by apply list_lookup_middle).
    assert (Hlen' : Z.of_nat (length (l1 ++ [q])) = Z.of_nat (length l1) + 1)
      by (rewrite length_app; cbn; lia).
    cbn [for_loop length]. rewrite <- Hlen'.
    destruct (decide (q = nullptr)) as [->|Hnull].
    + erewrite bind_step; [|eapply slot_teardown_empty; [done..|lia]].
      apply IH; [by rewrite <- app_assoc|].
      apply elem_of_cons in Hq' as [->|Hq']; [done|]. eauto.
    + assert (Hq : g !! q = None).
      { apply Hgone; [|done]. rewrite Hps. apply elem_of_app. right. by left. }
      assert (Hbody : slot_teardown (destructAt d1 ds) this (Z.of_nat (length l1)) g = None).
      { unfold slot_teardown.
        rewrite (bind_step _ _ _ q g) by (eapply load_pointer_at; [done|lia|done]).
        rewrite decide_False by done.
        rewrite (bind_step _ _ _ q g) by (eapply load_pointer_at; [done|lia|done]).
        destruct (destructAt_released d1 ds q g Hq) as [Hd|[t Hd]].
        - unfold bind. by rewrite Hd.
        - unfold bind at 1. rewrite Hd.
          rewrite (bind_step _ _ _ q g) by (eapply load_pointer_at; [done|lia|done]).
          unfold shadow_free. by rewrite Hq. }
      unfold bind. by rewrite Hbody.
Qed.

(** X10.  The destructor of a map with lower levels releases the maps but
    does not clear the slots that pointed to them: the array of the top
    map is afterwards what it was.  So for an address that was mapped, the
    record is gone, and [leaf] now returns the address of the released
    record (two levels) or reads a released map on its way (more levels);
    and if the map held anything, running [destructAt] on it again fails on
    a released block. *)
Theorem slots_dangle_after_teardown d0 d1 ds this h :
  live d0 (d1 :: ds) h this →
  ∃ h' t, ShadowMap_dtor d0 (d1 :: ds) this h = Some (tt, h', t) ∧
    h' !! this = h !! this ∧
    (∀ A r, leaf d0 (d1 :: ds) this A h = Some (r, h, []) → r ≠ nullptr →
       h' !! r = None ∧
       leaf d0 (d1 :: ds) this A h' =
         match ds with [] => Some (r, h', []) | _ :: _ => None end) ∧
    (nodes d0 (d1 :: ds) h this ≠ [] → ShadowMap_dtor d0 (d1 :: ds) this h' = None).
Proof.
  intros (Hthis & Hs & Hnd).
  destruct (destructAt_teardown d0 (d1 :: ds) this h Hs Hnd)
    as (h' & Hrun & Hgone & [o Ho] & _).
  pose proof Hs as Hs0. cbn [shaped] in Hs0.
  destruct (h !! this) as [[|ps|]|] eqn:Hps; try done. destruct Hs0 as [Hlen _].
  assert (Hps' : h' !! this = Some (Level ps)).
  { destruct (destructAt_only_released _ _ _ _ _ _ Hrun this) as [E|[E|[E _]]]; congruence. }
  clear o Ho.
  assert (Hslots : ∀ q, q ∈ ps → q ≠ nullptr → h' !! q = None).
  { intros q Hq Hnull. apply Hgone. apply (elem_of_nodes_level _ _ _ _ _ _ _ Hps).
    exists q. split; [done|]. apply elem_of_below. split; [done|by left]. }
  exists h', (teardown_trace d0 (d1 :: ds) h this). split_and!; [done..| |].
  - intros A r Hleaf Hr.
    assert (Hrn : r ∈ nodes d0 (d1 :: ds) h this).
    { pose proof (leaf_in_tree _ _ _ _ _ _ Hleaf Hr) as Hin.
      apply elem_of_cons in Hin as [->|?]; [|done].
      pose proof (leaf_finds_record _ _ _ _ _ _ Hs Hleaf Hr). congruence. }
    split; [by apply Hgone|].
    cbn [leaf] in Hleaf. apply bind_Some in Hleaf as (q & h1 & t1 & t2 & Hload & Hk & Ht).
    apply load_pointer_Some in Hload as (-> & -> & _ & ps0 & Hps0 & Hq).
    assert (ps0 = ps) as -> by congruence. clear Hps0. simpl in Ht. subst t2.
    rewrite (leaf_step _ _ _ _ _ _ _ _ Hps' Hq).
    case_decide as Hnull; [unfold ret in Hk; by simplify_eq|].
    destruct ds as [|d2 ds'].
    + cbn in Hk |- *. unfold ret in *. by simplify_eq.
    + cbn [leaf]. unfold bind, load_pointer.
      rewrite (Hslots q); [done| |done]. by eapply list_elem_of_lookup_2.
  - intros Hne. unfold ShadowMap_dtor. rewrite destructAt_level.
    unfold bind at 1. unfold emit.
    rewrite <- Hlen, Nat2Z.id.
    change 0 with (Z.of_nat (length (@nil Z))).
    rewrite (for_loop_second_teardown d1 ds this ps h' Hps' Hslots ps []); [done..|].
    rewrite (nodes_level _ _ _ _ _ _ Hps) in Hne.
    destruct (ps ≫= below d1 ds h) as [|x l] eqn:E; [done|].
    assert (Hx : x ∈ ps ≫= below d1 ds h) by (rewrite E; by left).
    apply list_elem_of_bind in Hx as (q & Hx & Hq).
    apply elem_of_below in Hx as [Hnull _]. eauto.
Qed.

Lemma live_one_leaf : live 1 [1] one_leaf 10.
Proof.
  assert (E : one_leaf !! 10 = Some (Level [0; 11])) by (vm_compute; reflexivity).
  assert (E' : one_leaf !! 11 = Some Last) by (vm_compute; reflexivity).
  split_and!.
  - unfold nullptr. lia.
  - cbn [shaped]. rewrite E. split; [vm_compute; reflexivity|].
    apply Forall_cons. split; [by left|].
    apply Forall_cons. split; [right; exact E'|by apply Forall_nil].
  - rewrite nodes_cons, E. apply (bool_decide_unpack _). vm_compute. exact I.
Qed.

Lemma slots_dangle_after_teardown_witness :
  live 1 [1] one_leaf 10 ∧
  ∃ h' t, ShadowMap_dtor 1 [1] 10 one_leaf = Some (tt, h', t) ∧
    h' !! 10 = one_leaf !! 10 ∧
    (∀ A r, leaf 1 [1] 10 A one_leaf = Some (r, one_leaf, []) → r ≠ nullptr →
       h' !! r = None ∧ leaf 1 [1] 10 A h' = Some (r, h', [])) ∧
    (nodes 1 [1] one_leaf 10 ≠ [] → ShadowMap_dtor 1 [1] 10 h' = None).
Proof.
  split; [exact live_one_leaf|].
  exact (slots_dangle_after_teardown 1 1 [] 10 one_leaf live_one_leaf).
Defined.

(** ** Constructing over a map that is in use *)

(** X11.  [constructAt] releases nothing.  Run on a map that holds lower
    maps, it sets every slot to [nullptr] without a call to the host: the
    lower maps stay in the store as they are, the map no longer reaches any
    of them, and the destructor then releases none of them. *)
Theorem constructAt_orphans_lower_maps d0 d1 ds this h :
  live d0 (d1 :: ds) h this →
  ∃ h1, constructAt d0 (d1 :: ds) this h = Some (tt, h1, []) ∧
    (∀ x, x ≠ this → h1 !! x = h !! x) ∧
    nodes d0 (d1 :: ds) h1 this = [] ∧
    ∃ h2 t, ShadowMap_dtor d0 (d1 :: ds) this h1 = Some (tt, h2, t) ∧
      freed t = [] ∧
      ∀ x, x ∈ nodes d0 (d1 :: ds) h this → is_Some (h !! x) ∧ h2 !! x = h !! x.
Proof.
  intros Hlive. destruct (live_NoDup_nodes _ _ _ _ Hlive) as (_ & Hnot & _).
  destruct Hlive as (_ & Hs & _).
  assert (Hthis : is_Some (h !! this)) by (eapply shaped_is_Some; [done|by left]).
  exists (<[this := constructed_object d0 (d1 :: ds)]> h).
  split; [by rewrite constructAt_Some|].
  split; [intros x Hx; by rewrite lookup_insert_ne|].
  destruct (constructed_object_fresh d0 (d1 :: ds)
              (<[this := constructed_object d0 (d1 :: ds)]> h) this) as [Hs1 Hn1];
    [apply lookup_insert_eq|].
  split; [done|].
  destruct (destructAt_teardown d0 (d1 :: ds) this _ Hs1) as (h2 & Hrun & _ & _ & Hkept).
  { rewrite Hn1. apply NoDup_singleton. }
  exists h2, (teardown_trace d0 (d1 :: ds) (<[this := constructed_object d0 (d1 :: ds)]> h) this).
  split; [done|]. rewrite freed_teardown_trace. split; [done|].
  intros x Hx. split; [eapply shaped_is_Some; [done|by right]|].
  assert (Hne : x ≠ this) by (intros ->; done).
  rewrite Hkept, lookup_insert_ne; [done..|].
  rewrite Hn1. by intros ->%list_elem_of_singleton.
Qed.

Lemma constructAt_orphans_lower_maps_witness :
  live 1 [1] one_leaf 10 ∧
  ∃ h1, constructAt 1 [1] 10 one_leaf = Some (tt, h1, []) ∧
    (∀ x, x ≠ 10 → h1 !! x = one_leaf !! x) ∧
    nodes 1 [1] h1 10 = [] ∧
    ∃ h2 t, ShadowMap_dtor 1 [1] 10 h1 = Some (tt, h2, t) ∧
      freed t = [] ∧
      ∀ x, x ∈ nodes 1 [1] one_leaf 10 → is_Some (one_leaf !! x) ∧ h2 !! x = one_leaf !! x.
Proof.
  split; [exact live_one_leaf|].
  exact (constructAt_orphans_lower_maps 1 1 [] 10 one_leaf live_one_leaf).
Defined.
